(** * actor-cpp: a shallow embedding of the actor runtime

    The development follows the C++ sources file by file:
    - [message.h], [message.cpp]: the [Message] value and its payload accessors;
    - [actor.h], [actor.cpp]: the actor life cycle, its mailbox and [send];
    - [event_loop.h], [event_loop.cpp]: the registry and message delivery;
    - [scheduler.h], [scheduler.cpp]: the selection policies.

    Objects held through [std::shared_ptr] live in a store indexed by
    addresses, so that an actor that is erased from a registry can still be
    observed by whoever else holds it.  Lines written to [std::cout] and
    [std::cerr] are collected, in order, in the store's output.  A call
    that an exception can leave yields a [completion]: the value returned
    or the exception, with the store the call leaves behind. *)

From Stdlib Require Import ZArith NArith.
From stdpp Require Import base decidable option list strings gmap.

Open Scope string_scope.

(** ** message.h *)

(** [enum class Priority { LOW = 0, NORMAL = 1, HIGH = 2, CRITICAL = 3 }] *)
Inductive Priority := LOW | NORMAL | HIGH | CRITICAL.

#[global] Instance Priority_eq_dec : EqDecision Priority.
Proof. solve_decision. Defined.

(** [static_cast<int>(priority)] *)
Definition priority_to_int (p : Priority) : Z :=
  match p with
  | LOW => 0
  | NORMAL => 1
  | HIGH => 2
  | CRITICAL => 3
  end.

(** [std::any]: a value together with the identity of its type.  The closed
    universe below holds the types the repository stores in payloads
    ([bool] in the tests, [int] in the example) and [std::string]. *)
Inductive any :=
| any_bool (b : bool)
| any_int (z : Z)
| any_string (s : string).

(** [std::any_cast<T>]: succeeds only when the stored type is exactly [T];
    [None] stands for the [std::bad_any_cast] exception. *)
Class AnyCast (T : Type) := any_cast : any -> option T.

#[global] Instance any_cast_bool : AnyCast bool :=
  fun a => match a with any_bool b => Some b | _ => None end.
#[global] Instance any_cast_int : AnyCast Z :=
  fun a => match a with any_int z => Some z | _ => None end.
#[global] Instance any_cast_string : AnyCast string :=
  fun a => match a with any_string s => Some s | _ => None end.

(** [std::chrono::system_clock::time_point], as a tick count. *)
Definition time_point := Z.

Record Message := mkMessage {
  type_ : string;
  sender_id_ : string;
  target_id_ : string;
  payload_ : gmap string any;
  created_at_ : time_point;
  priority_ : Priority
}.

(** The constructor of [message.cpp].  [now] is the value that
    [std::chrono::system_clock::now()] returns while the object is built. *)
Definition Message_ctor (type sender_id target_id : string)
    (payload : gmap string any) (priority : Priority) (now : time_point) : Message :=
  {| type_ := type;
     sender_id_ := sender_id;
     target_id_ := target_id;
     payload_ := payload;
     created_at_ := now;
     priority_ := priority |}.

(** The two defaulted arguments of the declaration in [message.h]:
    [payload = {}] and [priority = Priority::NORMAL]. *)
Definition default_payload : gmap string any := ∅.
Definition default_priority : Priority := NORMAL.

Definition get_type (m : Message) : string := type_ m.
Definition get_sender_id (m : Message) : string := sender_id_ m.
Definition get_target_id (m : Message) : string := target_id_ m.
Definition get_payload (m : Message) : gmap string any := payload_ m.
Definition get_created_at (m : Message) : time_point := created_at_ m.
Definition get_priority (m : Message) : Priority := priority_ m.

Definition has_payload_key (m : Message) (key : string) : bool :=
  bool_decide (is_Some (payload_ m !! key)).

(** What a member function can throw: [std::runtime_error(what)]. *)
Inductive exception := runtime_error (what : string).

(** The outcome of a call that either returns or throws. *)
Inductive outcome (T : Type) :=
| Returns (v : T)
| Throws (e : exception).
Arguments Returns {T} v.
Arguments Throws {T} e.

Section PayloadAccess.
(** [e.what()] of [std::bad_any_cast]: chosen by the standard library. *)
Variable bad_any_cast_what : string.

Context {T : Type} `{AnyCast T}.

Definition get_payload_value (m : Message) (key : string) : outcome T :=
  match payload_ m !! key with
  | Some second =>
      match any_cast second with
      | Some v => Returns v
      | None =>
          Throws (runtime_error
                    ("Type mismatch for key '" ++ key ++ "': " ++ bad_any_cast_what))
      end
  | None => Throws (runtime_error ("Key not found in payload: " ++ key))
  end.

Definition get_payload_value_or (m : Message) (key : string) (default_value : T) : T :=
  match payload_ m !! key with
  | Some second =>
      match any_cast second with
      | Some v => v
      | None => default_value
      end
  | None => default_value
  end.
End PayloadAccess.

(** ** actor.h, event_loop.h: the data *)

(** [enum class State] of [Actor]. *)
Inductive State := CREATED | INITIALIZED | RUNNING | STOPPING | STOPPED.

#[global] Instance State_eq_dec : EqDecision State.
Proof. solve_decision. Defined.

(** Addresses of the objects held through [std::shared_ptr] and
    [std::weak_ptr]. *)
Abbreviation addr := nat.

(** A [MessageHandler] is a [std::function<void(const Message&)>]: an opaque
    callable.  The table stores which callable is registered; what calling it
    does is given by the function [invoke] of the section [ActorMethods]. *)
Abbreviation MessageHandler := nat.

Record Actor := mkActor {
  id_ : string;
  name_ : string;
  state_ : State;
  message_queue_ : list Message;            (* front of the queue first *)
  handlers_ : gmap string MessageHandler;
  event_loop_ : addr                         (* the weak reference *)
}.

(** The registry and the run flag.  The member [scheduler_] is left out:
    none of the member functions modelled below reads it. *)
Record EventLoop := mkEventLoop {
  actors_ : gmap string addr;
  running_ : bool
}.

(** The lines the code writes to [std::cout] (constructors [out_]) and
    [std::cerr] (constructors [err_]), with the values they print. *)
Inductive Output :=
| err_cannot_initialize (name : string) (current_state : State)
| err_cannot_start (name : string) (current_state : State)
| out_state_changed (name id : string) (old_state new_state : State)
| err_rejected_message (name : string) (current_state : State)
| err_unhandled_message_type (name id type : string)
| err_send_no_event_loop
| out_registered_actor (name id : string)
| out_removed_actor (name id : string)
| err_target_not_running (target_id : string)
| err_target_not_found (target_id : string).

(** The store: live actors, live event loops, and everything printed so
    far.  A weak reference whose address is absent from [event_loops] has
    expired. *)
Record World := mkWorld {
  actors : gmap addr Actor;
  event_loops : gmap addr EventLoop;
  output : list Output
}.

Definition with_state (new_state : State) (A : Actor) : Actor :=
  {| id_ := id_ A; name_ := name_ A; state_ := new_state;
     message_queue_ := message_queue_ A; handlers_ := handlers_ A;
     event_loop_ := event_loop_ A |}.

Definition with_message_queue (q : list Message) (A : Actor) : Actor :=
  {| id_ := id_ A; name_ := name_ A; state_ := state_ A;
     message_queue_ := q; handlers_ := handlers_ A;
     event_loop_ := event_loop_ A |}.

Definition with_handlers (h : gmap string MessageHandler) (A : Actor) : Actor :=
  {| id_ := id_ A; name_ := name_ A; state_ := state_ A;
     message_queue_ := message_queue_ A; handlers_ := h;
     event_loop_ := event_loop_ A |}.

Definition write_actor (this : addr) (A : Actor) (w : World) : World :=
  {| actors := <[this := A]> (actors w);
     event_loops := event_loops w;
     output := output w |}.

Definition write_event_loop (loop : addr) (E : EventLoop) (w : World) : World :=
  {| actors := actors w;
     event_loops := <[loop := E]> (event_loops w);
     output := output w |}.

Definition print (line : Output) (w : World) : World :=
  {| actors := actors w;
     event_loops := event_loops w;
     output := output w ++ [line] |}.

(** ** actor.cpp

    Every member function takes [this] and the store.  A call through an
    address that holds no actor does nothing: owners keep their actors
    alive, so the case does not arise for a well-formed caller. *)

(** [Actor::Actor]: [id] is the string [generate_id()] draws. *)
Definition Actor_ctor (name : string) (event_loop : addr) (id : string) : Actor :=
  {| id_ := id; name_ := name; state_ := CREATED; message_queue_ := [];
     handlers_ := ∅; event_loop_ := event_loop |}.

Definition get_state (this : addr) (w : World) : option State :=
  state_ <$> actors w !! this.

Definition mailbox (this : addr) (w : World) : option (list Message) :=
  message_queue_ <$> actors w !! this.

Definition is_running (this : addr) (w : World) : bool :=
  bool_decide (get_state this w = Some RUNNING).

Definition has_messages (this : addr) (w : World) : bool :=
  match mailbox this w with
  | Some (_ :: _) => true
  | _ => false
  end.

Definition message_count (this : addr) (w : World) : nat :=
  match mailbox this w with
  | Some q => length q
  | None => 0
  end.

(** [on_state_changed] is the empty virtual function of the base class, so
    only the assignment and the printed line remain. *)
Definition set_state (this : addr) (new_state : State) (w : World) : World :=
  match actors w !! this with
  | None => w
  | Some A =>
      let old_state := state_ A in
      print (out_state_changed (name_ A) (id_ A) old_state new_state)
        (write_actor this (with_state new_state A) w)
  end.

Definition initialize (this : addr) (w : World) : World :=
  match actors w !! this with
  | None => w
  | Some A =>
      if decide (state_ A ≠ CREATED)
      then print (err_cannot_initialize (name_ A) (state_ A)) w
      else set_state this INITIALIZED w
  end.

Definition start (this : addr) (w : World) : World :=
  match actors w !! this with
  | None => w
  | Some A =>
      if decide (state_ A ≠ INITIALIZED)
      then print (err_cannot_start (name_ A) (state_ A)) w
      else set_state this RUNNING w
  end.

Definition stop (this : addr) (w : World) : World :=
  match actors w !! this with
  | None => w
  | Some A =>
      if decide (state_ A = STOPPED ∨ state_ A = STOPPING) then w
      else
        let w := set_state this STOPPING w in
        if negb (has_messages this w) then set_state this STOPPED w else w
  end.

Definition stop_immediately (this : addr) (w : World) : World :=
  match actors w !! this with
  | None => w
  | Some A =>
      let w := write_actor this (with_message_queue [] A) w in
      set_state this STOPPED w
  end.

Definition receive (this : addr) (message : Message) (w : World) : World :=
  match actors w !! this with
  | None => w
  | Some A =>
      if decide (state_ A ≠ RUNNING ∧ state_ A ≠ STOPPING)
      then print (err_rejected_message (name_ A) (state_ A)) w
      else write_actor this (with_message_queue (message_queue_ A ++ [message]) A) w
  end.

Definition register_handler (this : addr) (message_type : string)
    (handler : MessageHandler) (w : World) : World :=
  match actors w !! this with
  | None => w
  | Some A => write_actor this (with_handlers (<[message_type := handler]> (handlers_ A)) A) w
  end.

(** How a call ends: it returns a value, or an exception leaves it.  In
    both cases [after] is what the call leaves behind: what a function has
    written before an exception passes through it stays written. *)
Inductive completion (T St : Type) :=
| Done (v : T) (after : St)
| Raised (e : exception) (after : St).
Arguments Done {T St} v after.
Arguments Raised {T St} e after.

Definition state_after {T St : Type} (c : completion T St) : St :=
  match c with
  | Done _ after => after
  | Raised _ after => after
  end.

(** The value a call returns; [None] when an exception leaves it. *)
Definition value_of {T St : Type} (c : completion T St) : option T :=
  match c with
  | Done v _ => Some v
  | Raised _ _ => None
  end.

Section ActorMethods.
(** What calling a registered handler on a message does: the handler
    returns or throws, and leaves a store.  Handlers are application code:
    they may send, may call any member function of any actor they can
    reach, and may throw (the accessor [get_payload_value] does).  An
    exception is recorded as the [std::runtime_error] the repository
    throws; nothing below looks at what is thrown. *)
Variable invoke : MessageHandler -> Message -> World -> completion unit World.

(** There is no [try] block around the call of the handler: an exception
    of the handler leaves [process_next_message] at once, after the pop and
    before the test that ends the function. *)
Definition process_next_message (this : addr) (w : World) : completion bool World :=
  match actors w !! this with
  | None => Done false w
  | Some A =>
      if decide (state_ A = STOPPED) then Done false w
      else
        match message_queue_ A with
        | [] =>
            Done false
              (if decide (state_ A = STOPPING) then set_state this STOPPED w else w)
        | message :: rest =>
            let w := write_actor this (with_message_queue rest A) w in
            let called :=
              match handlers_ A !! get_type message with
              | Some handler => invoke handler message w
              | None =>
                  Done tt
                    (print (err_unhandled_message_type (name_ A) (id_ A) (get_type message)) w)
              end in
            match called with
            | Raised e w => Raised e w
            | Done _ w =>
                Done true
                  (if bool_decide (get_state this w = Some STOPPING)
                      && negb (has_messages this w)
                   then set_state this STOPPED w
                   else w)
            end
        end
  end.

(** The front message popped and dispatched: the handler registered for
    its type has been called, or the warning about an unhandled type has
    been printed. *)
Definition dispatched (this : addr) (A : Actor) (message : Message)
    (rest : list Message) (w : World) : completion unit World :=
  match handlers_ A !! get_type message with
  | Some handler => invoke handler message (write_actor this (with_message_queue rest A) w)
  | None =>
      Done tt
        (print (err_unhandled_message_type (name_ A) (id_ A) (get_type message))
           (write_actor this (with_message_queue rest A) w))
  end.

(** The test that ends [process_next_message], on the store the handler
    has left. *)
Definition finalized (this : addr) (w : World) : World :=
  if bool_decide (get_state this w = Some STOPPING) && negb (has_messages this w)
  then set_state this STOPPED w
  else w.
End ActorMethods.

(** The sentinel both [peek] functions return on an empty queue:
    [Message("empty", "", "", {})]. *)
Definition empty_message (now : time_point) : Message :=
  Message_ctor "empty" "" "" default_payload default_priority now.

Definition peek_next_message (A : Actor) (now : time_point) : Message :=
  match message_queue_ A with
  | [] => empty_message now
  | front :: _ => front
  end.

(** The [while (!queue_copy.empty())] loop of
    [peek_highest_priority_message], on the private copy of the queue. *)
Fixpoint peek_scan (queue_copy : list Message) (highest_priority_msg : Message) : Message :=
  match queue_copy with
  | [] => highest_priority_msg
  | current :: queue_copy =>
      peek_scan queue_copy
        (if (priority_to_int (get_priority current)
             >? priority_to_int (get_priority highest_priority_msg))%Z
         then current
         else highest_priority_msg)
  end.

(** A [const] member function: it reads the actor and returns a message;
    the pair it returns carries the actor as the call leaves it. *)
Definition peek_highest_priority_message (A : Actor) (now : time_point) : Message * Actor :=
  match message_queue_ A with
  | [] => (empty_message now, A)
  | front :: queue_copy => (peek_scan queue_copy front, A)
  end.

(** [r] sits at position [i] of [l], no message of [l] has a greater
    priority, and every message before position [i] has a smaller one. *)
Definition first_of_greatest_priority (l : list Message) (i : nat) (r : Message) : Prop :=
  l !! i = Some r
  ∧ (∀ j m, l !! j = Some m →
       (priority_to_int (get_priority m) ≤ priority_to_int (get_priority r))%Z)
  ∧ (∀ j m, j < i → l !! j = Some m →
       (priority_to_int (get_priority m) < priority_to_int (get_priority r))%Z).

(** ** event_loop.cpp *)

Definition find_actor (loop : addr) (actor_id : string) (w : World) : option addr :=
  match event_loops w !! loop with
  | None => None
  | Some E => actors_ E !! actor_id
  end.

Definition register_actor (loop : addr) (actor : addr) (w : World) : World :=
  match event_loops w !! loop, actors w !! actor with
  | Some E, Some A =>
      let w := write_event_loop loop
                 {| actors_ := <[id_ A := actor]> (actors_ E); running_ := running_ E |} w in
      let w := print (out_registered_actor (name_ A) (id_ A)) w in
      if running_ E then
        if decide (get_state actor w = Some CREATED) then start actor (initialize actor w)
        else if decide (get_state actor w = Some INITIALIZED) then start actor w
        else w
      else w
  | _, _ => w
  end.

Definition remove_actor (loop : addr) (actor_id : string) (w : World) : World :=
  match event_loops w !! loop with
  | None => w
  | Some E =>
      match actors_ E !! actor_id with
      | Some actor =>
          let w := if is_running actor w then stop_immediately actor w else w in
          let w := write_event_loop loop
                     {| actors_ := delete actor_id (actors_ E); running_ := running_ E |} w in
          match actors w !! actor with
          | Some A => print (out_removed_actor (name_ A) (id_ A)) w
          | None => w
          end
      | None => w
      end
  end.

Definition deliver_message (loop : addr) (message : Message) (w : World) : World :=
  match find_actor loop (get_target_id message) w with
  | Some target_actor =>
      if is_running target_actor w
      then receive target_actor message w
      else print (err_target_not_running (get_target_id message)) w
  | None => print (err_target_not_found (get_target_id message)) w
  end.

(** ** actor.cpp: [Actor::send] *)

(** The two rewriting steps of [send], on the by-value parameter [message].
    Each [Message(...)] expression reads the clock on its own: [now1] in the
    first step and [now2] in the second. *)
Definition send_rewrite (id : string) (target_actor_id : string) (message : Message)
    (now1 now2 : time_point) : Message :=
  let message :=
    if decide (get_sender_id message = "")
    then Message_ctor (get_type message) id target_actor_id
           (get_payload message) default_priority now1
    else message in
  let message :=
    if decide (get_target_id message ≠ target_actor_id)
    then Message_ctor (get_type message) (get_sender_id message) target_actor_id
           (get_payload message) default_priority now2
    else message in
  message.

Definition send (this : addr) (target_actor_id : string) (message : Message)
    (now1 now2 : time_point) (w : World) : World :=
  match actors w !! this with
  | None => w
  | Some A =>
      match event_loops w !! event_loop_ A with
      | None => print err_send_no_event_loop w
      | Some _ =>
          deliver_message (event_loop_ A)
            (send_rewrite (id_ A) target_actor_id message now1 now2) w
      end
  end.

(** ** scheduler.cpp: [RoundRobinScheduler] *)

(** [size_t] is 64 bits wide. *)
Definition size_t_modulus : N := 2 ^ 64.

Record RoundRobinScheduler := mkRoundRobin { current_index_ : N }.

(** [RoundRobinScheduler::RoundRobinScheduler()] *)
Definition RoundRobinScheduler_ctor : RoundRobinScheduler := {| current_index_ := 0 |}.

Section RoundRobin.
(** The elements of the candidate vector ([std::shared_ptr<Actor>]). *)
Context {P : Type}.

(** [actors.size()] *)
Definition size (actors : list P) : N := N.of_nat (length actors).

(** The index the call works with, once the range check has run. *)
Definition checked_index (candidates : list P) (s : RoundRobinScheduler) : N :=
  if (size candidates <=? current_index_ s)%N then 0%N else current_index_ s.

(** [None] is the [nullptr] returned for an empty vector. *)
Definition next_actor (actors : list P) (s : RoundRobinScheduler)
    : option P * RoundRobinScheduler :=
  match actors with
  | [] => (None, s)
  | _ :: _ =>
      let current_index :=
        if (size actors <=? current_index_ s)%N then 0%N else current_index_ s in
      let actor := actors !! N.to_nat current_index in
      (actor,
       {| current_index_ :=
            (((current_index + 1) mod size_t_modulus) mod size actors)%N |})
  end.

(** [n] consecutive calls on the same candidate vector: the actors
    returned, in call order, and the scheduler afterwards. *)
Fixpoint next_actor_times (n : nat) (actors : list P) (s : RoundRobinScheduler)
    : list (option P) * RoundRobinScheduler :=
  match n with
  | O => ([], s)
  | S n =>
      let '(actor, s) := next_actor actors s in
      let '(rest, s) := next_actor_times n actors s in
      (actor :: rest, s)
  end.
End RoundRobin.

(** ** Sequences of core operations on one actor *)

Inductive CoreOp :=
| op_initialize
| op_start
| op_stop
| op_receive (message : Message)
| op_process_next_message.

Section CoreOps.
Variable invoke : MessageHandler -> Message -> World -> completion unit World.

(** One call, seen by a caller that goes on whether the call returned or
    threw: the store the call leaves. *)
Definition run_op (this : addr) (op : CoreOp) (w : World) : World :=
  match op with
  | op_initialize => initialize this w
  | op_start => start this w
  | op_stop => stop this w
  | op_receive message => receive this message w
  | op_process_next_message => state_after (process_next_message invoke this w)
  end.

Fixpoint run_ops (this : addr) (ops : list CoreOp) (w : World) : World :=
  match ops with
  | [] => w
  | op :: ops => run_ops this ops (run_op this op w)
  end.

(** Every handler returns: none throws. *)
Definition handlers_return : Prop :=
  ∀ handler message w, ∃ w', invoke handler message w = Done tt w'.

(** While the actor at [this] is draining its mailbox, the handlers
    return and leave it [STOPPING]; they may put messages into its
    mailbox. *)
Definition handlers_keep_draining (this : addr) : Prop :=
  ∀ handler message w,
    get_state this w = Some STOPPING →
    ∃ w', invoke handler message w = Done tt w'
          ∧ get_state this w' = Some STOPPING.

(** While the actor at [this] is draining its mailbox, the handlers
    return and leave alone its state and its mailbox. *)
Definition handlers_spare_draining (this : addr) : Prop :=
  ∀ handler message w,
    get_state this w = Some STOPPING →
    ∃ w', invoke handler message w = Done tt w'
          ∧ get_state this w' = get_state this w
          ∧ mailbox this w' = mailbox this w.
End CoreOps.

(** A draining actor, seen between two core operations: it is
    [STOPPING] and still holds a message, or it is [STOPPED] with an
    empty mailbox. *)
Definition draining_or_stopped (this : addr) (w : World) : Prop :=
  (get_state this w = Some STOPPING
   ∧ ∃ message rest, mailbox this w = Some (message :: rest))
  ∨ (get_state this w = Some STOPPED ∧ mailbox this w = Some []).

(** ** Concrete stores used to exercise the statements *)

Module Examples.
Definition msg (type sender target : string) (priority : Priority) (now : time_point) : Message :=
  Message_ctor type sender target default_payload priority now.

(** One event loop at address 0 and a freshly constructed actor at
    address 0 of the actor store, not yet registered. *)
Definition w_created : World :=
  {| actors := {[ 0 := Actor_ctor "worker" 0 "id-worker" ]};
     event_loops := {[ 0 := {| actors_ := ∅; running_ := false |} ]};
     output := [] |}.

Definition w_running : World :=
  start 0 (initialize 0 (register_actor 0 0 w_created)).

(** Two messages delivered through the loop, and the first one of type
    ["ping"] has a registered handler. *)
Definition w_two_messages : World :=
  deliver_message 0 (msg "pong" "id-other" "id-worker" HIGH 6%Z)
    (deliver_message 0 (msg "ping" "id-other" "id-worker" NORMAL 5%Z)
       (register_handler 0 "ping" 7 w_running)).

Definition w_draining : World := stop 0 w_two_messages.

(** The running worker with a handler registered for "pong" and one
    message of that type, without a payload, in its mailbox; and the same
    once [stop] has been called. *)
Definition w_one_pong : World :=
  deliver_message 0 (msg "pong" "id-other" "id-worker" NORMAL 5%Z)
    (register_handler 0 "pong" 8 w_running).

Definition w_pong_draining : World := stop 0 w_one_pong.

(** A handler in the manner of the repository's test actor: the actor at
    address 0 answers the sender of the message through [send]. *)
Definition reply_handler (handler : MessageHandler) (message : Message) (w : World)
    : completion unit World :=
  Done tt
    (send 0 (get_sender_id message)
       (msg "pong" "id-worker" (get_sender_id message) NORMAL 7%Z) 8%Z 9%Z w).

(** A handler in the manner of [handle_pong] of the example program: it
    begins with [msg.get_payload_value<int>("count")], which throws when
    the message has no such key, and the handler does not catch. *)
Definition pong_handler (handler : MessageHandler) (message : Message) (w : World)
    : completion unit World :=
  match get_payload_value (T := Z) "bad any_cast" message "count" with
  | Throws e => Raised e w
  | Returns count => Done tt w
  end.

(** A handler that calls the public [stop_immediately] of its own actor,
    the actor at address 0. *)
Definition halting_handler (handler : MessageHandler) (message : Message) (w : World)
    : completion unit World :=
  Done tt (stop_immediately 0 w).

(** A handler that puts the message it was given back into the mailbox
    of its own actor through the public [receive]. *)
Definition requeueing_handler (handler : MessageHandler) (message : Message) (w : World)
    : completion unit World :=
  Done tt (receive 0 message w).

Definition payload_msg : Message :=
  Message_ctor "test" "id-other" "id-worker"
    (<["reply" := any_bool true]> (<["count" := any_int 1]> ∅)) NORMAL 3%Z.
End Examples.

(** ** Further members of [Message] and [Actor] *)

(** [Message::compare_priority] *)
Definition compare_priority (a b : Message) : bool :=
  (priority_to_int (priority_ a) <? priority_to_int (priority_ b))%Z.

(** [Message::set_priority] *)
Definition set_priority (priority : Priority) (m : Message) : Message :=
  {| type_ := type_ m; sender_id_ := sender_id_ m; target_id_ := target_id_ m;
     payload_ := payload_ m; created_at_ := created_at_ m; priority_ := priority |}.

(** [static_cast<int>(state)], the number the diagnostics print. *)
Definition state_to_int (s : State) : Z :=
  match s with
  | CREATED => 0
  | INITIALIZED => 1
  | RUNNING => 2
  | STOPPING => 3
  | STOPPED => 4
  end.

(** [receive] called once for each message of a list, in order. *)
Fixpoint receive_all (this : addr) (messages : list Message) (w : World) : World :=
  match messages with
  | [] => w
  | message :: messages => receive_all this messages (receive this message w)
  end.

(** The handlers never change the state of the actor at [this]. *)
Definition handlers_keep_state
    (invoke : MessageHandler -> Message -> World -> completion unit World)
    (this : addr) : Prop :=
  ∀ handler message w,
    get_state this (state_after (invoke handler message w)) = get_state this w.

(** The handlers change neither the state nor the mailbox of the actor at
    [this], whether they return or throw. *)
Definition handlers_spare
    (invoke : MessageHandler -> Message -> World -> completion unit World)
    (this : addr) : Prop :=
  ∀ handler message w,
    get_state this (state_after (invoke handler message w)) = get_state this w
    ∧ mailbox this (state_after (invoke handler message w)) = mailbox this w.

(** Every actor of [w] is still in [w'], with the id, the name and the
    loop reference it had. *)
Definition same_identities (w w' : World) : Prop :=
  ∀ a A, actors w !! a = Some A →
    ∃ A', actors w' !! a = Some A'
          ∧ id_ A' = id_ A ∧ name_ A' = name_ A ∧ event_loop_ A' = event_loop_ A.

(** Every actor of [w] that is still in [w'] has the id, the name and
    the loop reference it had.  The store does not track the owners of an
    actor, so it cannot tell whether an actor whose registry entry has been
    erased or overwritten is destroyed; this relation says nothing about
    such an actor. *)
Definition kept_identities (w w' : World) : Prop :=
  ∀ a A A', actors w !! a = Some A → actors w' !! a = Some A' →
    id_ A' = id_ A ∧ name_ A' = name_ A ∧ event_loop_ A' = event_loop_ A.

(** Every entry of every registry leads to a live actor whose id is the
    key of the entry. *)
Definition registry_consistent (w : World) : Prop :=
  ∀ loop E actor_id actor,
    event_loops w !! loop = Some E →
    actors_ E !! actor_id = Some actor →
    ∃ A, actors w !! actor = Some A ∧ id_ A = actor_id.

Module MoreExamples.
(** A handler in the manner of the test actor's [handle_test] on a message
    without the "reply" key: it counts the message in a member of its own
    and touches nothing of the store. *)
Definition counting_handler (handler : MessageHandler) (message : Message) (w : World)
    : completion unit World := Done tt w.

(** A second actor "id-other" at address 1, registered with the loop and
    started, beside the running worker. *)
Definition w_pair : World :=
  start 1 (initialize 1
    (register_actor 0 1
       {| actors := <[1 := Actor_ctor "other" 0 "id-other"]> (actors Examples.w_running);
          event_loops := event_loops Examples.w_running;
          output := output Examples.w_running |})).

(** The two running actors with one queued message each: a [LOW] one
    for the worker, then a [HIGH] one for the other actor. *)
Definition w_low_high : World :=
  deliver_message 0 (Examples.msg "job" "id-sender" "id-other" HIGH 6%Z)
    (deliver_message 0 (Examples.msg "job" "id-sender" "id-worker" LOW 5%Z) w_pair).

(** The store [w_two_messages] once [run] has set the run flag of the
    loop. *)
Definition w_loop_running : World :=
  write_event_loop 0 {| actors_ := {[ "id-worker" := 0 ]}; running_ := true |}
    Examples.w_two_messages.
End MoreExamples.

(** ** actor.cpp: [generate_id] *)

From Stdlib Require Import Ascii.

(** One draw [dis(gen)] of [std::uniform_int_distribution<>(0, 15)] is a
    number from 0 to 15.  Streamed as an [int] under [std::hex] it prints as
    one lower-case hexadecimal digit. *)
Definition hex_digit (d : fin 16) : Ascii.ascii :=
  match fin_to_nat d with
  | 0 => "0" | 1 => "1" | 2 => "2" | 3 => "3" | 4 => "4" | 5 => "5" | 6 => "6"
  | 7 => "7" | 8 => "8" | 9 => "9" | 10 => "a" | 11 => "b" | 12 => "c"
  | 13 => "d" | 14 => "e" | _ => "f"
  end%char.

(** [static_cast<char>((dis(gen) & 0x3) | 0x8)]: streamed as a [char], so
    the character with that code is written, not a digit. *)
Definition variant_char (d : fin 16) : Ascii.ascii :=
  Ascii.ascii_of_N (N.lor (N.land (N.of_nat (fin_to_nat d)) 3) 8).

(** The digits of the draws number [first], [first + 1], ... ([count] of
    them), one [for] loop of [generate_id]. *)
Fixpoint hex_run (draw : nat -> fin 16) (first count : nat) : string :=
  match count with
  | O => ""
  | Datatypes.S count => String (hex_digit (draw first)) (hex_run draw (Datatypes.S first) count)
  end.

(** [draw i] is the [i]-th number the generator yields during the call. *)
Definition generate_id (draw : nat -> fin 16) : string :=
  hex_run draw 0 8 ++ "-" ++ hex_run draw 8 4 ++ "-4" ++ hex_run draw 12 3 ++ "-"
  ++ String (variant_char (draw 15)) (hex_run draw 16 3) ++ "-" ++ hex_run draw 19 12.

(** ** scheduler.cpp: the other policies *)

(** [std::max_element(first, last, comp)] and [std::min_element], as
    the standard library defines them: one pass that keeps the first
    greatest (smallest) element met so far.  [None] is the end iterator of
    an empty range. *)
Fixpoint max_element_from {T : Type} (comp : T -> T -> bool) (largest : T) (rest : list T) : T :=
  match rest with
  | [] => largest
  | x :: rest => max_element_from comp (if comp largest x then x else largest) rest
  end.

Definition max_element {T : Type} (comp : T -> T -> bool) (range : list T) : option T :=
  match range with
  | [] => None
  | first :: rest => Some (max_element_from comp first rest)
  end.

Fixpoint min_element_from {T : Type} (comp : T -> T -> bool) (smallest : T) (rest : list T) : T :=
  match rest with
  | [] => smallest
  | x :: rest => min_element_from comp (if comp x smallest then x else smallest) rest
  end.

Definition min_element {T : Type} (comp : T -> T -> bool) (range : list T) : option T :=
  match range with
  | [] => None
  | first :: rest => Some (min_element_from comp first rest)
  end.

(** [actor->get_id()] through a pointer of the candidate vector.  The
    vector holds owning pointers, so the actor is live; for an address that
    holds no actor the model answers the empty string. *)
Definition get_id (actor : addr) (w : World) : string :=
  match actors w !! actor with
  | Some A => id_ A
  | None => ""
  end.

Module PriorityScheduler.
(** [PriorityFunction]: a [std::function<int(const std::shared_ptr<Actor>&)>],
    here a function of the actor's address and the store. *)
Definition PriorityFunction : Type := addr -> World -> Z.

Definition default_priority (actor : addr) (w : World) : Z :=
  if has_messages actor w then 1%Z else 0%Z.

Record t := mk { priority_func_ : PriorityFunction }.

(** The constructor: a null [priority_func] selects [default_priority]. *)
Definition ctor (priority_func : option PriorityFunction) : t :=
  {| priority_func_ := match priority_func with
                       | Some f => f
                       | None => default_priority
                       end |}.

Definition next_actor (actors : list addr) (w : World) (s : t) : option addr :=
  match actors with
  | [] => None
  | _ :: _ =>
      max_element (fun a b => (priority_func_ s a w <? priority_func_ s b w)%Z) actors
  end.
End PriorityScheduler.

Module MessagePriorityScheduler.
(** [static_cast<int>(peek_highest_priority_message(actor).get_priority())].
    [now] is the clock reading of the sentinel message, should the mailbox
    be empty; an address that holds no actor is given the value of an empty
    mailbox. *)
Definition peek_priority (actor : addr) (w : World) (now : time_point) : Z :=
  match actors w !! actor with
  | Some A => priority_to_int (get_priority (fst (peek_highest_priority_message A now)))
  | None => priority_to_int (get_priority (empty_message now))
  end.

Definition next_actor (actors : list addr) (w : World) (now : time_point) : option addr :=
  match actors with
  | [] => None
  | _ :: _ =>
      max_element (fun a b => (peek_priority a w now <? peek_priority b w now)%Z) actors
  end.
End MessagePriorityScheduler.

Module FairScheduler.
(** [std::chrono::system_clock] counts nanoseconds in a signed 64-bit
    integer, and so does every duration computed from its time points:
    the value of a result that does not fit wraps around. *)
Definition int64 (z : Z) : Z := ((z + 2 ^ 63) mod 2 ^ 64 - 2 ^ 63)%Z.

(** The conversion of a [std::chrono::milliseconds] to the duration of
    the clock: a multiplication by 1000000 in 64 bits.  The comparison
    [now - it->second > max_starvation_time_] applies it to its right
    operand. *)
Definition to_clock_duration (milliseconds : Z) : Z := int64 (milliseconds * 1000000).

(** [max_starvation_time_] is a [std::chrono::milliseconds]: a count of
    milliseconds. *)
Record t := mk {
  last_scheduled_ : gmap string time_point;
  max_starvation_time_ : Z
}.

(** The constructor, from a count of milliseconds. *)
Definition ctor (max_starvation_time : Z) : t :=
  {| last_scheduled_ := ∅; max_starvation_time_ := max_starvation_time |}.

(** The default argument of the declaration, [std::chrono::seconds(5)]. *)
Definition default_max_starvation_time : Z := 5000.

Definition stamp (actor_id : string) (now : time_point) (s : t) : t :=
  {| last_scheduled_ := <[actor_id := now]> (last_scheduled_ s);
     max_starvation_time_ := max_starvation_time_ s |}.

(** The condition of the first loop: never scheduled, or
    [now - it->second > max_starvation_time_]. *)
Definition starved (actor : addr) (w : World) (now : time_point) (s : t) : bool :=
  match last_scheduled_ s !! get_id actor w with
  | None => true
  | Some second =>
      (int64 (now - second) >? to_clock_duration (max_starvation_time_ s))%Z
  end.

(** The [for] loop over the candidates, up to its [return]. *)
Fixpoint first_starved (actors : list addr) (w : World) (now : time_point) (s : t)
    : option addr :=
  match actors with
  | [] => None
  | actor :: actors =>
      if starved actor w now s then Some actor else first_starved actors w now s
  end.

(** The comparison handed to [std::min_element]. *)
Definition scheduled_before (w : World) (s : t) (a b : addr) : bool :=
  match last_scheduled_ s !! get_id a w, last_scheduled_ s !! get_id b w with
  | None, _ => true
  | Some _, None => false
  | Some second_a, Some second_b => (second_a <? second_b)%Z
  end.

Definition next_actor (actors : list addr) (w : World) (now : time_point) (s : t)
    : option addr * t :=
  match actors with
  | [] => (None, s)
  | _ :: _ =>
      match first_starved actors w now s with
      | Some actor => (Some actor, stamp (get_id actor w) now s)
      | None =>
          match min_element (scheduled_before w s) actors with
          | Some oldest_scheduled =>
              (Some oldest_scheduled, stamp (get_id oldest_scheduled w) now s)
          | None => (None, s)
          end
      end
  end.
End FairScheduler.

Module FairExamples.
(** A scheduler with the given starvation time, in milliseconds, that
    has selected "id-worker" at tick 100 and "id-other" at tick 50. *)
Definition stamped (max_starvation_time : Z) : FairScheduler.t :=
  FairScheduler.stamp "id-other" 50%Z
    (FairScheduler.stamp "id-worker" 100%Z (FairScheduler.ctor max_starvation_time)).
End FairExamples.

Module MessagePriorityScheduler_state.
(** [MessagePriorityScheduler] has no data members. *)
Inductive t := mk.
End MessagePriorityScheduler_state.

(** The abstract class [Scheduler]: one virtual function [next_actor] from
    the candidate vector to one of its pointers, which may update the
    scheduler.  The store is what the pointers give access to, and [now] is
    the clock reading of the call. *)
Class Scheduler (S : Type) :=
  scheduler_next_actor : list addr -> World -> time_point -> S -> option addr * S.

#[global] Instance RoundRobinScheduler_Scheduler : Scheduler RoundRobinScheduler :=
  fun actors _ _ s => next_actor actors s.
#[global] Instance PriorityScheduler_Scheduler : Scheduler PriorityScheduler.t :=
  fun actors w _ s => (PriorityScheduler.next_actor actors w s, s).
#[global] Instance MessagePriorityScheduler_Scheduler :
    Scheduler MessagePriorityScheduler_state.t :=
  fun actors w now s => (MessagePriorityScheduler.next_actor actors w now, s).
#[global] Instance FairScheduler_Scheduler : Scheduler FairScheduler.t :=
  fun actors w now s => FairScheduler.next_actor actors w now s.

(** A scheduler that answers every non-empty candidate vector with one of
    the candidates. *)
Class SchedulerPicks (S : Type) `{Scheduler S} : Prop :=
  scheduler_picks :
    ∀ (actors : list addr) (w : World) (now : time_point) (s : S),
      actors ≠ [] →
      ∃ actor, fst (scheduler_next_actor actors w now s) = Some actor ∧ actor ∈ actors.

(** ** event_loop.cpp: the run cycle *)

Module Loop.
(** [EventLoop::stop] *)
Definition stop (loop : addr) (w : World) : World :=
  match event_loops w !! loop with
  | None => w
  | Some E => write_event_loop loop {| actors_ := actors_ E; running_ := false |} w
  end.

(** [EventLoop::is_running] *)
Definition is_running (loop : addr) (w : World) : bool :=
  match event_loops w !! loop with
  | None => false
  | Some E => running_ E
  end.
End Loop.

(** The two steps [run] and [register_actor] take with an actor that has
    not been started. *)
Definition bootstrap (actor : addr) (w : World) : World :=
  if decide (get_state actor w = Some CREATED) then start actor (initialize actor w)
  else if decide (get_state actor w = Some INITIALIZED) then start actor w
  else w.

(** The step of the last loop of [run]. *)
Definition stop_if_running (actor : addr) (w : World) : World :=
  if is_running actor w then stop actor w else w.

(** The condition under which [process_one_cycle] collects an actor. *)
Definition eligible (actor : addr) (w : World) : bool :=
  (is_running actor w || bool_decide (get_state actor w = Some STOPPING))
  && has_messages actor w.

(** The number of messages queued in the whole store. *)
Definition pending (w : World) : nat :=
  sum_list_with (λ entry, length (message_queue_ entry.2)) (map_to_list (actors w)).

(** The handlers change no actor and no event loop: they work on members
    of their own and print. *)
Definition handlers_quiet
    (invoke : MessageHandler -> Message -> World -> completion unit World) : Prop :=
  ∀ handler message w,
    actors (state_after (invoke handler message w)) = actors w
    ∧ event_loops (state_after (invoke handler message w)) = event_loops w.

Section EventLoopCycle.
Variable invoke : MessageHandler -> Message -> World -> completion unit World.

(** The order in which a range-[for] loop visits [actors_], a
    [std::unordered_map]: some enumeration of its entries. *)
Variable iteration : gmap string addr -> list (string * addr).

Context {S : Type} `{Scheduler S}.

Definition has_work (loop : addr) (w : World) : bool :=
  match event_loops w !! loop with
  | None => false
  | Some E =>
      if existsb (λ entry, is_running entry.2 w && has_messages entry.2 w)
           (iteration (actors_ E))
      then true
      else if existsb (λ entry, bool_decide (get_state entry.2 w = Some STOPPING)
                                && has_messages entry.2 w)
                (iteration (actors_ E))
      then true
      else false
  end.

(** The vector [active_actors] that [process_one_cycle] collects. *)
Definition active_actors (E : EventLoop) (w : World) : list addr :=
  (List.filter (λ entry, eligible entry.2 w) (iteration (actors_ E))).*2.

(** [scheduler] is the object the member [scheduler_] points to; it is kept
    beside the store.  An exception that leaves [process_next_message]
    leaves [process_one_cycle] too: nothing catches it. *)
Definition process_one_cycle (loop : addr) (now : time_point) (scheduler : S) (w : World)
    : completion unit (S * World) :=
  match event_loops w !! loop with
  | None => Done tt (scheduler, w)
  | Some E =>
      match active_actors E w with
      | [] => Done tt (scheduler, w)
      | _ :: _ =>
          let '(next, scheduler) :=
            scheduler_next_actor (active_actors E w) w now scheduler in
          match next with
          | Some next =>
              match process_next_message invoke next w with
              | Done _ w => Done tt (scheduler, w)
              | Raised e w => Raised e (scheduler, w)
              end
          | None => Done tt (scheduler, w)
          end
      end
  end.

(** The [while (running_ && has_work())] loop of [run].  Every turn takes
    one reading from [clock]; [None] means that the readings ran out before
    the loop ended.  An exception that leaves a cycle ends the loop and
    leaves it. *)
Fixpoint run_loop (clock : list time_point) (loop : addr) (scheduler : S) (w : World)
    : option (completion unit (S * World)) :=
  match clock with
  | [] =>
      if Loop.is_running loop w && has_work loop w then None
      else Some (Done tt (scheduler, w))
  | now :: clock =>
      if Loop.is_running loop w && has_work loop w
      then match process_one_cycle loop now scheduler w with
           | Done _ (scheduler, w) => run_loop clock loop scheduler w
           | Raised e after => Some (Raised e after)
           end
      else Some (Done tt (scheduler, w))
  end.

(** The first loop of [run]: every registered actor is started. *)
Definition run_start_actors (loop : addr) (w : World) : World :=
  match event_loops w !! loop with
  | None => w
  | Some E => foldl (λ w entry, bootstrap entry.2 w) w (iteration (actors_ E))
  end.

(** The last loop of [run]: every running actor is asked to stop. *)
Definition run_stop_actors (loop : addr) (w : World) : World :=
  match event_loops w !! loop with
  | None => w
  | Some E => foldl (λ w entry, stop_if_running entry.2 w) w (iteration (actors_ E))
  end.

(** The [while] loop of [run] and what follows it: the last loop runs
    when the [while] loop has ended; an exception that leaves the [while]
    loop leaves [run], and the last loop is not reached. *)
Definition run_loop_then_stop (clock : list time_point) (loop : addr) (scheduler : S)
    (w : World) : option (completion unit (S * World)) :=
  match run_loop clock loop scheduler w with
  | Some (Done _ (scheduler, w)) => Some (Done tt (scheduler, run_stop_actors loop w))
  | Some (Raised e after) => Some (Raised e after)
  | None => None
  end.
End EventLoopCycle.

(** What [bootstrap] makes of an actor, and what [stop_if_running] makes
    of it. *)
Definition started (A : Actor) : Actor :=
  if decide (state_ A = CREATED ∨ state_ A = INITIALIZED) then with_state RUNNING A else A.

Definition asked_to_stop (A : Actor) : Actor :=
  if decide (state_ A = RUNNING)
  then with_state (match message_queue_ A with [] => STOPPED | _ :: _ => STOPPING end) A
  else A.

(** The time stamp of a candidate, for candidates that have one. *)
Definition last_scheduled (w : World) (s : FairScheduler.t) (actor : addr) : Z :=
  default 0%Z (FairScheduler.last_scheduled_ s !! get_id actor w).

(** [r] sits at position [i] of [l], no element of [l] has a greater key,
    and every element before position [i] has a smaller one. *)
Definition first_greatest {T : Type} (key : T -> Z) (l : list T) (i : nat) (r : T) : Prop :=
  l !! i = Some r
  ∧ (∀ j x, l !! j = Some x → (key x ≤ key r)%Z)
  ∧ (∀ j x, j < i → l !! j = Some x → (key x < key r)%Z).

(** * Properties *)

(** ** Payload access *)

Section PayloadAccessFacts.
Variable bad_any_cast_what : string.
Context {T : Type} `{AnyCast T}.

Lemma get_payload_value_missing (m : Message) (key : string) :
  payload_ m !! key = None →
  get_payload_value bad_any_cast_what m key
  = Throws (runtime_error ("Key not found in payload: " ++ key)).
Proof. intros Hk. unfold get_payload_value. by rewrite Hk. Qed.

Lemma get_payload_value_mismatch (m : Message) (key : string) (second : any) :
  payload_ m !! key = Some second →
  any_cast (T:=T) second = None →
  get_payload_value bad_any_cast_what m key
  = Throws (runtime_error ("Type mismatch for key '" ++ key ++ "': " ++ bad_any_cast_what)).
Proof. intros Hk Hc. unfold get_payload_value. by rewrite Hk, Hc. Qed.

Lemma get_payload_value_present (m : Message) (key : string) (second : any) (v : T) :
  payload_ m !! key = Some second →
  any_cast second = Some v →
  get_payload_value bad_any_cast_what m key = Returns v.
Proof. intros Hk Hc. unfold get_payload_value. by rewrite Hk, Hc. Qed.

Lemma get_payload_value_or_cases (m : Message) (key : string) (d : T) :
  get_payload_value_or m key d
  = match get_payload_value bad_any_cast_what m key with
    | Returns v => v
    | Throws _ => d
    end.
Proof.
  unfold get_payload_value_or, get_payload_value.
  destruct (payload_ m !! key) as [second|]; [|done].
  by destruct (any_cast second).
Qed.
End PayloadAccessFacts.

(** C9.  The strict accessor [get_payload_value] throws a
    [std::runtime_error] whose text is "Key not found in payload: <key>" for
    a missing key and "Type mismatch for key '<key>': ..." for a value of
    another type, and the two failures are never equal; the defaulting
    accessor [get_payload_value_or] returns the caller's default in both
    cases (its result is a plain value: it cannot throw); when the key holds
    a value of the expected type both accessors return that value. *)
Theorem payload_accessors (bad_any_cast_what : string) (T : Type) (cast : AnyCast T)
    (m : Message) (key : string) (default_value : T) :
  (payload_ m !! key = None →
     get_payload_value bad_any_cast_what m key
     = Throws (runtime_error ("Key not found in payload: " ++ key))
     ∧ get_payload_value_or m key default_value = default_value)
  ∧ (∀ second, payload_ m !! key = Some second → any_cast (T:=T) second = None →
     get_payload_value (T:=T) bad_any_cast_what m key
     = Throws (runtime_error
                 ("Type mismatch for key '" ++ key ++ "': " ++ bad_any_cast_what))
     ∧ get_payload_value_or m key default_value = default_value)
  ∧ (∀ second v, payload_ m !! key = Some second → any_cast second = Some v →
     get_payload_value bad_any_cast_what m key = Returns v
     ∧ get_payload_value_or m key default_value = v)
  ∧ (∀ m' key' second,
     payload_ m !! key = None →
     payload_ m' !! key' = Some second → any_cast (T:=T) second = None →
     get_payload_value (T:=T) bad_any_cast_what m key
     ≠ get_payload_value bad_any_cast_what m' key').
Proof.
  repeat split.
  - by apply get_payload_value_missing.
  - rewrite (get_payload_value_or_cases bad_any_cast_what).
    by rewrite get_payload_value_missing.
  - by eapply get_payload_value_mismatch.
  - rewrite (get_payload_value_or_cases bad_any_cast_what).
    by erewrite get_payload_value_mismatch.
  - by eapply get_payload_value_present.
  - rewrite (get_payload_value_or_cases bad_any_cast_what).
    by erewrite get_payload_value_present.
  - intros m' key' second Hmiss Hk Hc.
    rewrite (get_payload_value_missing _ _ _ Hmiss).
    rewrite (get_payload_value_mismatch _ _ _ _ Hk Hc).
    simpl. discriminate.
Qed.

Lemma payload_accessors_witness :
  payload_ Examples.payload_msg !! "absent" = None
  ∧ payload_ Examples.payload_msg !! "reply" = Some (any_bool true)
  ∧ any_cast (T:=Z) (any_bool true) = None
  ∧ payload_ Examples.payload_msg !! "count" = Some (any_int 1)
  ∧ any_cast (T:=Z) (any_int 1) = Some 1%Z
  ∧ get_payload_value (T:=Z) "bad any_cast" Examples.payload_msg "absent"
    = Throws (runtime_error "Key not found in payload: absent")
  ∧ get_payload_value_or (T:=Z) Examples.payload_msg "absent" 9%Z = 9%Z
  ∧ get_payload_value (T:=Z) "bad any_cast" Examples.payload_msg "reply"
    = Throws (runtime_error "Type mismatch for key 'reply': bad any_cast")
  ∧ get_payload_value_or (T:=Z) Examples.payload_msg "reply" 9%Z = 9%Z
  ∧ get_payload_value (T:=Z) "bad any_cast" Examples.payload_msg "count" = Returns 1%Z
  ∧ get_payload_value_or (T:=Z) Examples.payload_msg "count" 9%Z = 1%Z
  ∧ get_payload_value (T:=Z) "bad any_cast" Examples.payload_msg "absent"
    ≠ get_payload_value (T:=Z) "bad any_cast" Examples.payload_msg "reply".
Proof.
  assert (Ha : payload_ Examples.payload_msg !! "absent" = None) by reflexivity.
  assert (Hr : payload_ Examples.payload_msg !! "reply" = Some (any_bool true))
    by reflexivity.
  assert (Hrc : any_cast (T:=Z) (any_bool true) = None) by reflexivity.
  assert (Hc : payload_ Examples.payload_msg !! "count" = Some (any_int 1))
    by reflexivity.
  assert (Hcc : any_cast (T:=Z) (any_int 1) = Some 1%Z) by reflexivity.
  destruct (payload_accessors "bad any_cast" Z _ Examples.payload_msg "absent" 9%Z)
    as (Hmissing & _ & _ & Hdistinct).
  destruct (payload_accessors "bad any_cast" Z _ Examples.payload_msg "reply" 9%Z)
    as (_ & Hmismatch & _ & _).
  destruct (payload_accessors "bad any_cast" Z _ Examples.payload_msg "count" 9%Z)
    as (_ & _ & Hpresent & _).
  destruct (Hmissing Ha) as [H1 H2].
  destruct (Hmismatch _ Hr Hrc) as [H3 H4].
  destruct (Hpresent _ _ Hc Hcc) as [H5 H6].
  repeat split; try assumption.
  exact (Hdistinct _ _ _ Ha Hr Hrc).
Defined.

(** ** The mailbox scan of [peek_highest_priority_message] *)

Lemma first_of_greatest_priority_singleton (m : Message) :
  first_of_greatest_priority [m] 0 m.
Proof.
  split; [done|]. split.
  - intros [|j] m' Hj; simplify_eq/=. lia.
  - intros j m' Hj; lia.
Qed.

(** One turn of the loop: the message [current] is appended to the part of
    the queue already looked at. *)
Lemma first_of_greatest_priority_snoc (seen : list Message) (i : nat)
    (highest current : Message) :
  first_of_greatest_priority seen i highest →
  ∃ i',
    first_of_greatest_priority (seen ++ [current]) i'
      (if (priority_to_int (get_priority current)
           >? priority_to_int (get_priority highest))%Z
       then current else highest).
Proof.
  intros (Hi & Hmax & Hfirst).
  destruct (Z.gtb_spec (priority_to_int (get_priority current))
              (priority_to_int (get_priority highest))) as [Hgt|Hle].
  - exists (length seen). split; [|split].
    + by rewrite lookup_app_r, Nat.sub_diag by lia.
    + intros j m Hj. apply lookup_app_Some in Hj as [Hj|[_ Hj]].
      * specialize (Hmax _ _ Hj). lia.
      * apply list_lookup_singleton_Some in Hj as [_ <-]. lia.
    + intros j m Hlt Hj. rewrite lookup_app_l in Hj by done.
      specialize (Hmax _ _ Hj). lia.
  - exists i. split; [|split].
    + rewrite lookup_app_l; [done|]. by eapply lookup_lt_Some.
    + intros j m Hj. apply lookup_app_Some in Hj as [Hj|[_ Hj]].
      * by eapply Hmax.
      * apply list_lookup_singleton_Some in Hj as [_ <-]. lia.
    + intros j m Hlt Hj. apply (Hfirst j m Hlt).
      rewrite lookup_app_l in Hj; [done|].
      apply lookup_lt_Some in Hi. lia.
Qed.

Lemma peek_scan_first_of_greatest (queue_copy : list Message) :
  ∀ (seen : list Message) (i : nat) (highest : Message),
    first_of_greatest_priority seen i highest →
    ∃ i', first_of_greatest_priority (seen ++ queue_copy) i' (peek_scan queue_copy highest).
Proof.
  induction queue_copy as [|current queue_copy IH]; intros seen i highest Hinv.
  - exists i. by rewrite app_nil_r.
  - destruct (first_of_greatest_priority_snoc seen i highest current Hinv) as [i1 Hinv1].
    destruct (IH _ _ _ Hinv1) as [i2 Hinv2].
    exists i2. by rewrite <- app_assoc in Hinv2.
Qed.

(** C7.  [peek_highest_priority_message] leaves the actor, and so its
    mailbox, as it found it.  On a non-empty mailbox it returns a queued
    message whose priority value no queued message exceeds and which comes
    before every other message of that priority (all messages in front of
    it have a strictly smaller priority); on an empty mailbox it returns
    the sentinel message of type "empty". *)
Theorem peek_highest_priority_message_spec (A : Actor) (now : time_point) :
  snd (peek_highest_priority_message A now) = A
  ∧ (message_queue_ A = [] →
       fst (peek_highest_priority_message A now)
       = Message_ctor "empty" "" "" ∅ NORMAL now)
  ∧ (message_queue_ A ≠ [] →
       ∃ i,
         message_queue_ A !! i = Some (fst (peek_highest_priority_message A now))
         ∧ (∀ j m, message_queue_ A !! j = Some m →
              (priority_to_int (get_priority m)
               ≤ priority_to_int (get_priority (fst (peek_highest_priority_message A now))))%Z)
         ∧ (∀ j m, j < i → message_queue_ A !! j = Some m →
              (priority_to_int (get_priority m)
               < priority_to_int (get_priority (fst (peek_highest_priority_message A now))))%Z)).
Proof.
  unfold peek_highest_priority_message.
  destruct (message_queue_ A) as [|front queue_copy] eqn:Hq; simpl.
  - repeat split; done.
  - split; [done|]. split; [done|]. intros _.
    destruct (peek_scan_first_of_greatest queue_copy [front] 0 front
                (first_of_greatest_priority_singleton front)) as [i Hi].
    exists i. exact Hi.
Qed.

Lemma peek_highest_priority_message_witness :
  message_queue_ (with_message_queue
                    [Examples.msg "a" "s" "t" NORMAL 1%Z;
                     Examples.msg "b" "s" "t" CRITICAL 2%Z;
                     Examples.msg "c" "s" "t" CRITICAL 3%Z]
                    (Actor_ctor "worker" 0 "id-worker")) ≠ []
  ∧ fst (peek_highest_priority_message
           (with_message_queue
              [Examples.msg "a" "s" "t" NORMAL 1%Z;
               Examples.msg "b" "s" "t" CRITICAL 2%Z;
               Examples.msg "c" "s" "t" CRITICAL 3%Z]
              (Actor_ctor "worker" 0 "id-worker")) 0%Z)
    = Examples.msg "b" "s" "t" CRITICAL 2%Z
  ∧ message_queue_ (Actor_ctor "worker" 0 "id-worker") = []
  ∧ type_ (fst (peek_highest_priority_message (Actor_ctor "worker" 0 "id-worker") 4%Z))
    = "empty".
Proof.
  split; [discriminate|]. split; [reflexivity|]. split; [reflexivity|].
  destruct (peek_highest_priority_message_spec (Actor_ctor "worker" 0 "id-worker") 4%Z)
    as (_ & Hempty & _).
  rewrite (Hempty eq_refl). reflexivity.
Defined.

(** ** [Actor::send] *)

Lemma send_rewrite_target (id target_actor_id : string) (message : Message)
    (now1 now2 : time_point) :
  get_target_id (send_rewrite id target_actor_id message now1 now2) = target_actor_id.
Proof.
  unfold send_rewrite. repeat case_decide; simpl in *; try done.
  all: by destruct (decide (get_target_id message = target_actor_id)).
Qed.

Lemma send_rewrite_sender (id target_actor_id : string) (message : Message)
    (now1 now2 : time_point) :
  get_sender_id (send_rewrite id target_actor_id message now1 now2)
  = if decide (get_sender_id message = "") then id else get_sender_id message.
Proof. unfold send_rewrite. repeat case_decide; simpl in *; done. Qed.

Lemma send_rewrite_unchanged (id target_actor_id : string) (message : Message)
    (now1 now2 : time_point) :
  get_sender_id message ≠ "" →
  get_target_id message = target_actor_id →
  send_rewrite id target_actor_id message now1 now2 = message.
Proof. intros Hs Ht. unfold send_rewrite. repeat case_decide; simpl in *; done. Qed.

Lemma send_rewrite_rebuilt (id target_actor_id : string) (message : Message)
    (now1 now2 : time_point) :
  get_sender_id message = "" ∨ get_target_id message ≠ target_actor_id →
  send_rewrite id target_actor_id message now1 now2
  = Message_ctor (get_type message)
      (if decide (get_sender_id message = "") then id else get_sender_id message)
      target_actor_id (get_payload message) NORMAL
      (if decide (get_sender_id message = "") then now1 else now2).
Proof.
  intros Hor. unfold send_rewrite.
  repeat case_decide; simpl in *; try done. by destruct Hor.
Qed.

Lemma send_live_loop (this : addr) (target_actor_id : string) (message : Message)
    (now1 now2 : time_point) (w : World) (A : Actor) (E : EventLoop) :
  actors w !! this = Some A →
  event_loops w !! event_loop_ A = Some E →
  send this target_actor_id message now1 now2 w
  = deliver_message (event_loop_ A)
      (send_rewrite (id_ A) target_actor_id message now1 now2) w.
Proof. intros HA HE. unfold send. by rewrite HA, HE. Qed.

Lemma send_expired_loop (this : addr) (target_actor_id : string) (message : Message)
    (now1 now2 : time_point) (w : World) (A : Actor) :
  actors w !! this = Some A →
  event_loops w !! event_loop_ A = None →
  send this target_actor_id message now1 now2 w = print err_send_no_event_loop w.
Proof. intros HA HE. unfold send. by rewrite HA, HE. Qed.

(** C6, as the specification words it, fails: a message that already names
    a sender keeps that sender.  The running actor "id-worker" sends a
    message whose sender field is "id-other"; the message handed to
    [deliver_message] still has sender "id-other". *)
Lemma send_keeps_foreign_sender :
  id_ <$> actors Examples.w_running !! 0 = Some "id-worker"
  ∧ send 0 "id-worker" (Examples.msg "ping" "id-other" "id-worker" HIGH 5%Z) 8%Z 9%Z
      Examples.w_running
    = deliver_message 0 (Examples.msg "ping" "id-other" "id-worker" HIGH 5%Z)
        Examples.w_running
  ∧ get_sender_id (send_rewrite "id-worker" "id-worker"
                     (Examples.msg "ping" "id-other" "id-worker" HIGH 5%Z) 8%Z 9%Z)
    ≠ "id-worker".
Proof. split; [reflexivity|]. split; [reflexivity|]. vm_compute. discriminate. Qed.

(** C6, amended.  The message [send] hands to [deliver_message] of the
    owning loop has its target field equal to [target_actor_id]; its sender
    field is the calling actor's id when the given message had an empty
    sender, and the given message's own sender otherwise.  When the weak
    reference to the loop has expired, [send] delivers nothing and only
    prints a diagnostic. *)
Theorem send_sets_target_and_missing_sender (this : addr) (target_actor_id : string)
    (message : Message) (now1 now2 : time_point) (w : World) (A : Actor) :
  actors w !! this = Some A →
  (∀ E, event_loops w !! event_loop_ A = Some E →
     ∃ handed,
       send this target_actor_id message now1 now2 w
       = deliver_message (event_loop_ A) handed w
       ∧ handed = send_rewrite (id_ A) target_actor_id message now1 now2
       ∧ get_target_id handed = target_actor_id
       ∧ (get_sender_id message = "" → get_sender_id handed = id_ A)
       ∧ (get_sender_id message ≠ "" → get_sender_id handed = get_sender_id message))
  ∧ (event_loops w !! event_loop_ A = None →
       send this target_actor_id message now1 now2 w = print err_send_no_event_loop w
       ∧ actors (send this target_actor_id message now1 now2 w) = actors w
       ∧ event_loops (send this target_actor_id message now1 now2 w) = event_loops w
       ∧ output (send this target_actor_id message now1 now2 w)
         = (output w ++ [err_send_no_event_loop])%list).
Proof.
  intros HA. split.
  - intros E HE. eexists. split; [by eapply send_live_loop|].
    split; [done|]. split; [apply send_rewrite_target|].
    rewrite send_rewrite_sender. split; intros Hs; by case_decide.
  - intros HE. by rewrite (send_expired_loop _ _ _ _ _ _ _ HA HE).
Qed.

Lemma send_sets_target_and_missing_sender_witness :
  actors Examples.w_running !! 0
  = Some (with_state RUNNING (with_state INITIALIZED (Actor_ctor "worker" 0 "id-worker")))
  ∧ ∃ handed,
      send 0 "id-target" (Examples.msg "ping" "" "elsewhere" HIGH 5%Z) 8%Z 9%Z
        Examples.w_running
      = deliver_message 0 handed Examples.w_running
      ∧ get_target_id handed = "id-target"
      ∧ get_sender_id handed = "id-worker".
Proof.
  assert (HA : actors Examples.w_running !! 0
               = Some (with_state RUNNING
                         (with_state INITIALIZED (Actor_ctor "worker" 0 "id-worker"))))
    by reflexivity.
  split; [exact HA|].
  destruct (send_sets_target_and_missing_sender 0 "id-target"
              (Examples.msg "ping" "" "elsewhere" HIGH 5%Z) 8%Z 9%Z _ _ HA)
    as [Hlive _].
  destruct (Hlive {| actors_ := {[ "id-worker" := 0 ]}; running_ := false |} eq_refl)
    as (handed & Hsend & _ & Htarget & Hsender & _).
  exists handed. split; [exact Hsend|]. split; [exact Htarget|].
  exact (Hsender eq_refl).
Defined.

(** C10.  When [send] reaches its loop, the message it delivers is the
    given one, untouched, if that message has a non-empty sender and its
    target is already [target_actor_id].  In every other case it is a newly
    constructed message with the type and the payload of the given one,
    priority [NORMAL] and a creation time read from the clock during the
    rewrite: the priority and the creation time of the given message are
    lost.  For an actor whose id is not empty the delivered message equals
    the given one only in the first case. *)
Theorem send_rebuilds_message (this : addr) (target_actor_id : string)
    (message : Message) (now1 now2 : time_point) (w : World) (A : Actor) (E : EventLoop) :
  actors w !! this = Some A →
  event_loops w !! event_loop_ A = Some E →
  ∃ delivered,
    send this target_actor_id message now1 now2 w
    = deliver_message (event_loop_ A) delivered w
    ∧ delivered = send_rewrite (id_ A) target_actor_id message now1 now2
    ∧ (get_sender_id message = "" ∨ get_target_id message ≠ target_actor_id →
         get_type delivered = get_type message
         ∧ get_payload delivered = get_payload message
         ∧ get_priority delivered = NORMAL
         ∧ get_created_at delivered
           = (if decide (get_sender_id message = "") then now1 else now2))
    ∧ (get_sender_id message ≠ "" → get_target_id message = target_actor_id →
         delivered = message)
    ∧ (id_ A ≠ "" → delivered = message →
         get_sender_id message ≠ "" ∧ get_target_id message = target_actor_id).
Proof.
  intros HA HE. eexists. split; [by eapply send_live_loop|]. split; [done|].
  split; [|split].
  - intros Hor. by rewrite (send_rewrite_rebuilt _ _ _ _ _ Hor).
  - apply send_rewrite_unchanged.
  - intros Hid Heq.
    pose proof (send_rewrite_sender (id_ A) target_actor_id message now1 now2) as Hs.
    pose proof (send_rewrite_target (id_ A) target_actor_id message now1 now2) as Ht.
    rewrite Heq in Hs, Ht. split; [|done].
    case_decide; congruence.
Qed.

Lemma send_rebuilds_message_witness :
  actors Examples.w_running !! 0
  = Some (with_state RUNNING (with_state INITIALIZED (Actor_ctor "worker" 0 "id-worker")))
  ∧ event_loops Examples.w_running !! 0
    = Some {| actors_ := {[ "id-worker" := 0 ]}; running_ := false |}
  ∧ ∃ delivered,
      send 0 "id-target" (Examples.msg "ping" "id-other" "elsewhere" CRITICAL 5%Z)
        8%Z 9%Z Examples.w_running
      = deliver_message 0 delivered Examples.w_running
      ∧ get_priority delivered = NORMAL
      ∧ get_created_at delivered = 9%Z.
Proof.
  assert (HA : actors Examples.w_running !! 0
               = Some (with_state RUNNING
                         (with_state INITIALIZED (Actor_ctor "worker" 0 "id-worker"))))
    by reflexivity.
  assert (HE : event_loops Examples.w_running !! 0
               = Some {| actors_ := {[ "id-worker" := 0 ]}; running_ := false |})
    by reflexivity.
  split; [exact HA|]. split; [exact HE|].
  destruct (send_rebuilds_message 0 "id-target"
              (Examples.msg "ping" "id-other" "elsewhere" CRITICAL 5%Z) 8%Z 9%Z
              _ _ _ HA HE)
    as (delivered & Hsend & _ & Hfresh & _).
  exists delivered. split; [exact Hsend|].
  destruct Hfresh as (_ & _ & Hprio & Htime); [right; discriminate|].
  split; [exact Hprio|exact Htime].
Defined.

(** ** Reading the store after a write *)

Lemma set_state_live (this : addr) (new_state : State) (w : World) (A : Actor) :
  actors w !! this = Some A →
  set_state this new_state w
  = print (out_state_changed (name_ A) (id_ A) (state_ A) new_state)
      (write_actor this (with_state new_state A) w).
Proof. intros HA. unfold set_state. by rewrite HA. Qed.

Lemma actors_write_actor (this : addr) (A : Actor) (w : World) :
  actors (write_actor this A w) !! this = Some A.
Proof. simpl. apply lookup_insert_eq. Qed.

Lemma get_state_live (this : addr) (w : World) (A : Actor) :
  actors w !! this = Some A → get_state this w = Some (state_ A).
Proof. intros HA. unfold get_state. by rewrite HA. Qed.

Lemma mailbox_live (this : addr) (w : World) (A : Actor) :
  actors w !! this = Some A → mailbox this w = Some (message_queue_ A).
Proof. intros HA. unfold mailbox. by rewrite HA. Qed.

Lemma has_messages_live (this : addr) (w : World) (A : Actor) :
  actors w !! this = Some A →
  has_messages this w = match message_queue_ A with [] => false | _ :: _ => true end.
Proof. intros HA. unfold has_messages. by rewrite (mailbox_live _ _ _ HA). Qed.

Lemma is_running_live (this : addr) (w : World) (A : Actor) :
  actors w !! this = Some A → is_running this w = bool_decide (state_ A = RUNNING).
Proof.
  intros HA. unfold is_running. rewrite (get_state_live _ _ _ HA).
  apply bool_decide_ext. split; congruence.
Qed.

Lemma get_state_set_state (this : addr) (new_state : State) (w : World) :
  is_Some (actors w !! this) → get_state this (set_state this new_state w) = Some new_state.
Proof.
  intros [A HA]. rewrite (set_state_live _ _ _ _ HA).
  unfold get_state, print, write_actor; cbn [actors]. by rewrite lookup_insert_eq.
Qed.

Lemma mailbox_set_state (this : addr) (new_state : State) (w : World) :
  mailbox this (set_state this new_state w) = mailbox this w.
Proof.
  unfold set_state, mailbox. destruct (actors w !! this) as [A|] eqn:HA; [|by rewrite HA].
  unfold print, write_actor; cbn [actors]. by rewrite lookup_insert_eq.
Qed.

(** ** [stop_immediately] *)

Lemma stop_immediately_live (this : addr) (w : World) (A : Actor) :
  actors w !! this = Some A →
  stop_immediately this w
  = {| actors := <[this := with_state STOPPED (with_message_queue [] A)]> (actors w);
       event_loops := event_loops w;
       output := output w ++ [out_state_changed (name_ A) (id_ A) (state_ A) STOPPED] |}.
Proof.
  intros HA. unfold stop_immediately. rewrite HA.
  rewrite (set_state_live _ _ _ (with_message_queue [] A)) by apply actors_write_actor.
  unfold print, write_actor; simpl. by rewrite insert_insert_eq.
Qed.

(** C3.  Whatever the state of the actor, [stop_immediately] leaves it
    [STOPPED] with an empty mailbox: the object becomes the old one with
    these two fields replaced, nothing else in the store changes, and the
    transition is announced even when the actor was [STOPPED] already.  A
    second call changes no object of the store. *)
Theorem stop_immediately_spec (this : addr) (w : World) (A : Actor) :
  actors w !! this = Some A →
  get_state this (stop_immediately this w) = Some STOPPED
  ∧ mailbox this (stop_immediately this w) = Some []
  ∧ actors (stop_immediately this w)
    = <[this := with_state STOPPED (with_message_queue [] A)]> (actors w)
  ∧ event_loops (stop_immediately this w) = event_loops w
  ∧ output (stop_immediately this w)
    = (output w ++ [out_state_changed (name_ A) (id_ A) (state_ A) STOPPED])%list
  ∧ actors (stop_immediately this (stop_immediately this w))
    = actors (stop_immediately this w)
  ∧ event_loops (stop_immediately this (stop_immediately this w))
    = event_loops (stop_immediately this w).
Proof.
  intros HA.
  assert (HA' : actors (stop_immediately this w) !! this
                = Some (with_state STOPPED (with_message_queue [] A))).
  { rewrite (stop_immediately_live _ _ _ HA). simpl. apply lookup_insert_eq. }
  split; [by rewrite (get_state_live _ _ _ HA')|].
  split; [by rewrite (mailbox_live _ _ _ HA')|].
  rewrite (stop_immediately_live _ _ _ HA') at 1 2.
  rewrite (stop_immediately_live _ _ _ HA). simpl.
  repeat split. by rewrite insert_insert_eq.
Qed.

Lemma stop_immediately_spec_witness :
  actors Examples.w_draining !! 0
  = Some (with_message_queue
            [Examples.msg "ping" "id-other" "id-worker" NORMAL 5%Z;
             Examples.msg "pong" "id-other" "id-worker" HIGH 6%Z]
            (with_handlers {[ "ping" := 7 ]}
               (with_state STOPPING (Actor_ctor "worker" 0 "id-worker"))))
  ∧ get_state 0 (stop_immediately 0 Examples.w_draining) = Some STOPPED
  ∧ mailbox 0 (stop_immediately 0 Examples.w_draining) = Some [].
Proof.
  assert (HA : actors Examples.w_draining !! 0
               = Some (with_message_queue
                         [Examples.msg "ping" "id-other" "id-worker" NORMAL 5%Z;
                          Examples.msg "pong" "id-other" "id-worker" HIGH 6%Z]
                         (with_handlers {[ "ping" := 7 ]}
                            (with_state STOPPING (Actor_ctor "worker" 0 "id-worker")))))
    by reflexivity.
  split; [exact HA|].
  destruct (stop_immediately_spec 0 Examples.w_draining _ HA) as (Hs & Hm & _).
  split; [exact Hs|exact Hm].
Defined.

(** ** [EventLoop::deliver_message] *)

Lemma find_actor_live (loop : addr) (actor_id : string) (w : World) (E : EventLoop) :
  event_loops w !! loop = Some E → find_actor loop actor_id w = actors_ E !! actor_id.
Proof. intros HE. unfold find_actor. by rewrite HE. Qed.

Lemma receive_running (this : addr) (message : Message) (w : World) (A : Actor) :
  actors w !! this = Some A →
  state_ A = RUNNING →
  receive this message w
  = write_actor this (with_message_queue (message_queue_ A ++ [message])%list A) w.
Proof.
  intros HA Hs. unfold receive. rewrite HA.
  case_decide as Hrej; [|done]. destruct Hrej; congruence.
Qed.

(** C4.  [deliver_message] appends the message to the mailbox of the
    actor registered under the message's target id when that actor is
    [RUNNING], and changes nothing else.  When no actor is registered under
    that id, or the registered actor is in any other state ([STOPPING]
    included), the call only prints a diagnostic, one line added to what
    has been printed ("target not found" in the first case, "target not
    running" in the second, each with the target id): every actor and
    every loop of the store is as before.  The call returns nothing to its
    caller in either case. *)
Theorem deliver_message_spec (loop : addr) (message : Message) (w : World) (E : EventLoop) :
  event_loops w !! loop = Some E →
  (∀ target A,
     actors_ E !! get_target_id message = Some target →
     actors w !! target = Some A →
     state_ A = RUNNING →
     deliver_message loop message w
     = write_actor target (with_message_queue (message_queue_ A ++ [message])%list A) w
     ∧ mailbox target (deliver_message loop message w)
       = Some (message_queue_ A ++ [message])%list
     ∧ get_state target (deliver_message loop message w) = Some RUNNING
     ∧ (∀ other, other ≠ target →
          actors (deliver_message loop message w) !! other = actors w !! other)
     ∧ output (deliver_message loop message w) = output w)
  ∧ (actors_ E !! get_target_id message = None →
     deliver_message loop message w
     = print (err_target_not_found (get_target_id message)) w
     ∧ actors (deliver_message loop message w) = actors w
     ∧ output (deliver_message loop message w)
       = (output w ++ [err_target_not_found (get_target_id message)])%list)
  ∧ (∀ target,
     actors_ E !! get_target_id message = Some target →
     get_state target w ≠ Some RUNNING →
     deliver_message loop message w
     = print (err_target_not_running (get_target_id message)) w
     ∧ actors (deliver_message loop message w) = actors w
     ∧ output (deliver_message loop message w)
       = (output w ++ [err_target_not_running (get_target_id message)])%list)
  ∧ event_loops (deliver_message loop message w) = event_loops w.
Proof.
  intros HE. unfold deliver_message. rewrite (find_actor_live _ _ _ _ HE).
  split; [|split; [|split]].
  - intros target A Hreg HA Hs. rewrite Hreg, (is_running_live _ _ _ HA).
    rewrite bool_decide_eq_true_2 by done.
    rewrite (receive_running _ _ _ _ HA Hs).
    split; [done|].
    unfold mailbox, get_state, write_actor; cbn [actors output].
    rewrite lookup_insert_eq. simpl. rewrite Hs.
    repeat split; try done.
    intros other Hne. by rewrite lookup_insert_ne.
  - intros Hreg. by rewrite Hreg.
  - intros target Hreg Hs. rewrite Hreg. unfold is_running.
    by rewrite bool_decide_eq_false_2.
  - destruct (actors_ E !! get_target_id message) as [target|]; [|done].
    destruct (is_running target w); [|done].
    unfold receive. destruct (actors w !! target) as [A|]; [|done].
    by case_decide.
Qed.

Lemma deliver_message_spec_witness :
  event_loops Examples.w_running !! 0
  = Some {| actors_ := {[ "id-worker" := 0 ]}; running_ := false |}
  ∧ mailbox 0 (deliver_message 0 (Examples.msg "ping" "id-other" "id-worker" NORMAL 5%Z)
                 Examples.w_running)
    = Some [Examples.msg "ping" "id-other" "id-worker" NORMAL 5%Z]
  ∧ deliver_message 0 (Examples.msg "ping" "id-other" "id-nobody" NORMAL 5%Z)
      Examples.w_running
    = print (err_target_not_found "id-nobody") Examples.w_running
  ∧ output (deliver_message 0 (Examples.msg "ping" "id-other" "id-nobody" NORMAL 5%Z)
              Examples.w_running)
    = (output Examples.w_running ++ [err_target_not_found "id-nobody"])%list
  ∧ deliver_message 0 (Examples.msg "ping" "id-other" "id-worker" NORMAL 5%Z)
      Examples.w_draining
    = print (err_target_not_running "id-worker") Examples.w_draining
  ∧ output (deliver_message 0 (Examples.msg "ping" "id-other" "id-worker" NORMAL 5%Z)
              Examples.w_draining)
    = (output Examples.w_draining ++ [err_target_not_running "id-worker"])%list.
Proof.
  assert (HE : event_loops Examples.w_running !! 0
               = Some {| actors_ := {[ "id-worker" := 0 ]}; running_ := false |})
    by reflexivity.
  assert (HE' : event_loops Examples.w_draining !! 0
                = Some {| actors_ := {[ "id-worker" := 0 ]}; running_ := false |})
    by reflexivity.
  split; [exact HE|].
  destruct (deliver_message_spec 0 (Examples.msg "ping" "id-other" "id-worker" NORMAL 5%Z)
              _ _ HE) as (Hrun & _).
  destruct (deliver_message_spec 0 (Examples.msg "ping" "id-other" "id-nobody" NORMAL 5%Z)
              _ _ HE) as (_ & Hnone & _).
  destruct (deliver_message_spec 0 (Examples.msg "ping" "id-other" "id-worker" NORMAL 5%Z)
              _ _ HE') as (_ & _ & Hnot & _).
  split.
  { destruct (Hrun 0 (with_state RUNNING
                        (with_state INITIALIZED (Actor_ctor "worker" 0 "id-worker")))
                eq_refl eq_refl eq_refl) as (_ & Hbox & _).
    exact Hbox. }
  destruct (Hnone eq_refl) as (Hdrop & _ & Hline).
  split; [exact Hdrop|]. split; [exact Hline|].
  destruct (Hnot 0 eq_refl) as (Hdrop' & _ & Hline'); [vm_compute; discriminate|].
  split; [exact Hdrop'|exact Hline'].
Defined.

(** ** [EventLoop::remove_actor] *)

(** C5, as the specification words it, fails: an actor that is not
    [RUNNING] is erased without being stopped.  The actor "id-worker" is
    draining ([STOPPING]) with two queued messages; after [remove_actor] it
    is no longer registered, but it is still [STOPPING] and still holds both
    messages. *)
Lemma remove_actor_spares_draining_actor :
  find_actor 0 "id-worker" Examples.w_draining = Some 0
  ∧ get_state 0 Examples.w_draining = Some STOPPING
  ∧ find_actor 0 "id-worker" (remove_actor 0 "id-worker" Examples.w_draining) = None
  ∧ get_state 0 (remove_actor 0 "id-worker" Examples.w_draining) ≠ Some STOPPED
  ∧ mailbox 0 (remove_actor 0 "id-worker" Examples.w_draining)
    = Some [Examples.msg "ping" "id-other" "id-worker" NORMAL 5%Z;
            Examples.msg "pong" "id-other" "id-worker" HIGH 6%Z].
Proof.
  split; [reflexivity|]. split; [reflexivity|]. split; [reflexivity|].
  split; [vm_compute; discriminate|reflexivity].
Qed.

(** C5, amended.  When an actor is registered under the id,
    [remove_actor] erases the entry from the registry; if that actor is
    [RUNNING] it is first stopped at once, which leaves it [STOPPED] with an
    empty mailbox, and if it is in any other state the actor itself is left
    as it is.  When no actor is registered under the id, nothing changes. *)
Theorem remove_actor_spec (loop : addr) (actor_id : string) (w : World) (E : EventLoop) :
  event_loops w !! loop = Some E →
  (actors_ E !! actor_id = None → remove_actor loop actor_id w = w)
  ∧ (∀ actor A,
       actors_ E !! actor_id = Some actor →
       actors w !! actor = Some A →
       event_loops (remove_actor loop actor_id w)
       = <[loop := {| actors_ := delete actor_id (actors_ E); running_ := running_ E |}]>
           (event_loops w)
       ∧ find_actor loop actor_id (remove_actor loop actor_id w) = None
       ∧ (state_ A = RUNNING →
            actors (remove_actor loop actor_id w)
            = <[actor := with_state STOPPED (with_message_queue [] A)]> (actors w)
            ∧ get_state actor (remove_actor loop actor_id w) = Some STOPPED
            ∧ mailbox actor (remove_actor loop actor_id w) = Some [])
       ∧ (state_ A ≠ RUNNING →
            actors (remove_actor loop actor_id w) = actors w)).
Proof.
  intros HE. unfold remove_actor. rewrite HE. split.
  - by intros ->.
  - intros actor A Hreg HA. rewrite Hreg, (is_running_live _ _ _ HA).
    case_bool_decide as Hs.
    + rewrite (stop_immediately_live _ _ _ HA).
      unfold write_event_loop; cbn [actors event_loops output].
      rewrite lookup_insert_eq.
      unfold find_actor, get_state, mailbox, print; cbn [actors event_loops].
      rewrite !lookup_insert_eq. simpl. rewrite lookup_delete_eq.
      repeat split; done.
    + unfold write_event_loop; cbn [actors event_loops output]. rewrite HA.
      unfold find_actor, print; cbn [actors event_loops].
      rewrite lookup_insert_eq. simpl. rewrite lookup_delete_eq.
      repeat split; done.
Qed.

Lemma remove_actor_spec_witness :
  event_loops Examples.w_two_messages !! 0
  = Some {| actors_ := {[ "id-worker" := 0 ]}; running_ := false |}
  ∧ remove_actor 0 "id-nobody" Examples.w_two_messages = Examples.w_two_messages
  ∧ find_actor 0 "id-worker" (remove_actor 0 "id-worker" Examples.w_two_messages) = None
  ∧ get_state 0 (remove_actor 0 "id-worker" Examples.w_two_messages) = Some STOPPED
  ∧ mailbox 0 (remove_actor 0 "id-worker" Examples.w_two_messages) = Some [].
Proof.
  assert (HE : event_loops Examples.w_two_messages !! 0
               = Some {| actors_ := {[ "id-worker" := 0 ]}; running_ := false |})
    by reflexivity.
  split; [exact HE|].
  destruct (remove_actor_spec 0 "id-nobody" _ _ HE) as [Habsent _].
  destruct (remove_actor_spec 0 "id-worker" _ _ HE) as [_ Hpresent].
  split; [exact (Habsent eq_refl)|].
  destruct (Hpresent 0 _ eq_refl eq_refl) as (_ & Hfind & Hrun & _).
  split; [exact Hfind|].
  destruct (Hrun eq_refl) as (_ & Hs & Hm).
  split; [exact Hs|exact Hm].
Defined.

(** ** [process_next_message] *)

Section ProcessNextMessage.
Variable invoke : MessageHandler -> Message -> World -> completion unit World.

Lemma process_next_message_stopped (this : addr) (w : World) (A : Actor) :
  actors w !! this = Some A →
  state_ A = STOPPED →
  process_next_message invoke this w = Done false w.
Proof.
  intros HA Hs. unfold process_next_message. rewrite HA. by case_decide.
Qed.

Lemma process_next_message_empty (this : addr) (w : World) (A : Actor) :
  actors w !! this = Some A →
  state_ A ≠ STOPPED →
  message_queue_ A = [] →
  process_next_message invoke this w
  = Done false (if decide (state_ A = STOPPING) then set_state this STOPPED w else w).
Proof.
  intros HA Hs Hq. unfold process_next_message. rewrite HA, Hq. by case_decide.
Qed.

Lemma process_next_message_pop (this : addr) (w : World) (A : Actor)
    (message : Message) (rest : list Message) :
  actors w !! this = Some A →
  state_ A ≠ STOPPED →
  message_queue_ A = message :: rest →
  process_next_message invoke this w
  = match dispatched invoke this A message rest w with
    | Raised e w' => Raised e w'
    | Done _ w' => Done true (finalized this w')
    end.
Proof.
  intros HA Hs Hq. unfold process_next_message, dispatched, finalized. rewrite HA, Hq.
  case_decide; [done|]. by destruct (handlers_ A !! get_type message).
Qed.

(** The test [state_ == STOPPING && message_queue_.empty()] made after
    the handler has returned. *)
Lemma drained_test (this : addr) (w : World) :
  bool_decide (get_state this w = Some STOPPING) && negb (has_messages this w) = true
  ↔ get_state this w = Some STOPPING ∧ mailbox this w = Some [].
Proof.
  rewrite andb_true_iff, bool_decide_eq_true, negb_true_iff.
  unfold has_messages, get_state, mailbox.
  destruct (actors w !! this) as [A|]; simpl.
  - destruct (message_queue_ A); split; intros [? ?]; split; congruence.
  - split; intros [? ?]; split; congruence.
Qed.

Lemma finalized_drained (this : addr) (w : World) :
  get_state this w = Some STOPPING →
  mailbox this w = Some [] →
  finalized this w = set_state this STOPPED w
  ∧ get_state this (set_state this STOPPED w) = Some STOPPED
  ∧ mailbox this (set_state this STOPPED w) = Some [].
Proof.
  intros Hst Hbox. unfold finalized.
  rewrite (proj2 (drained_test this w) (conj Hst Hbox)).
  split; [done|]. rewrite mailbox_set_state. split; [|done].
  apply get_state_set_state. unfold get_state in Hst.
  destruct (actors w !! this); [done|discriminate].
Qed.

Lemma finalized_not_drained (this : addr) (w : World) :
  ¬ (get_state this w = Some STOPPING ∧ mailbox this w = Some []) →
  finalized this w = w.
Proof.
  intros Hnot. unfold finalized.
  destruct (bool_decide _ && negb _) eqn:Htest; [|done].
  by apply drained_test in Htest.
Qed.

(** The test leaves no actor [STOPPING] with an empty mailbox. *)
Lemma finalized_never_drained (this : addr) (w : World) :
  ¬ (get_state this (finalized this w) = Some STOPPING
     ∧ mailbox this (finalized this w) = Some []).
Proof.
  destruct (bool_decide (get_state this w = Some STOPPING) && negb (has_messages this w))
    eqn:Htest.
  - apply drained_test in Htest as [Hst Hbox].
    destruct (finalized_drained this w Hst Hbox) as (-> & Hst' & _).
    rewrite Hst'. by intros [? _].
  - assert (Hnot : ¬ (get_state this w = Some STOPPING ∧ mailbox this w = Some [])).
    { intros Hd. apply drained_test in Hd. congruence. }
    by rewrite (finalized_not_drained this w Hnot).
Qed.

(** What the test does to an actor in state [s] with the mailbox
    [rest]. *)
Lemma finalized_spared (this : addr) (w : World) (s : State) (rest : list Message) :
  get_state this w = Some s →
  mailbox this w = Some rest →
  get_state this (finalized this w)
  = Some (if decide (s = STOPPING ∧ rest = []) then STOPPED else s)
  ∧ mailbox this (finalized this w) = Some rest.
Proof.
  intros Hst Hbox. case_decide as Hd.
  - destruct Hd as [-> ->].
    destruct (finalized_drained this w Hst Hbox) as (-> & Hst' & Hbox'). done.
  - rewrite finalized_not_drained; [done|].
    intros [Hst' Hbox']. apply Hd. split; congruence.
Qed.

Lemma dispatched_handled (this : addr) (A : Actor) (message : Message)
    (rest : list Message) (w : World) (handler : MessageHandler) :
  handlers_ A !! get_type message = Some handler →
  dispatched invoke this A message rest w
  = invoke handler message (write_actor this (with_message_queue rest A) w).
Proof. intros Hh. unfold dispatched. by rewrite Hh. Qed.

Lemma dispatched_unhandled (this : addr) (A : Actor) (message : Message)
    (rest : list Message) (w : World) :
  handlers_ A !! get_type message = None →
  ∃ w', dispatched invoke this A message rest w = Done tt w'
        ∧ w' = print (err_unhandled_message_type (name_ A) (id_ A) (get_type message))
                 (write_actor this (with_message_queue rest A) w)
        ∧ get_state this w' = Some (state_ A)
        ∧ mailbox this w' = Some rest.
Proof.
  intros Hh. unfold dispatched. rewrite Hh. eexists. split; [done|]. split; [done|].
  unfold get_state, mailbox, print, write_actor; cbn [actors].
  by rewrite lookup_insert_eq.
Qed.

(** The call on a non-empty mailbox when the handler returns. *)
Lemma process_next_message_returned (this : addr) (w w' : World) (A : Actor)
    (message : Message) (rest : list Message) :
  actors w !! this = Some A →
  state_ A ≠ STOPPED →
  message_queue_ A = message :: rest →
  dispatched invoke this A message rest w = Done tt w' →
  process_next_message invoke this w = Done true (finalized this w').
Proof.
  intros HA Hs Hq Hd. by rewrite (process_next_message_pop _ _ _ _ _ HA Hs Hq), Hd.
Qed.

(** The call on a non-empty mailbox when the handler throws. *)
Lemma process_next_message_raised (this : addr) (w w' : World) (A : Actor)
    (message : Message) (rest : list Message) (e : exception) :
  actors w !! this = Some A →
  state_ A ≠ STOPPED →
  message_queue_ A = message :: rest →
  dispatched invoke this A message rest w = Raised e w' →
  process_next_message invoke this w = Raised e w'.
Proof.
  intros HA Hs Hq Hd. by rewrite (process_next_message_pop _ _ _ _ _ HA Hs Hq), Hd.
Qed.

(** A call on a non-empty mailbox of an actor that is not [STOPPED] does
    not return false. *)
Lemma process_next_message_pop_value (this : addr) (w : World) (A : Actor)
    (message : Message) (rest : list Message) :
  actors w !! this = Some A →
  state_ A ≠ STOPPED →
  message_queue_ A = message :: rest →
  value_of (process_next_message invoke this w)
  = (λ _, true) <$> value_of (dispatched invoke this A message rest w).
Proof.
  intros HA Hs Hq. rewrite (process_next_message_pop _ _ _ _ _ HA Hs Hq).
  by destruct (dispatched invoke this A message rest w) as [[]|].
Qed.

(** No call that returns leaves the actor [STOPPING] with an empty
    mailbox, whatever the handlers do. *)
Lemma process_next_message_never_drained (this : addr) (w w' : World) (b : bool) :
  process_next_message invoke this w = Done b w' →
  ¬ (get_state this w' = Some STOPPING ∧ mailbox this w' = Some []).
Proof.
  destruct (actors w !! this) as [A|] eqn:HA.
  2:{ unfold process_next_message. rewrite HA. intros [= _ <-].
      unfold get_state. rewrite HA. by intros [? _]. }
  destruct (decide (state_ A = STOPPED)) as [Hs|Hs].
  { rewrite (process_next_message_stopped _ _ _ HA Hs). intros [= _ <-].
    rewrite (get_state_live _ _ _ HA), Hs. by intros [[=] _]. }
  destruct (message_queue_ A) as [|message rest] eqn:Hq.
  - rewrite (process_next_message_empty _ _ _ HA Hs Hq). intros [= _ <-].
    case_decide as Hd.
    + rewrite get_state_set_state by eauto. by intros [[=] _].
    + rewrite (get_state_live _ _ _ HA). intros [[=] _]. congruence.
  - rewrite (process_next_message_pop _ _ _ _ _ HA Hs Hq).
    destruct (dispatched invoke this A message rest w) as [[] w1|]; [|done].
    intros [= _ <-]. apply finalized_never_drained.
Qed.

(** What the call makes of the state and the mailbox when the handler
    has left them as the pop left them. *)
Lemma process_next_message_pop_spared (this : addr) (w : World) (A : Actor)
    (message : Message) (rest : list Message) :
  actors w !! this = Some A →
  state_ A ≠ STOPPED →
  message_queue_ A = message :: rest →
  get_state this (state_after (dispatched invoke this A message rest w))
  = Some (state_ A) →
  mailbox this (state_after (dispatched invoke this A message rest w)) = Some rest →
  get_state this (state_after (process_next_message invoke this w))
  = Some (match value_of (dispatched invoke this A message rest w) with
          | Some _ => if decide (state_ A = STOPPING ∧ rest = []) then STOPPED
                      else state_ A
          | None => state_ A
          end)
  ∧ mailbox this (state_after (process_next_message invoke this w)) = Some rest.
Proof.
  intros HA Hs Hq Hst Hbox.
  rewrite (process_next_message_pop _ _ _ _ _ HA Hs Hq).
  destruct (dispatched invoke this A message rest w) as [[] w1|e w1];
    cbn [state_after value_of] in *; [|done].
  by apply finalized_spared.
Qed.
End ProcessNextMessage.

(** C1, as the specification words it, fails in two ways.  The actor
    "id-worker" is [STOPPING] with one queued message of type "pong" and a
    handler registered for that type.  With a handler that reads the key
    "count" as [handle_pong] of the example program does, the call neither
    returns true nor finalizes: the exception leaves it, the message is
    consumed, and the actor stays [STOPPING] with an empty mailbox.  With a
    handler that puts the message back through [receive], the call returns
    true and the pop has emptied the mailbox of a [STOPPING] actor, yet the
    actor is not moved to [STOPPED]. *)
Lemma process_next_message_handler_throws :
  get_state 0 Examples.w_pong_draining = Some STOPPING
  ∧ mailbox 0 Examples.w_pong_draining
    = Some [Examples.msg "pong" "id-other" "id-worker" NORMAL 5%Z]
  ∧ value_of (process_next_message Examples.pong_handler 0 Examples.w_pong_draining)
    = None
  ∧ (∃ w', process_next_message Examples.pong_handler 0 Examples.w_pong_draining
           = Raised (runtime_error "Key not found in payload: count") w'
           ∧ get_state 0 w' = Some STOPPING
           ∧ mailbox 0 w' = Some [])
  ∧ value_of (process_next_message Examples.requeueing_handler 0 Examples.w_pong_draining)
    = Some true
  ∧ get_state 0
      (state_after (process_next_message Examples.requeueing_handler 0
                      Examples.w_pong_draining))
    = Some STOPPING
  ∧ mailbox 0
      (state_after (process_next_message Examples.requeueing_handler 0
                      Examples.w_pong_draining))
    = Some [Examples.msg "pong" "id-other" "id-worker" NORMAL 5%Z].
Proof.
  split; [reflexivity|]. split; [reflexivity|]. split; [reflexivity|].
  split; [eexists; split; [reflexivity|split; reflexivity]|].
  split; [reflexivity|]. split; reflexivity.
Qed.

(** C1, amended.  [process_next_message] returns false exactly when the
    actor is [STOPPED] or its mailbox is empty.  A [STOPPED] actor is left
    alone; an actor with an empty mailbox is moved to [STOPPED] when it is
    [STOPPING] (the state change is printed) and left alone otherwise.  In
    every other case the front message is popped.  With no handler
    registered for its type the warning about the unhandled type is
    printed, the message is consumed, the call returns true, and the actor
    is moved to [STOPPED] exactly when this pop emptied the mailbox of a
    [STOPPING] actor; nothing else of the store changes.  With a handler
    registered, the handler is called on the message in the store the pop
    has left.  If it returns, the call returns true, and the actor is
    moved to [STOPPED] exactly when, after the handler, it is [STOPPING]
    with an empty mailbox; when the handler has left the state and the
    mailbox of the actor alone that is: exactly when this pop emptied the
    mailbox of a [STOPPING] actor.  If the handler throws, the exception
    leaves [process_next_message]: nothing is returned, the message stays
    consumed, and the store is left as the handler left it, without the
    final move to [STOPPED]. *)
Theorem process_next_message_spec
    (invoke : MessageHandler -> Message -> World -> completion unit World)
    (this : addr) (w : World) (A : Actor) :
  actors w !! this = Some A →
  (value_of (process_next_message invoke this w) = Some false
   ↔ state_ A = STOPPED ∨ message_queue_ A = [])
  ∧ (state_ A = STOPPED → process_next_message invoke this w = Done false w)
  ∧ (state_ A = STOPPING → message_queue_ A = [] →
       process_next_message invoke this w = Done false (set_state this STOPPED w)
       ∧ get_state this (set_state this STOPPED w) = Some STOPPED
       ∧ mailbox this (set_state this STOPPED w) = Some []
       ∧ output (set_state this STOPPED w)
         = (output w ++ [out_state_changed (name_ A) (id_ A) STOPPING STOPPED])%list)
  ∧ (state_ A ≠ STOPPING → message_queue_ A = [] →
       process_next_message invoke this w = Done false w)
  ∧ (∀ message rest,
       state_ A ≠ STOPPED →
       message_queue_ A = message :: rest →
       mailbox this (write_actor this (with_message_queue rest A) w) = Some rest
       ∧ (handlers_ A !! get_type message = None →
            ∃ w',
              process_next_message invoke this w = Done true w'
              ∧ actors w'
                = <[this := if decide (state_ A = STOPPING ∧ rest = [])
                            then with_state STOPPED (with_message_queue rest A)
                            else with_message_queue rest A]> (actors w)
              ∧ event_loops w' = event_loops w
              ∧ output w'
                = (output w
                   ++ [err_unhandled_message_type (name_ A) (id_ A) (get_type message)]
                   ++ (if decide (state_ A = STOPPING ∧ rest = [])
                       then [out_state_changed (name_ A) (id_ A) STOPPING STOPPED]
                       else []))%list)
       ∧ (∀ handler w',
            handlers_ A !! get_type message = Some handler →
            invoke handler message (write_actor this (with_message_queue rest A) w)
            = Done tt w' →
            value_of (process_next_message invoke this w) = Some true
            ∧ (get_state this w' = Some STOPPING → mailbox this w' = Some [] →
                 process_next_message invoke this w
                 = Done true (set_state this STOPPED w')
                 ∧ get_state this (set_state this STOPPED w') = Some STOPPED)
            ∧ (¬ (get_state this w' = Some STOPPING ∧ mailbox this w' = Some []) →
                 process_next_message invoke this w = Done true w')
            ∧ (get_state this w' = Some (state_ A) → mailbox this w' = Some rest →
                 get_state this (state_after (process_next_message invoke this w))
                 = Some (if decide (state_ A = STOPPING ∧ rest = []) then STOPPED
                         else state_ A)
                 ∧ mailbox this (state_after (process_next_message invoke this w))
                   = Some rest))
       ∧ (∀ handler e w',
            handlers_ A !! get_type message = Some handler →
            invoke handler message (write_actor this (with_message_queue rest A) w)
            = Raised e w' →
            process_next_message invoke this w = Raised e w')).
Proof.
  intros HA. split; [|split; [|split; [|split]]].
  - destruct (decide (state_ A = STOPPED)) as [Hs|Hs].
    + rewrite (process_next_message_stopped _ _ _ _ HA Hs). cbn. split; auto.
    + destruct (message_queue_ A) as [|message rest] eqn:Hq.
      * rewrite (process_next_message_empty _ _ _ _ HA Hs Hq). cbn. split; auto.
      * rewrite (process_next_message_pop_value _ _ _ _ _ _ HA Hs Hq).
        split.
        -- by destruct (value_of (dispatched invoke this A message rest w)).
        -- intros [?|?]; [done|discriminate].
  - intros Hs. by rewrite (process_next_message_stopped _ _ _ _ HA Hs).
  - intros Hs Hq.
    rewrite (process_next_message_empty _ _ _ _ HA) by (done || congruence).
    rewrite decide_True by done.
    split; [done|]. split; [apply get_state_set_state; eauto|].
    split; [by rewrite mailbox_set_state, (mailbox_live _ _ _ HA), Hq|].
    unfold set_state. rewrite HA. cbn [print output write_actor]. by rewrite Hs.
  - intros Hs Hq. destruct (decide (state_ A = STOPPED)) as [Hs'|Hs'].
    + by rewrite (process_next_message_stopped _ _ _ _ HA Hs').
    + rewrite (process_next_message_empty _ _ _ _ HA Hs' Hq). by rewrite decide_False.
  - intros message rest Hs Hq.
    split; [unfold mailbox, write_actor; cbn [actors]; by rewrite lookup_insert_eq|].
    split; [|split].
    + intros Hh.
      destruct (dispatched_unhandled invoke this A message rest w Hh)
        as (w1 & Hd & Hw1 & Hst & Hbox).
      exists (finalized this w1).
      split; [by apply (process_next_message_returned _ _ _ _ _ _ _ HA Hs Hq)|].
      case_decide as Hdr.
      * destruct Hdr as [Hs' ->]. rewrite Hs' in Hst.
        destruct (finalized_drained this w1 Hst Hbox) as (-> & _ & _).
        unfold set_state. subst w1. cbn [print actors write_actor].
        rewrite lookup_insert_eq. cbn [print actors event_loops output write_actor].
        rewrite insert_insert_eq. cbn. rewrite Hs'.
        split; [done|]. split; [done|]. by rewrite <- app_assoc.
      * rewrite finalized_not_drained.
        2:{ intros [Hst' Hbox']. apply Hdr. split; congruence. }
        subst w1. by cbn.
    + intros handler w' Hh Hcall.
      assert (Hd : dispatched invoke this A message rest w = Done tt w').
      { by rewrite (dispatched_handled _ _ _ _ _ _ _ Hh). }
      rewrite (process_next_message_returned _ _ _ _ _ _ _ HA Hs Hq Hd).
      split; [done|]. split; [|split].
      * intros Hst Hbox.
        by destruct (finalized_drained this w' Hst Hbox) as (-> & ? & _).
      * intros Hnot. by rewrite finalized_not_drained.
      * intros Hst Hbox. cbn [state_after]. by apply finalized_spared.
    + intros handler e w' Hh Hcall.
      apply (process_next_message_raised _ _ _ _ _ _ _ _ HA Hs Hq).
      by rewrite (dispatched_handled _ _ _ _ _ _ _ Hh).
Qed.

Lemma process_next_message_spec_witness :
  actors Examples.w_draining !! 0
  = Some (with_message_queue
            [Examples.msg "ping" "id-other" "id-worker" NORMAL 5%Z;
             Examples.msg "pong" "id-other" "id-worker" HIGH 6%Z]
            (with_handlers {[ "ping" := 7 ]}
               (with_state STOPPING (Actor_ctor "worker" 0 "id-worker"))))
  ∧ value_of (process_next_message Examples.reply_handler 0 Examples.w_draining)
    = Some true
  ∧ get_state 0 (state_after (process_next_message Examples.reply_handler 0
                                Examples.w_draining))
    = Some STOPPING
  ∧ mailbox 0 (state_after (process_next_message Examples.reply_handler 0
                              Examples.w_draining))
    = Some [Examples.msg "pong" "id-other" "id-worker" HIGH 6%Z]
  ∧ (∃ w',
       process_next_message Examples.reply_handler 0
         (state_after (process_next_message Examples.reply_handler 0 Examples.w_draining))
       = Done true w'
       ∧ get_state 0 w' = Some STOPPED
       ∧ output w'
         = (output (state_after (process_next_message Examples.reply_handler 0
                                   Examples.w_draining))
            ++ [err_unhandled_message_type "worker" "id-worker" "pong";
                out_state_changed "worker" "id-worker" STOPPING STOPPED])%list).
Proof.
  assert (HA : actors Examples.w_draining !! 0
               = Some (with_message_queue
                         [Examples.msg "ping" "id-other" "id-worker" NORMAL 5%Z;
                          Examples.msg "pong" "id-other" "id-worker" HIGH 6%Z]
                         (with_handlers {[ "ping" := 7 ]}
                            (with_state STOPPING (Actor_ctor "worker" 0 "id-worker")))))
    by reflexivity.
  split; [exact HA|].
  destruct (process_next_message_spec Examples.reply_handler 0 _ _ HA)
    as (_ & _ & _ & _ & Hpop).
  destruct (Hpop (Examples.msg "ping" "id-other" "id-worker" NORMAL 5%Z)
              [Examples.msg "pong" "id-other" "id-worker" HIGH 6%Z])
    as (_ & _ & Hcall & _); [discriminate|reflexivity|].
  destruct (Hcall 7 _ eq_refl eq_refl) as (Htrue & _ & _ & Hspared).
  split; [exact Htrue|].
  destruct Hspared as [Hst Hbox]; [reflexivity|reflexivity|].
  split; [exact Hst|]. split; [exact Hbox|].
  assert (HA' : actors (state_after (process_next_message Examples.reply_handler 0
                                       Examples.w_draining)) !! 0
                = Some (with_message_queue
                          [Examples.msg "pong" "id-other" "id-worker" HIGH 6%Z]
                          (with_handlers {[ "ping" := 7 ]}
                             (with_state STOPPING (Actor_ctor "worker" 0 "id-worker")))))
    by reflexivity.
  destruct (process_next_message_spec Examples.reply_handler 0 _ _ HA')
    as (_ & _ & _ & _ & Hpop').
  destruct (Hpop' (Examples.msg "pong" "id-other" "id-worker" HIGH 6%Z) [])
    as (_ & Hnone & _); [discriminate|reflexivity|].
  destruct (Hnone eq_refl) as (w' & Hcall' & Hactors & _ & Hout).
  exists w'. split; [exact Hcall'|]. split; [|exact Hout].
  unfold get_state. rewrite Hactors. reflexivity.
Defined.

(** ** [stop] and the way to [STOPPED] *)

Lemma stop_already_stopping (this : addr) (w : World) (A : Actor) :
  actors w !! this = Some A →
  state_ A = STOPPED ∨ state_ A = STOPPING →
  stop this w = w.
Proof. intros HA Hs. unfold stop. rewrite HA. by case_decide. Qed.

Lemma stop_requested (this : addr) (w : World) (A : Actor) :
  actors w !! this = Some A →
  state_ A ≠ STOPPED →
  state_ A ≠ STOPPING →
  get_state this (stop this w)
  = Some (match message_queue_ A with [] => STOPPED | _ :: _ => STOPPING end)
  ∧ mailbox this (stop this w) = Some (message_queue_ A).
Proof.
  intros HA Hs1 Hs2. unfold stop. rewrite HA.
  case_decide as Hs; [by destruct Hs|].
  assert (Hbox : mailbox this (set_state this STOPPING w) = Some (message_queue_ A)).
  { by rewrite mailbox_set_state, (mailbox_live _ _ _ HA). }
  assert (Hst : get_state this (set_state this STOPPING w) = Some STOPPING).
  { apply get_state_set_state. eauto. }
  unfold has_messages. rewrite Hbox.
  destruct (message_queue_ A); cbn [negb].
  - rewrite mailbox_set_state. split; [|done].
    apply get_state_set_state. unfold get_state in Hst.
    destruct (actors (set_state this STOPPING w) !! this); [done|discriminate].
  - done.
Qed.

Section CoreOpFacts.
Variable invoke : MessageHandler -> Message -> World -> completion unit World.

(** No core operation touches a [STOPPED] actor: at most a diagnostic is
    printed. *)
Lemma run_op_stopped (this : addr) (op : CoreOp) (w : World) :
  get_state this w = Some STOPPED →
  actors (run_op invoke this op w) = actors w.
Proof.
  unfold get_state. destruct (actors w !! this) as [A|] eqn:HA; [|discriminate].
  intros [= Hs]. destruct op; cbn [run_op].
  - unfold initialize. rewrite HA. case_decide; [done|congruence].
  - unfold start. rewrite HA. case_decide; [done|congruence].
  - rewrite (stop_already_stopping _ _ _ HA); auto.
  - unfold receive. rewrite HA. case_decide as Hrej; [done|].
    exfalso. apply Hrej. rewrite Hs. split; discriminate.
  - by rewrite (process_next_message_stopped _ _ _ _ HA Hs).
Qed.

Lemma run_ops_stopped (this : addr) (ops : list CoreOp) :
  ∀ w, get_state this w = Some STOPPED →
       actors (run_ops invoke this ops w) = actors w.
Proof.
  induction ops as [|op ops IH]; intros w Hs; cbn [run_ops]; [done|].
  pose proof (run_op_stopped this op w Hs) as Hop.
  rewrite IH; [done|]. unfold get_state in *. by rewrite Hop.
Qed.

Lemma handlers_spare_keep_draining (this : addr) :
  handlers_spare_draining invoke this → handlers_keep_draining invoke this.
Proof.
  intros spare handler message w Hs.
  destruct (spare handler message w Hs) as (w' & Hcall & Hst & _).
  exists w'. split; [done|]. by rewrite Hst.
Qed.

Section Draining.
Variable this : addr.
Hypothesis keep : handlers_keep_draining invoke this.

(** On a draining actor the dispatch returns and leaves the actor
    [STOPPING]. *)
Lemma dispatched_kept (A : Actor) (message : Message) (rest : list Message)
    (w : World) :
  state_ A = STOPPING →
  ∃ w', dispatched invoke this A message rest w = Done tt w'
        ∧ get_state this w' = Some STOPPING.
Proof.
  intros Hs.
  destruct (handlers_ A !! get_type message) as [handler|] eqn:Hh.
  - rewrite (dispatched_handled _ _ _ _ _ _ _ Hh). apply keep.
    unfold get_state, write_actor; cbn [actors]. rewrite lookup_insert_eq.
    simpl. by rewrite Hs.
  - destruct (dispatched_unhandled invoke this A message rest w Hh)
      as (w' & Hd & _ & Hst & _).
    exists w'. split; [done|]. by rewrite Hst, Hs.
Qed.

(** One call of [process_next_message] on a draining actor returns true
    and leaves the actor draining, or [STOPPED] with an empty mailbox. *)
Lemma process_next_message_draining (w : World) (message : Message)
    (rest : list Message) :
  get_state this w = Some STOPPING →
  mailbox this w = Some (message :: rest) →
  ∃ w', process_next_message invoke this w = Done true w'
        ∧ draining_or_stopped this w'.
Proof.
  unfold get_state at 1, mailbox at 1.
  destruct (actors w !! this) as [A|] eqn:HA; [|discriminate].
  intros [= Hs] [= Hq].
  assert (Hs' : state_ A ≠ STOPPED) by congruence.
  destruct (dispatched_kept A message rest w Hs) as (w1 & Hd & Hst).
  exists (finalized this w1).
  split; [by apply (process_next_message_returned _ _ _ _ _ _ _ HA Hs' Hq)|].
  assert (Hbox : ∃ q, mailbox this w1 = Some q).
  { unfold get_state in Hst. unfold mailbox.
    destruct (actors w1 !! this); [eauto|discriminate]. }
  destruct Hbox as [[|message' rest'] Hbox].
  - destruct (finalized_drained this w1 Hst Hbox) as (-> & ? & ?). by right.
  - rewrite finalized_not_drained.
    + left. eauto.
    + rewrite Hbox. by intros [_ [=]].
Qed.

Lemma run_op_draining (op : CoreOp) (w : World) (message : Message)
    (rest : list Message) :
  get_state this w = Some STOPPING →
  mailbox this w = Some (message :: rest) →
  draining_or_stopped this (run_op invoke this op w)
  ∧ (get_state this (run_op invoke this op w) = Some STOPPED →
       op = op_process_next_message).
Proof.
  intros Hst Hbox.
  assert (Hkeep : ∀ w', actors w' = actors w →
             draining_or_stopped this w'
             ∧ (get_state this w' = Some STOPPED → op = op_process_next_message)).
  { intros w' Heq. unfold draining_or_stopped, get_state, mailbox in *.
    rewrite Heq. split; [left; eauto|]. rewrite Hst. discriminate. }
  pose proof Hst as Hst0. pose proof Hbox as Hbox0.
  unfold get_state, mailbox in Hst0, Hbox0.
  destruct (actors w !! this) as [A|] eqn:HA; [|discriminate].
  injection Hst0 as Hs. injection Hbox0 as Hq.
  destruct op; cbn [run_op].
  - apply Hkeep. unfold initialize. rewrite HA. case_decide; [done|congruence].
  - apply Hkeep. unfold start. rewrite HA. case_decide; [done|congruence].
  - apply Hkeep. rewrite (stop_already_stopping _ _ _ HA); auto.
  - unfold receive. rewrite HA. case_decide as Hrej; [by destruct Hrej|].
    unfold draining_or_stopped, get_state, mailbox, write_actor; cbn [actors].
    rewrite lookup_insert_eq. simpl. rewrite Hs, Hq.
    split; [left; eauto|discriminate].
  - destruct (process_next_message_draining w message rest Hst Hbox) as (w' & -> & Hinv).
    done.
Qed.

Lemma run_ops_draining (ops : list CoreOp) :
  ∀ w, draining_or_stopped this w →
       draining_or_stopped this (run_ops invoke this ops w).
Proof.
  induction ops as [|op ops IH]; intros w Hinv; cbn [run_ops]; [done|].
  apply IH. destruct Hinv as [(Hst & message & rest & Hbox)|[Hst Hbox]].
  - by apply (run_op_draining op w message rest).
  - right. pose proof (run_op_stopped this op w Hst) as Heq.
    unfold get_state, mailbox in *. by rewrite Heq.
Qed.
End Draining.

Section Spared.
Variable this : addr.
Hypothesis spare : handlers_spare_draining invoke this.

Lemma dispatched_spared (A : Actor) (message : Message) (rest : list Message)
    (w : World) :
  state_ A = STOPPING →
  ∃ w', dispatched invoke this A message rest w = Done tt w'
        ∧ get_state this w' = Some STOPPING
        ∧ mailbox this w' = Some rest.
Proof.
  intros Hs.
  destruct (handlers_ A !! get_type message) as [handler|] eqn:Hh.
  - rewrite (dispatched_handled _ _ _ _ _ _ _ Hh).
    assert (Hpopped : get_state this (write_actor this (with_message_queue rest A) w)
                      = Some STOPPING).
    { unfold get_state, write_actor; cbn [actors]. rewrite lookup_insert_eq.
      simpl. by rewrite Hs. }
    destruct (spare handler message _ Hpopped) as (w' & Hcall & Hst & Hbox).
    exists w'. split; [done|]. rewrite Hst, Hbox. split; [done|].
    unfold mailbox, write_actor; cbn [actors]. by rewrite lookup_insert_eq.
  - destruct (dispatched_unhandled invoke this A message rest w Hh)
      as (w' & Hd & _ & Hst & Hbox).
    exists w'. by rewrite Hst, Hs.
Qed.

(** One call of [process_next_message] on a draining actor takes the
    front message away, and stops the actor if that was the last one. *)
Lemma process_next_message_draining_spared (w : World) (message : Message)
    (rest : list Message) :
  get_state this w = Some STOPPING →
  mailbox this w = Some (message :: rest) →
  get_state this (state_after (process_next_message invoke this w))
  = Some (match rest with [] => STOPPED | _ :: _ => STOPPING end)
  ∧ mailbox this (state_after (process_next_message invoke this w)) = Some rest.
Proof.
  unfold get_state at 1, mailbox at 1.
  destruct (actors w !! this) as [A|] eqn:HA; [|discriminate].
  intros [= Hs] [= Hq].
  assert (Hs' : state_ A ≠ STOPPED) by congruence.
  destruct (dispatched_spared A message rest w Hs) as (w1 & Hd & Hst & Hbox).
  rewrite (process_next_message_returned _ _ _ _ _ _ _ HA Hs' Hq Hd).
  cbn [state_after].
  destruct (finalized_spared this w1 STOPPING rest Hst Hbox) as [-> ->].
  split; [|done]. f_equal. destruct rest.
  - by rewrite decide_True.
  - rewrite decide_False; [done|]. by intros [_ ?].
Qed.

(** [k] calls of [process_next_message] in a row on a draining actor
    with [length q] messages. *)
Lemma process_next_message_drains (k : nat) :
  ∀ w q, get_state this w = Some STOPPING → mailbox this w = Some q → q ≠ [] →
    get_state this (run_ops invoke this (replicate k op_process_next_message) w)
    = Some (if decide (k < length q) then STOPPING else STOPPED).
Proof.
  induction k as [|k IH]; intros w q Hst Hbox Hne.
  - cbn [replicate run_ops]. rewrite decide_True; [done|].
    destruct q; [done|simpl; lia].
  - destruct q as [|message rest]; [done|].
    cbn [replicate run_ops run_op].
    destruct (process_next_message_draining_spared w message rest Hst Hbox)
      as [Hst' Hbox'].
    destruct rest as [|message' rest].
    + pose proof (run_ops_stopped this (replicate k op_process_next_message) _ Hst')
        as Heq.
      unfold get_state in *. rewrite Heq, Hst'.
      rewrite decide_False; [done|]. simpl. lia.
    + rewrite (IH _ _ Hst' Hbox') by done.
      f_equal. simpl. repeat case_decide; (done || lia).
Qed.

(** The step that stops a draining actor takes its last message. *)
Lemma run_op_draining_last (op : CoreOp) (w : World) (message : Message)
    (rest : list Message) :
  get_state this w = Some STOPPING →
  mailbox this w = Some (message :: rest) →
  get_state this (run_op invoke this op w) = Some STOPPED →
  op = op_process_next_message ∧ rest = [].
Proof.
  intros Hst Hbox Hstopped.
  destruct (run_op_draining this (handlers_spare_keep_draining this spare)
              op w message rest Hst Hbox) as [_ Honly].
  split; [by apply Honly|].
  rewrite (Honly Hstopped) in Hstopped. cbn [run_op] in Hstopped.
  destruct (process_next_message_draining_spared w message rest Hst Hbox) as [Hst' _].
  rewrite Hst' in Hstopped. by destruct rest.
Qed.
End Spared.
End CoreOpFacts.

(** Messages sent through the loop never reach an actor that is not
    [RUNNING]: a handler that only sends spares every draining actor. *)
Lemma deliver_message_spares_not_running (this loop : addr) (message : Message) (w : World) :
  get_state this w ≠ Some RUNNING →
  actors (deliver_message loop message w) !! this = actors w !! this.
Proof.
  intros Hs. unfold deliver_message.
  destruct (find_actor loop (get_target_id message) w) as [target|]; [|done].
  destruct (is_running target w) eqn:Hrun; [|done].
  unfold receive. destruct (actors w !! target) as [A|] eqn:HA; [|done].
  case_decide; [done|]. unfold write_actor; cbn [actors].
  destruct (decide (target = this)) as [->|Hne]; [|by rewrite lookup_insert_ne].
  unfold is_running in Hrun. by apply bool_decide_eq_true in Hrun.
Qed.

Lemma send_spares_not_running (this sender : addr) (target_actor_id : string)
    (message : Message) (now1 now2 : time_point) (w : World) :
  get_state this w ≠ Some RUNNING →
  actors (send sender target_actor_id message now1 now2 w) !! this = actors w !! this.
Proof.
  intros Hs. unfold send.
  destruct (actors w !! sender) as [A|]; [|done].
  destruct (event_loops w !! event_loop_ A); [|done].
  by apply deliver_message_spares_not_running.
Qed.

Lemma reply_handler_spares_draining (this : addr) :
  handlers_spare_draining Examples.reply_handler this.
Proof.
  intros handler message w Hs. eexists. split; [reflexivity|].
  unfold get_state, mailbox.
  rewrite send_spares_not_running; [done|]. rewrite Hs. discriminate.
Qed.

(** C2, as the specification words it, fails.  The running actor
    "id-worker" holds one message of type "pong", handled by a handler that
    reads the key "count" as [handle_pong] of the example program does.
    [stop] leaves the actor [STOPPING]; the one call of
    [process_next_message] drains the mailbox, the handler throws, and the
    actor is still [STOPPING], with an empty mailbox and nothing left for
    the loop to do.  And with two queued messages and a handler that calls
    [stop_immediately] on its own actor, the actor is [STOPPED] after one
    call, before the second message has been processed. *)
Lemma stop_then_handler_throws :
  get_state 0 Examples.w_one_pong = Some RUNNING
  ∧ mailbox 0 Examples.w_one_pong
    = Some [Examples.msg "pong" "id-other" "id-worker" NORMAL 5%Z]
  ∧ get_state 0 (stop 0 Examples.w_one_pong) = Some STOPPING
  ∧ mailbox 0 (run_op Examples.pong_handler 0 op_process_next_message
                 (stop 0 Examples.w_one_pong)) = Some []
  ∧ get_state 0 (run_op Examples.pong_handler 0 op_process_next_message
                   (stop 0 Examples.w_one_pong)) = Some STOPPING
  ∧ has_work map_to_list 0
      (run_op Examples.pong_handler 0 op_process_next_message
         (stop 0 Examples.w_one_pong)) = false
  ∧ mailbox 0 (stop 0 Examples.w_two_messages)
    = Some [Examples.msg "ping" "id-other" "id-worker" NORMAL 5%Z;
            Examples.msg "pong" "id-other" "id-worker" HIGH 6%Z]
  ∧ get_state 0 (run_op Examples.halting_handler 0 op_process_next_message
                   (stop 0 Examples.w_two_messages)) = Some STOPPED.
Proof.
  split; [reflexivity|]. split; [reflexivity|]. split; [reflexivity|].
  split; [reflexivity|]. split; [reflexivity|]. split; [vm_compute; reflexivity|].
  split; reflexivity.
Qed.

(** C2, amended.  [stop] on a [STOPPED] or [STOPPING] actor changes
    nothing.  In any other state it keeps the mailbox and leaves the actor
    [STOPPED] if the mailbox is empty and [STOPPING] otherwise.  Whatever
    the handlers do, no call of [process_next_message] that returns leaves
    the actor [STOPPING] with an empty mailbox, and an actor that is
    [STOPPING] with an empty mailbox (a handler threw on its last message)
    is moved to [STOPPED] by the next call.  After a [stop] with a
    non-empty mailbox, and with handlers that return and leave a draining
    actor [STOPPING] (they may put messages into its mailbox): whatever
    core operations follow the [stop], the actor is [STOPPING] with a
    non-empty mailbox or [STOPPED] with an empty one, and the only step
    from [STOPPING] to [STOPPED] is a [process_next_message].  With
    handlers that return and leave alone the state and the mailbox of a
    draining actor, and [n > 0] queued messages: the actor is [STOPPING]
    after fewer than [n] calls of [process_next_message] and [STOPPED]
    after [n] or more, and the step to [STOPPED] is the call that takes
    the last message.  Once an actor is [STOPPED], no sequence of
    [initialize], [start], [stop], [receive] and [process_next_message]
    changes any actor, so it stays [STOPPED]. *)
Theorem stop_lifecycle
    (invoke : MessageHandler -> Message -> World -> completion unit World)
    (this : addr) (w : World) (A : Actor) :
  actors w !! this = Some A →
  (state_ A = STOPPED ∨ state_ A = STOPPING → stop this w = w)
  ∧ (state_ A ≠ STOPPED → state_ A ≠ STOPPING →
       mailbox this (stop this w) = Some (message_queue_ A)
       ∧ (message_queue_ A = [] → get_state this (stop this w) = Some STOPPED)
       ∧ (message_queue_ A ≠ [] → get_state this (stop this w) = Some STOPPING)
       ∧ (message_queue_ A ≠ [] → handlers_keep_draining invoke this →
            (∀ ops,
               (get_state this (run_ops invoke this ops (stop this w)) = Some STOPPING
                ∧ ∃ message rest,
                    mailbox this (run_ops invoke this ops (stop this w))
                    = Some (message :: rest))
               ∨ (get_state this (run_ops invoke this ops (stop this w)) = Some STOPPED
                  ∧ mailbox this (run_ops invoke this ops (stop this w)) = Some []))
            ∧ (∀ ops op,
                 get_state this (run_ops invoke this ops (stop this w)) = Some STOPPING →
                 get_state this
                   (run_op invoke this op (run_ops invoke this ops (stop this w)))
                 = Some STOPPED →
                 op = op_process_next_message
                 ∧ mailbox this
                     (run_op invoke this op (run_ops invoke this ops (stop this w)))
                   = Some []))
       ∧ (message_queue_ A ≠ [] → handlers_spare_draining invoke this →
            (∀ k,
               get_state this
                 (run_ops invoke this (replicate k op_process_next_message) (stop this w))
               = Some (if decide (k < length (message_queue_ A)) then STOPPING
                       else STOPPED))
            ∧ (∀ ops op,
                 get_state this (run_ops invoke this ops (stop this w)) = Some STOPPING →
                 get_state this
                   (run_op invoke this op (run_ops invoke this ops (stop this w)))
                 = Some STOPPED →
                 op = op_process_next_message
                 ∧ ∃ message,
                     mailbox this (run_ops invoke this ops (stop this w))
                     = Some [message])))
  ∧ (∀ w0 b w',
       process_next_message invoke this w0 = Done b w' →
       ¬ (get_state this w' = Some STOPPING ∧ mailbox this w' = Some []))
  ∧ (∀ w0,
       get_state this w0 = Some STOPPING → mailbox this w0 = Some [] →
       process_next_message invoke this w0 = Done false (set_state this STOPPED w0)
       ∧ get_state this (set_state this STOPPED w0) = Some STOPPED)
  ∧ (∀ w' ops,
       get_state this w' = Some STOPPED →
       actors (run_ops invoke this ops w') = actors w'
       ∧ get_state this (run_ops invoke this ops w') = Some STOPPED).
Proof.
  intros HA. split; [by apply stop_already_stopping|].
  split; [|split; [|split]].
  - intros Hs1 Hs2.
    destruct (stop_requested _ _ _ HA Hs1 Hs2) as [Hst Hbox].
    split; [done|]. split; [by intros Hq; rewrite Hq in Hst|].
    split; [by intros Hq; destruct (message_queue_ A)|].
    assert (Hstart : message_queue_ A ≠ [] →
              get_state this (stop this w) = Some STOPPING
              ∧ draining_or_stopped this (stop this w)).
    { intros Hq. destruct (message_queue_ A) as [|m rest]; [done|].
      split; [done|]. left. eauto. }
    split.
    + intros Hq keep. destruct (Hstart Hq) as [Hst' Hinv].
      split.
      * intros ops. by apply (run_ops_draining invoke this keep ops).
      * intros ops op Hdr Hstopped.
        destruct (run_ops_draining invoke this keep ops _ Hinv)
          as [(_ & message & rest & Hbox')|[Hcontra _]]; [|congruence].
        destruct (run_op_draining invoke this keep op _ message rest Hdr Hbox')
          as [[[Hcontra _]|[_ Hempty]] Honly]; [congruence|].
        split; [by apply Honly|done].
    + intros Hq spare. destruct (Hstart Hq) as [Hst' Hinv].
      split.
      * intros k. by apply process_next_message_drains.
      * intros ops op Hdr Hstopped.
        destruct (run_ops_draining invoke this
                    (handlers_spare_keep_draining invoke this spare) ops _ Hinv)
          as [(_ & message & rest & Hbox')|[Hcontra _]]; [|congruence].
        destruct (run_op_draining_last invoke this spare op _ message rest
                    Hdr Hbox' Hstopped) as [-> ->]. eauto.
  - intros w0 b w'. apply process_next_message_never_drained.
  - intros w0 Hst Hbox. unfold get_state in Hst. unfold mailbox in Hbox.
    destruct (actors w0 !! this) as [A0|] eqn:HA0; [|discriminate].
    injection Hst as Hs. injection Hbox as Hq.
    rewrite (process_next_message_empty _ _ _ _ HA0) by (done || congruence).
    rewrite decide_True by done. split; [done|].
    apply get_state_set_state. eauto.
  - intros w' ops Hs.
    pose proof (run_ops_stopped invoke this ops w' Hs) as Heq.
    split; [done|]. unfold get_state in *. by rewrite Heq.
Qed.

Lemma stop_lifecycle_witness :
  actors Examples.w_two_messages !! 0
  = Some (with_message_queue
            [Examples.msg "ping" "id-other" "id-worker" NORMAL 5%Z;
             Examples.msg "pong" "id-other" "id-worker" HIGH 6%Z]
            (with_handlers {[ "ping" := 7 ]}
               (with_state RUNNING
                  (with_state INITIALIZED (Actor_ctor "worker" 0 "id-worker")))))
  ∧ handlers_spare_draining Examples.reply_handler 0
  ∧ get_state 0 (stop 0 Examples.w_two_messages) = Some STOPPING
  ∧ get_state 0
      (run_ops Examples.reply_handler 0 (replicate 1 op_process_next_message)
         (stop 0 Examples.w_two_messages)) = Some STOPPING
  ∧ get_state 0
      (run_ops Examples.reply_handler 0 (replicate 2 op_process_next_message)
         (stop 0 Examples.w_two_messages)) = Some STOPPED
  ∧ get_state 0
      (run_ops Examples.reply_handler 0
         [op_start; op_receive (Examples.msg "ping" "id-other" "id-worker" LOW 7%Z);
          op_initialize; op_process_next_message]
         (stop_immediately 0 Examples.w_two_messages)) = Some STOPPED.
Proof.
  assert (HA : actors Examples.w_two_messages !! 0
               = Some (with_message_queue
                         [Examples.msg "ping" "id-other" "id-worker" NORMAL 5%Z;
                          Examples.msg "pong" "id-other" "id-worker" HIGH 6%Z]
                         (with_handlers {[ "ping" := 7 ]}
                            (with_state RUNNING
                               (with_state INITIALIZED
                                  (Actor_ctor "worker" 0 "id-worker"))))))
    by reflexivity.
  split; [exact HA|].
  split; [exact (reply_handler_spares_draining 0)|].
  destruct (stop_lifecycle Examples.reply_handler 0 _ _ HA)
    as (_ & Hstop & _ & _ & Hfinal).
  destruct Hstop as (_ & _ & Hstopping & _ & Hdrain); [discriminate|discriminate|].
  split; [apply Hstopping; discriminate|].
  destruct Hdrain as (Hcount & _);
    [discriminate|exact (reply_handler_spares_draining 0)|].
  split; [exact (Hcount 1)|]. split; [exact (Hcount 2)|].
  apply Hfinal. reflexivity.
Defined.

(** ** [RoundRobinScheduler::next_actor] *)

Section RoundRobinFacts.
Context {P : Type}.
Implicit Types (candidates : list P) (s : RoundRobinScheduler).

Lemma checked_index_lt candidates s :
  candidates ≠ [] → (checked_index candidates s < size candidates)%N.
Proof.
  intros Hne. unfold checked_index, size.
  destruct (N.leb_spec (N.of_nat (length candidates)) (current_index_ s)); [|done].
  destruct candidates; [done|]. simpl. lia.
Qed.

Lemma next_actor_nonempty candidates s :
  candidates ≠ [] →
  next_actor candidates s
  = (candidates !! N.to_nat (checked_index candidates s),
     {| current_index_ :=
          (((checked_index candidates s + 1) mod size_t_modulus) mod size candidates)%N |}).
Proof. intros Hne. by destruct candidates. Qed.

Lemma checked_index_in_range candidates (i : nat) :
  i < length candidates →
  checked_index candidates {| current_index_ := N.of_nat i |} = N.of_nat i.
Proof.
  intros Hlt. unfold checked_index, size. cbn [current_index_].
  destruct (N.leb_spec (N.of_nat (length candidates)) (N.of_nat i)); [lia|done].
Qed.

Lemma next_actor_checked candidates s :
  candidates ≠ [] →
  next_actor candidates s
  = next_actor candidates {| current_index_ := checked_index candidates s |}.
Proof.
  intros Hne. pose proof (checked_index_lt candidates s Hne) as Hlt.
  rewrite !next_actor_nonempty by done.
  assert (Hfix : checked_index candidates
                   {| current_index_ := checked_index candidates s |}
                 = checked_index candidates s).
  { rewrite <- (N2Nat.id (checked_index candidates s)) at 1.
    rewrite checked_index_in_range; [lia|]. unfold size in Hlt. lia. }
  by rewrite Hfix.
Qed.

(** One call with the index inside the vector: the addition does not
    wrap around, since the vector has fewer than [2^64] elements. *)
Lemma next_actor_at candidates (i : nat) (p : P) :
  candidates !! i = Some p →
  (size candidates < size_t_modulus)%N →
  next_actor candidates {| current_index_ := N.of_nat i |}
  = (Some p,
     {| current_index_ :=
          N.of_nat (if decide (S i = length candidates) then 0 else S i) |}).
Proof.
  intros Hp Hfit. pose proof (lookup_lt_Some _ _ _ Hp) as Hlt.
  rewrite next_actor_nonempty by (intros ->; simpl in Hlt; lia).
  rewrite checked_index_in_range by done.
  rewrite Nat2N.id, Hp. do 2 f_equal. unfold size in *.
  rewrite (N.mod_small (N.of_nat i + 1)) by lia.
  case_decide as Hlast.
  - replace (N.of_nat i + 1)%N with (N.of_nat (length candidates)) by lia.
    apply N.Div0.mod_same.
  - rewrite N.mod_small; lia.
Qed.

Lemma next_actor_times_add (a b : nat) candidates :
  ∀ s,
    next_actor_times (a + b) candidates s
    = ((fst (next_actor_times a candidates s)
        ++ fst (next_actor_times b candidates (snd (next_actor_times a candidates s))))%list,
       snd (next_actor_times b candidates (snd (next_actor_times a candidates s)))).
Proof.
  induction a as [|a IH]; intros s; cbn [next_actor_times Nat.add].
  - simpl. by destruct (next_actor_times b candidates s).
  - destruct (next_actor candidates s) as [actor s1]. rewrite IH.
    destruct (next_actor_times a candidates s1) as [rest s2]. reflexivity.
Qed.

(** [k] calls that start at position [i] and do not run past the end of
    the vector return the [k] candidates from position [i] on. *)
Lemma next_actor_times_segment candidates (k : nat) :
  (size candidates < size_t_modulus)%N →
  ∀ i, (i < length candidates)%nat → (i + k ≤ length candidates)%nat →
    next_actor_times k candidates {| current_index_ := N.of_nat i |}
    = (Some <$> take k (drop i candidates),
       {| current_index_ :=
            N.of_nat (if decide (i + k = length candidates) then 0 else i + k) |}).
Proof.
  intros Hfit. induction k as [|k IH]; intros i Hlt Hle; cbn [next_actor_times].
  - rewrite decide_False by lia. by rewrite Nat.add_0_r.
  - destruct (lookup_lt_is_Some_2 candidates i Hlt) as [p Hp].
    rewrite (next_actor_at _ _ _ Hp Hfit), (drop_S _ _ _ Hp). cbn [take fmap list_fmap].
    case_decide as Hlast.
    + assert (k = 0) as -> by lia. cbn [next_actor_times].
      rewrite decide_True by lia. by rewrite take_0.
    + rewrite IH by lia. do 3 f_equal. repeat case_decide; lia.
Qed.

(** As many calls as there are candidates, from a position inside the
    vector: the candidates from that position to the end, then those
    before it; the scheduler is back at the position it started from. *)
Lemma next_actor_times_round candidates (i : nat) :
  (size candidates < size_t_modulus)%N →
  i < length candidates →
  next_actor_times (length candidates) candidates {| current_index_ := N.of_nat i |}
  = (Some <$> (drop i candidates ++ take i candidates)%list,
     {| current_index_ := N.of_nat i |}).
Proof.
  intros Hfit Hlt.
  replace (length candidates) with ((length candidates - i) + i) at 1 by lia.
  rewrite next_actor_times_add.
  rewrite (next_actor_times_segment _ _ Hfit i) by lia. cbn [fst snd].
  rewrite decide_True by lia.
  rewrite (next_actor_times_segment _ _ Hfit 0) by lia. cbn [fst snd].
  rewrite decide_False by lia. rewrite drop_0, Nat.add_0_l.
  rewrite take_ge by (rewrite length_drop; lia).
  by rewrite fmap_app.
Qed.
End RoundRobinFacts.

(** C8, as the specification words it, fails on an index left over from a
    longer candidate vector: the scheduler does not take that index modulo
    the size of the vector, it starts again at 0.  After four calls on five
    candidates the index is 4; the next call, on three candidates, returns
    the first of them, not the one at position [4 mod 3 = 1]. *)
Lemma next_actor_restarts_at_zero :
  current_index_ (snd (next_actor_times 4 ["a"; "b"; "c"; "d"; "e"] RoundRobinScheduler_ctor))
  = 4%N
  ∧ fst (next_actor ["x"; "y"; "z"]
           (snd (next_actor_times 4 ["a"; "b"; "c"; "d"; "e"] RoundRobinScheduler_ctor)))
    = Some "x"
  ∧ ["x"; "y"; "z"] !! N.to_nat (4 mod size ["x"; "y"; "z"]) = Some "y"
  ∧ fst (next_actor ["x"; "y"; "z"]
           (snd (next_actor_times 4 ["a"; "b"; "c"; "d"; "e"] RoundRobinScheduler_ctor)))
    ≠ ["x"; "y"; "z"]
        !! N.to_nat
             (current_index_
                (snd (next_actor_times 4 ["a"; "b"; "c"; "d"; "e"] RoundRobinScheduler_ctor))
              mod size ["x"; "y"; "z"]).
Proof.
  split; [reflexivity|]. split; [reflexivity|]. split; [reflexivity|].
  vm_compute. discriminate.
Qed.

(** C8, amended.  On an empty candidate vector [next_actor] returns none
    and keeps its index.  On a vector of [N ≥ 1] candidates a call first
    sets its index back to 0 when the index is not below [N], returns the
    candidate at that index and advances the index by one modulo [N].  Over
    [N] consecutive calls on the same vector the candidates are returned in
    rotation from that index on, so each position of the vector is selected
    exactly once, and the index is back where the first call put it. *)
Theorem round_robin_spec (P : Type) (candidates : list P) (s : RoundRobinScheduler) :
  next_actor (@nil P) s = (None, s)
  ∧ (candidates ≠ [] →
     (size candidates < size_t_modulus)%N →
     (checked_index candidates s
      = if (size candidates <=? current_index_ s)%N then 0%N else current_index_ s)
     ∧ next_actor candidates s
       = (candidates !! N.to_nat (checked_index candidates s),
          {| current_index_ := ((checked_index candidates s + 1) mod size candidates)%N |})
     ∧ is_Some (candidates !! N.to_nat (checked_index candidates s))
     ∧ fst (next_actor_times (length candidates) candidates s)
       = Some <$> (drop (N.to_nat (checked_index candidates s)) candidates
                   ++ take (N.to_nat (checked_index candidates s)) candidates)%list
     ∧ (∃ selected,
          fst (next_actor_times (length candidates) candidates s) = Some <$> selected
          ∧ selected ≡ₚ candidates)
     ∧ current_index_ (snd (next_actor_times (length candidates) candidates s))
       = checked_index candidates s).
Proof.
  split; [done|]. intros Hne Hfit.
  pose proof (checked_index_lt candidates s Hne) as Hlt.
  set (i := N.to_nat (checked_index candidates s)).
  assert (Hi : checked_index candidates s = N.of_nat i) by (unfold i; lia).
  assert (Hi' : i < length candidates) by (unfold size in Hlt; lia).
  destruct (lookup_lt_is_Some_2 candidates i Hi') as [p Hp].
  assert (Hround : next_actor_times (length candidates) candidates s
                   = (Some <$> (drop i candidates ++ take i candidates)%list,
                      {| current_index_ := N.of_nat i |})).
  { rewrite <- (next_actor_times_round candidates i Hfit Hi').
    destruct (length candidates) as [|n] eqn:Hlen; [lia|]. cbn [next_actor_times].
    rewrite next_actor_checked by done. by rewrite Hi. }
  split; [done|]. split; [|split; [eauto|split; [|split]]].
  - rewrite next_actor_checked by done.
    rewrite Hi, (next_actor_at _ _ _ Hp Hfit), Hp.
    do 2 f_equal. unfold size in *. case_decide as Hlast.
    + replace (N.of_nat i + 1)%N with (N.of_nat (length candidates)) by lia.
      by rewrite N.Div0.mod_same.
    + rewrite N.mod_small; lia.
  - by rewrite Hround.
  - exists (drop i candidates ++ take i candidates)%list. rewrite Hround.
    split; [done|]. rewrite Permutation_app_comm. by rewrite take_drop.
  - by rewrite Hround, Hi.
Qed.

Lemma round_robin_spec_witness :
  ["x"; "y"; "z"] ≠ []
  ∧ (size ["x"; "y"; "z"] < size_t_modulus)%N
  ∧ next_actor ["x"; "y"; "z"] {| current_index_ := 1 |}
    = (Some "y", {| current_index_ := 2 |})
  ∧ fst (next_actor_times 3 ["x"; "y"; "z"] {| current_index_ := 1 |})
    = [Some "y"; Some "z"; Some "x"]
  ∧ fst (next_actor_times 3 ["x"; "y"; "z"] {| current_index_ := 7 |})
    = [Some "x"; Some "y"; Some "z"].
Proof.
  assert (Hne : ["x"; "y"; "z"] ≠ []) by discriminate.
  assert (Hfit : (size ["x"; "y"; "z"] < size_t_modulus)%N) by reflexivity.
  split; [exact Hne|]. split; [exact Hfit|].
  destruct (round_robin_spec string ["x"; "y"; "z"] {| current_index_ := 1 |})
    as [_ Hone].
  destruct (round_robin_spec string ["x"; "y"; "z"] {| current_index_ := 7 |})
    as [_ Hstale].
  destruct (Hone Hne Hfit) as (_ & Hcall & _ & Hround & _).
  destruct (Hstale Hne Hfit) as (_ & _ & _ & Hround' & _).
  split; [exact Hcall|]. split; [exact Hround|exact Hround'].
Defined.


(** * Further properties *)

(** ** [initialize] and [start] *)

Lemma initialize_created (this : addr) (w : World) (A : Actor) :
  actors w !! this = Some A →
  state_ A = CREATED →
  initialize this w
  = print (out_state_changed (name_ A) (id_ A) CREATED INITIALIZED)
      (write_actor this (with_state INITIALIZED A) w).
Proof.
  intros HA Hs. unfold initialize. rewrite HA.
  case_decide; [done|]. by rewrite (set_state_live _ _ _ _ HA), Hs.
Qed.

Lemma initialize_rejected (this : addr) (w : World) (A : Actor) :
  actors w !! this = Some A →
  state_ A ≠ CREATED →
  initialize this w = print (err_cannot_initialize (name_ A) (state_ A)) w.
Proof. intros HA Hs. unfold initialize. rewrite HA. by case_decide. Qed.

Lemma start_initialized (this : addr) (w : World) (A : Actor) :
  actors w !! this = Some A →
  state_ A = INITIALIZED →
  start this w
  = print (out_state_changed (name_ A) (id_ A) INITIALIZED RUNNING)
      (write_actor this (with_state RUNNING A) w).
Proof.
  intros HA Hs. unfold start. rewrite HA.
  case_decide; [done|]. by rewrite (set_state_live _ _ _ _ HA), Hs.
Qed.

Lemma start_rejected (this : addr) (w : World) (A : Actor) :
  actors w !! this = Some A →
  state_ A ≠ INITIALIZED →
  start this w = print (err_cannot_start (name_ A) (state_ A)) w.
Proof. intros HA Hs. unfold start. rewrite HA. by case_decide. Qed.

(** X1.  [initialize] moves an actor from [CREATED] to [INITIALIZED] and
    [start] moves it from [INITIALIZED] to [RUNNING]; called in any other
    state each of them only prints a diagnostic and changes no object.  So
    [initialize] followed by [start] brings a new actor to [RUNNING] with
    its mailbox untouched, while [start] alone on a new actor is refused. *)
Theorem initialize_start_guards (this : addr) (w : World) (A : Actor) :
  actors w !! this = Some A →
  (state_ A = CREATED →
     actors (initialize this w) = <[this := with_state INITIALIZED A]> (actors w)
     ∧ actors (start this (initialize this w))
       = <[this := with_state RUNNING A]> (actors w)
     ∧ output (start this (initialize this w))
       = (output w ++ [out_state_changed (name_ A) (id_ A) CREATED INITIALIZED;
                       out_state_changed (name_ A) (id_ A) INITIALIZED RUNNING])%list
     ∧ start this w = print (err_cannot_start (name_ A) CREATED) w)
  ∧ (state_ A ≠ CREATED →
       initialize this w = print (err_cannot_initialize (name_ A) (state_ A)) w)
  ∧ (state_ A = INITIALIZED →
       actors (start this w) = <[this := with_state RUNNING A]> (actors w))
  ∧ (state_ A ≠ INITIALIZED →
       start this w = print (err_cannot_start (name_ A) (state_ A)) w).
Proof.
  intros HA. split; [|split; [|split]].
  - intros Hs. rewrite (initialize_created _ _ _ HA Hs).
    rewrite (start_initialized _ _ (with_state INITIALIZED A));
      [|apply lookup_insert_eq|done].
    rewrite (start_rejected _ _ _ HA) by congruence. rewrite Hs.
    unfold print, write_actor; cbn [actors output event_loops name_ id_ with_state].
    rewrite insert_insert_eq, <- app_assoc. done.
  - by apply initialize_rejected.
  - intros Hs. by rewrite (start_initialized _ _ _ HA Hs).
  - by apply start_rejected.
Qed.

Lemma initialize_start_guards_witness :
  actors Examples.w_created !! 0 = Some (Actor_ctor "worker" 0 "id-worker")
  ∧ get_state 0 (start 0 (initialize 0 Examples.w_created)) = Some RUNNING
  ∧ start 0 Examples.w_created = print (err_cannot_start "worker" CREATED) Examples.w_created.
Proof.
  assert (HA : actors Examples.w_created !! 0 = Some (Actor_ctor "worker" 0 "id-worker"))
    by reflexivity.
  split; [exact HA|].
  destruct (initialize_start_guards 0 _ _ HA) as [Hnew _].
  destruct (Hnew eq_refl) as (_ & Hboth & _ & Hrefused).
  split; [|exact Hrefused].
  unfold get_state. rewrite Hboth. reflexivity.
Defined.

(** ** The life cycle only moves forward *)

Section LifeCycleOrder.
Variable invoke : MessageHandler -> Message -> World -> completion unit World.
Variable this : addr.
Hypothesis keep : handlers_keep_state invoke this.

Lemma run_op_state_order (op : CoreOp) (w : World) (s : State) :
  get_state this w = Some s →
  ∃ s', get_state this (run_op invoke this op w) = Some s'
        ∧ (state_to_int s ≤ state_to_int s')%Z.
Proof.
  intros Hst. pose proof Hst as Hst0. unfold get_state in Hst0.
  destruct (actors w !! this) as [A|] eqn:HA; [|discriminate].
  injection Hst0 as Hs.
  assert (Hsame : ∀ w', actors w' = actors w →
            ∃ s', get_state this w' = Some s' ∧ (state_to_int s ≤ state_to_int s')%Z).
  { intros w' Heq. exists s. unfold get_state. rewrite Heq, HA. simpl.
    rewrite Hs. split; [done|lia]. }
  destruct op; cbn [run_op].
  - destruct (decide (state_ A = CREATED)) as [Hc|Hc].
    + rewrite (initialize_created _ _ _ HA Hc). exists INITIALIZED.
      unfold get_state, print, write_actor; cbn [actors]. rewrite lookup_insert_eq.
      split; [done|]. rewrite <- Hs, Hc. simpl. lia.
    + apply Hsame. by rewrite (initialize_rejected _ _ _ HA Hc).
  - destruct (decide (state_ A = INITIALIZED)) as [Hc|Hc].
    + rewrite (start_initialized _ _ _ HA Hc). exists RUNNING.
      unfold get_state, print, write_actor; cbn [actors]. rewrite lookup_insert_eq.
      split; [done|]. rewrite <- Hs, Hc. simpl. lia.
    + apply Hsame. by rewrite (start_rejected _ _ _ HA Hc).
  - destruct (decide (state_ A = STOPPED ∨ state_ A = STOPPING)) as [Hc|Hc].
    + apply Hsame. by rewrite (stop_already_stopping _ _ _ HA Hc).
    + destruct (stop_requested this w A HA) as [Hst' _]; [tauto|tauto|].
      rewrite Hst'. eexists; split; [done|].
      rewrite <- Hs. destruct (state_ A), (message_queue_ A); simpl; (lia || tauto).
  - unfold receive. rewrite HA. case_decide; [by apply Hsame|].
    exists s. unfold get_state, write_actor; cbn [actors]. rewrite lookup_insert_eq.
    simpl. rewrite Hs. split; [done|lia].
  - destruct (decide (state_ A = STOPPED)) as [Hc|Hc].
    { apply Hsame. by rewrite (process_next_message_stopped _ _ _ _ HA Hc). }
    destruct (message_queue_ A) as [|message rest] eqn:Hq.
    { rewrite (process_next_message_empty _ _ _ _ HA Hc Hq). cbn [state_after].
      case_decide; [|by apply Hsame].
      exists STOPPED. rewrite get_state_set_state by eauto.
      split; [done|]. destruct s; simpl; lia. }
    rewrite (process_next_message_pop _ _ _ _ _ _ HA Hc Hq).
    assert (Hd : get_state this (state_after (dispatched invoke this A message rest w))
                 = Some s).
    { unfold dispatched. destruct (handlers_ A !! get_type message).
      - rewrite keep. unfold get_state, write_actor; cbn [actors].
        rewrite lookup_insert_eq. simpl. by rewrite Hs.
      - unfold get_state, print, write_actor; cbn [actors state_after].
        rewrite lookup_insert_eq. simpl. by rewrite Hs. }
    destruct (dispatched invoke this A message rest w) as [[] w1|e w1];
      cbn [state_after] in *.
    + unfold finalized. destruct (bool_decide _ && negb _).
      * exists STOPPED. rewrite get_state_set_state.
        -- split; [done|]. destruct s; simpl; lia.
        -- unfold get_state in Hd.
           destruct (actors w1 !! this); [done|discriminate].
      * exists s. split; [done|lia].
    + exists s. split; [done|lia].
Qed.

Lemma run_ops_state_order (ops : list CoreOp) :
  ∀ w s, get_state this w = Some s →
    ∃ s', get_state this (run_ops invoke this ops w) = Some s'
          ∧ (state_to_int s ≤ state_to_int s')%Z.
Proof.
  induction ops as [|op ops IH]; intros w s Hst; cbn [run_ops].
  - exists s. split; [done|lia].
  - destruct (run_op_state_order op w s Hst) as (s1 & Hst1 & Hle1).
    destruct (IH _ _ Hst1) as (s2 & Hst2 & Hle2).
    exists s2. split; [done|lia].
Qed.
End LifeCycleOrder.

(** X2.  With handlers that do not change the state of the actor, no
    sequence of [initialize], [start], [stop], [receive] and
    [process_next_message] ever takes the actor back to an earlier state of
    the order CREATED, INITIALIZED, RUNNING, STOPPING, STOPPED: the actor
    stays live and its state number never decreases. *)
Theorem state_never_goes_back
    (invoke : MessageHandler -> Message -> World -> completion unit World)
    (this : addr) (ops : list CoreOp) (w : World) (s : State) :
  handlers_keep_state invoke this →
  get_state this w = Some s →
  ∃ s', get_state this (run_ops invoke this ops w) = Some s'
        ∧ (state_to_int s ≤ state_to_int s')%Z.
Proof. intros keep Hst. by apply run_ops_state_order. Qed.

Lemma state_never_goes_back_witness :
  handlers_keep_state MoreExamples.counting_handler 0
  ∧ get_state 0 Examples.w_two_messages = Some RUNNING
  ∧ ∃ s', get_state 0
            (run_ops MoreExamples.counting_handler 0
               [op_initialize; op_process_next_message; op_stop; op_start]
               Examples.w_two_messages) = Some s'
          ∧ (state_to_int RUNNING ≤ state_to_int s')%Z.
Proof.
  assert (Hkeep : handlers_keep_state MoreExamples.counting_handler 0)
    by (intros handler message w; reflexivity).
  split; [exact Hkeep|]. split; [reflexivity|].
  exact (state_never_goes_back MoreExamples.counting_handler 0
           [op_initialize; op_process_next_message; op_stop; op_start]
           Examples.w_two_messages RUNNING Hkeep eq_refl).
Defined.

(** ** Mailbox order *)

Lemma receive_accepted (this : addr) (message : Message) (w : World) (A : Actor) :
  actors w !! this = Some A →
  state_ A = RUNNING ∨ state_ A = STOPPING →
  receive this message w
  = write_actor this (with_message_queue (message_queue_ A ++ [message])%list A) w.
Proof.
  intros HA Hs. unfold receive. rewrite HA.
  case_decide as Hrej; [|done]. destruct Hrej, Hs; congruence.
Qed.

Lemma receive_rejected (this : addr) (message : Message) (w : World) (A : Actor) :
  actors w !! this = Some A →
  state_ A ≠ RUNNING →
  state_ A ≠ STOPPING →
  receive this message w = print (err_rejected_message (name_ A) (state_ A)) w.
Proof.
  intros HA Hs1 Hs2. unfold receive. rewrite HA. case_decide as Hrej; [done|].
  exfalso. by apply Hrej.
Qed.

Lemma receive_all_accepted (this : addr) (messages : list Message) :
  ∀ w A,
    actors w !! this = Some A →
    state_ A = RUNNING ∨ state_ A = STOPPING →
    actors (receive_all this messages w)
    = <[this := with_message_queue (message_queue_ A ++ messages)%list A]> (actors w)
    ∧ event_loops (receive_all this messages w) = event_loops w
    ∧ output (receive_all this messages w) = output w.
Proof.
  induction messages as [|message messages IH]; intros w A HA Hs; cbn [receive_all].
  - rewrite app_nil_r. split; [|done]. symmetry. apply insert_id.
    rewrite HA. f_equal. by destruct A.
  - rewrite (receive_accepted _ _ _ _ HA Hs).
    destruct (IH (write_actor this
                    (with_message_queue (message_queue_ A ++ [message])%list A) w)
                 (with_message_queue (message_queue_ A ++ [message])%list A))
      as (Hact & Hloops & Hout); [apply lookup_insert_eq|done|].
    rewrite Hact, Hloops, Hout. cbn [write_actor actors event_loops output].
    rewrite insert_insert_eq. cbn [message_queue_ with_message_queue].
    by rewrite <- app_assoc.
Qed.

Lemma receive_all_rejected (this : addr) (messages : list Message) :
  ∀ w A,
    actors w !! this = Some A →
    state_ A ≠ RUNNING →
    state_ A ≠ STOPPING →
    actors (receive_all this messages w) = actors w
    ∧ event_loops (receive_all this messages w) = event_loops w
    ∧ output (receive_all this messages w)
      = (output w
         ++ ((λ _, err_rejected_message (name_ A) (state_ A)) <$> messages))%list.
Proof.
  induction messages as [|message messages IH]; intros w A HA Hs1 Hs2;
    cbn [receive_all].
  - by rewrite app_nil_r.
  - rewrite (receive_rejected _ _ _ _ HA Hs1 Hs2).
    destruct (IH (print (err_rejected_message (name_ A) (state_ A)) w) A)
      as (Hact & Hloops & Hout); [done|done|done|].
    rewrite Hact, Hloops, Hout. cbn [print actors event_loops output fmap list_fmap].
    by rewrite <- app_assoc.
Qed.

(** X3.  Messages passed to [receive] one after the other are queued
    behind the messages already waiting, in the order of the calls, when
    the actor is [RUNNING] or [STOPPING]; nothing else in the store
    changes.  In any other state every one of them is dropped: no object
    changes and one diagnostic is printed per message. *)
Theorem receive_all_spec (this : addr) (messages : list Message) (w : World) (A : Actor) :
  actors w !! this = Some A →
  (state_ A = RUNNING ∨ state_ A = STOPPING →
     mailbox this (receive_all this messages w)
     = Some (message_queue_ A ++ messages)%list
     ∧ get_state this (receive_all this messages w) = Some (state_ A)
     ∧ actors (receive_all this messages w)
       = <[this := with_message_queue (message_queue_ A ++ messages)%list A]> (actors w)
     ∧ event_loops (receive_all this messages w) = event_loops w
     ∧ output (receive_all this messages w) = output w)
  ∧ (state_ A ≠ RUNNING → state_ A ≠ STOPPING →
     actors (receive_all this messages w) = actors w
     ∧ event_loops (receive_all this messages w) = event_loops w
     ∧ output (receive_all this messages w)
       = (output w
          ++ ((λ _, err_rejected_message (name_ A) (state_ A)) <$> messages))%list).
Proof.
  intros HA. split.
  - intros Hs. destruct (receive_all_accepted this messages w A HA Hs)
      as (Hact & Hloops & Hout).
    unfold mailbox, get_state. rewrite Hact, lookup_insert_eq. done.
  - by apply receive_all_rejected.
Qed.

Lemma receive_all_spec_witness :
  actors Examples.w_running !! 0
  = Some (with_state RUNNING (with_state INITIALIZED (Actor_ctor "worker" 0 "id-worker")))
  ∧ mailbox 0 (receive_all 0 [Examples.msg "a" "s" "id-worker" LOW 1%Z;
                              Examples.msg "b" "s" "id-worker" HIGH 2%Z]
                 Examples.w_running)
    = Some [Examples.msg "a" "s" "id-worker" LOW 1%Z;
            Examples.msg "b" "s" "id-worker" HIGH 2%Z]
  ∧ actors Examples.w_created !! 0 = Some (Actor_ctor "worker" 0 "id-worker")
  ∧ output (receive_all 0 [Examples.msg "a" "s" "id-worker" LOW 1%Z;
                           Examples.msg "b" "s" "id-worker" HIGH 2%Z]
              Examples.w_created)
    = [err_rejected_message "worker" CREATED; err_rejected_message "worker" CREATED].
Proof.
  assert (HA : actors Examples.w_running !! 0
               = Some (with_state RUNNING
                         (with_state INITIALIZED (Actor_ctor "worker" 0 "id-worker"))))
    by reflexivity.
  assert (HA' : actors Examples.w_created !! 0 = Some (Actor_ctor "worker" 0 "id-worker"))
    by reflexivity.
  split; [exact HA|].
  destruct (receive_all_spec 0 [Examples.msg "a" "s" "id-worker" LOW 1%Z;
                                Examples.msg "b" "s" "id-worker" HIGH 2%Z] _ _ HA)
    as [Hacc _].
  destruct (receive_all_spec 0 [Examples.msg "a" "s" "id-worker" LOW 1%Z;
                                Examples.msg "b" "s" "id-worker" HIGH 2%Z] _ _ HA')
    as [_ Hrej].
  destruct Hacc as (Hbox & _); [left; reflexivity|].
  destruct Hrej as (_ & _ & Hout); [discriminate|discriminate|].
  split; [exact Hbox|]. split; [exact HA'|exact Hout].
Defined.

Section Fifo.
Variable invoke : MessageHandler -> Message -> World -> completion unit World.
Variable this : addr.
Hypothesis spare : handlers_spare invoke this.

Lemma process_next_message_running (w : World) (q : list Message) :
  get_state this w = Some RUNNING →
  mailbox this w = Some q →
  (q = [] → process_next_message invoke this w = Done false w)
  ∧ (q ≠ [] → value_of (process_next_message invoke this w) ≠ Some false)
  ∧ (handlers_return invoke →
       value_of (process_next_message invoke this w) = Some (bool_decide (q ≠ [])))
  ∧ get_state this (state_after (process_next_message invoke this w)) = Some RUNNING
  ∧ mailbox this (state_after (process_next_message invoke this w)) = Some (drop 1 q).
Proof.
  intros Hst Hbox. pose proof Hst as Hst0. pose proof Hbox as Hbox0.
  unfold get_state, mailbox in Hst0, Hbox0.
  destruct (actors w !! this) as [A|] eqn:HA; [|discriminate].
  injection Hst0 as Hs. injection Hbox0 as Hq.
  assert (Hs' : state_ A ≠ STOPPED) by congruence.
  destruct q as [|message rest].
  - rewrite (process_next_message_empty _ _ _ _ HA Hs' Hq).
    rewrite decide_False by congruence. done.
  - assert (Hd : get_state this (state_after (dispatched invoke this A message rest w))
                 = Some (state_ A)
                 ∧ mailbox this (state_after (dispatched invoke this A message rest w))
                   = Some rest).
    { destruct (handlers_ A !! get_type message) as [handler|] eqn:Hh.
      - rewrite (dispatched_handled _ _ _ _ _ _ _ Hh).
        destruct (spare handler message
                    (write_actor this (with_message_queue rest A) w)) as [-> ->].
        unfold get_state, mailbox, write_actor; cbn [actors].
        by rewrite lookup_insert_eq.
      - destruct (dispatched_unhandled invoke this A message rest w Hh)
          as (w1 & -> & _ & Hst1 & Hbox1). done. }
    destruct Hd as [Hd1 Hd2].
    destruct (process_next_message_pop_spared invoke _ _ _ _ _ HA Hs' Hq Hd1 Hd2)
      as [Hst' Hbox'].
    rewrite Hbox', Hst'.
    rewrite (process_next_message_pop_value _ _ _ _ _ _ HA Hs' Hq).
    split; [done|].
    split; [by destruct (value_of (dispatched invoke this A message rest w))|].
    split.
    + intros Hret.
      assert (Hdone : ∃ w1, dispatched invoke this A message rest w = Done tt w1).
      { unfold dispatched. destruct (handlers_ A !! get_type message); [|eauto].
        apply Hret. }
      destruct Hdone as [w1 ->]. done.
    + split; [|done]. f_equal.
      destruct (value_of (dispatched invoke this A message rest w)); [|done].
      rewrite decide_False; [done|]. rewrite Hs. by intros [? _].
Qed.

Lemma process_next_message_running_times (k : nat) :
  ∀ w q,
    get_state this w = Some RUNNING →
    mailbox this w = Some q →
    get_state this (run_ops invoke this (replicate k op_process_next_message) w)
    = Some RUNNING
    ∧ mailbox this (run_ops invoke this (replicate k op_process_next_message) w)
      = Some (drop k q).
Proof.
  induction k as [|k IH]; intros w q Hst Hbox; cbn [replicate run_ops run_op].
  - by rewrite drop_0.
  - destruct (process_next_message_running w q Hst Hbox) as (_ & _ & _ & Hst' & Hbox').
    destruct (IH _ _ Hst' Hbox') as [Hst'' Hbox''].
    rewrite Hst'', Hbox'', drop_drop. done.
Qed.
End Fifo.

(** X4.  A [RUNNING] actor whose handlers leave its state and mailbox
    alone consumes its mailbox from the front: after [k] calls of
    [process_next_message], each of which has returned or thrown, the
    mailbox is the original one without its first [k] messages and the
    actor is still [RUNNING].  The next call returns false, and changes
    nothing, when no message is left; when a message is left it does not
    return false: it returns true, or the exception of the handler leaves
    it.  With handlers that return, it returns true exactly when a message
    is left.  So the messages an idle actor receives are consumed in the
    order of arrival. *)
Theorem process_next_message_fifo
    (invoke : MessageHandler -> Message -> World -> completion unit World)
    (this : addr) (w : World) (A : Actor) (k : nat) :
  handlers_spare invoke this →
  actors w !! this = Some A →
  state_ A = RUNNING →
  get_state this (run_ops invoke this (replicate k op_process_next_message) w)
  = Some RUNNING
  ∧ mailbox this (run_ops invoke this (replicate k op_process_next_message) w)
    = Some (drop k (message_queue_ A))
  ∧ ((length (message_queue_ A) ≤ k)%nat →
       process_next_message invoke this
         (run_ops invoke this (replicate k op_process_next_message) w)
       = Done false (run_ops invoke this (replicate k op_process_next_message) w))
  ∧ ((k < length (message_queue_ A))%nat →
       value_of (process_next_message invoke this
                   (run_ops invoke this (replicate k op_process_next_message) w))
       ≠ Some false)
  ∧ (handlers_return invoke →
       value_of (process_next_message invoke this
                   (run_ops invoke this (replicate k op_process_next_message) w))
       = Some (bool_decide (k < length (message_queue_ A))%nat))
  ∧ (∀ messages,
       message_queue_ A = [] →
       mailbox this (run_ops invoke this (replicate k op_process_next_message)
                       (receive_all this messages w))
       = Some (drop k messages)).
Proof.
  intros spare HA Hs.
  assert (Hst : get_state this w = Some RUNNING)
    by (by rewrite (get_state_live _ _ _ HA), Hs).
  pose proof (mailbox_live _ _ _ HA) as Hbox.
  destruct (process_next_message_running_times invoke this spare k w _ Hst Hbox)
    as [Hst' Hbox'].
  split; [done|]. split; [done|].
  destruct (process_next_message_running invoke this spare _ _ Hst' Hbox')
    as (Hnone & Hsome & Hret & _).
  assert (Hleft : drop k (message_queue_ A) ≠ [] ↔ (k < length (message_queue_ A))%nat).
  { rewrite <- (length_zero_iff_nil (drop k (message_queue_ A))), length_drop. lia. }
  split; [|split; [|split]].
  - intros Hk. apply Hnone.
    apply length_zero_iff_nil. rewrite length_drop. lia.
  - intros Hk. by apply Hsome, Hleft.
  - intros Hreturn. rewrite (Hret Hreturn). f_equal. by apply bool_decide_ext.
  - intros messages Hq.
    destruct (receive_all_accepted this messages w A HA (or_introl Hs))
      as (Hact & _).
    apply (process_next_message_running_times invoke this spare k).
    + unfold get_state. rewrite Hact, lookup_insert_eq. simpl. by rewrite Hs.
    + unfold mailbox. rewrite Hact, lookup_insert_eq. simpl. by rewrite Hq.
Qed.

Lemma process_next_message_fifo_witness :
  handlers_spare Examples.pong_handler 0
  ∧ actors Examples.w_two_messages !! 0
    = Some (with_message_queue
              [Examples.msg "ping" "id-other" "id-worker" NORMAL 5%Z;
               Examples.msg "pong" "id-other" "id-worker" HIGH 6%Z]
              (with_handlers {[ "ping" := 7 ]}
                 (with_state RUNNING
                    (with_state INITIALIZED (Actor_ctor "worker" 0 "id-worker")))))
  ∧ value_of (process_next_message Examples.pong_handler 0 Examples.w_two_messages)
    = None
  ∧ mailbox 0 (run_ops Examples.pong_handler 0
                 (replicate 1 op_process_next_message) Examples.w_two_messages)
    = Some [Examples.msg "pong" "id-other" "id-worker" HIGH 6%Z]
  ∧ process_next_message Examples.pong_handler 0
      (run_ops Examples.pong_handler 0
         (replicate 2 op_process_next_message) Examples.w_two_messages)
    = Done false
        (run_ops Examples.pong_handler 0
           (replicate 2 op_process_next_message) Examples.w_two_messages).
Proof.
  assert (Hspare : handlers_spare Examples.pong_handler 0).
  { intros handler message w. unfold Examples.pong_handler.
    by destruct (get_payload_value _ _ _). }
  assert (HA : actors Examples.w_two_messages !! 0
               = Some (with_message_queue
                         [Examples.msg "ping" "id-other" "id-worker" NORMAL 5%Z;
                          Examples.msg "pong" "id-other" "id-worker" HIGH 6%Z]
                         (with_handlers {[ "ping" := 7 ]}
                            (with_state RUNNING
                               (with_state INITIALIZED
                                  (Actor_ctor "worker" 0 "id-worker"))))))
    by reflexivity.
  split; [exact Hspare|]. split; [exact HA|]. split; [reflexivity|].
  destruct (process_next_message_fifo Examples.pong_handler 0 _ _ 1
              Hspare HA eq_refl) as (_ & Hbox & _).
  split; [exact Hbox|].
  destruct (process_next_message_fifo Examples.pong_handler 0 _ _ 2
              Hspare HA eq_refl) as (_ & _ & Hnone & _).
  apply Hnone. simpl. lia.
Defined.

(** ** [register_handler] *)

Lemma register_handler_live (this : addr) (message_type : string)
    (handler : MessageHandler) (w : World) (A : Actor) :
  actors w !! this = Some A →
  register_handler this message_type handler w
  = write_actor this (with_handlers (<[message_type := handler]> (handlers_ A)) A) w.
Proof. intros HA. unfold register_handler. by rewrite HA. Qed.

(** X5.  [register_handler] overwrites: registering a second handler for
    the same message type gives the store that registering it alone gives,
    and the handlers of the other types stay registered.  The next message
    of that type is then handed to the handler registered last, in the
    store the pop has left: if that handler returns, [process_next_message]
    returns true and leaves the store of the handler, up to the final move
    to [STOPPED]; if it throws, its exception leaves
    [process_next_message] with the store of the handler. *)
Theorem register_handler_last_wins
    (invoke : MessageHandler -> Message -> World -> completion unit World)
    (this : addr) (message_type : string) (first last : MessageHandler)
    (w : World) (A : Actor) :
  actors w !! this = Some A →
  register_handler this message_type last (register_handler this message_type first w)
  = register_handler this message_type last w
  ∧ (∃ A', actors (register_handler this message_type last w) !! this = Some A'
           ∧ handlers_ A' !! message_type = Some last
           ∧ (∀ other, other ≠ message_type → handlers_ A' !! other = handlers_ A !! other)
           ∧ state_ A' = state_ A ∧ message_queue_ A' = message_queue_ A)
  ∧ (∀ message rest,
       state_ A ≠ STOPPED →
       message_queue_ A = message :: rest →
       get_type message = message_type →
       (∀ w',
          invoke last message
            (write_actor this
               (with_message_queue rest
                  (with_handlers (<[message_type := last]> (handlers_ A)) A)) w)
          = Done tt w' →
          (process_next_message invoke this (register_handler this message_type last w)
           = Done true w'
           ∨ process_next_message invoke this (register_handler this message_type last w)
             = Done true (set_state this STOPPED w'))
          ∧ process_next_message invoke this (register_handler this message_type last w)
            = Done true (finalized this w'))
       ∧ (∀ e w',
            invoke last message
              (write_actor this
                 (with_message_queue rest
                    (with_handlers (<[message_type := last]> (handlers_ A)) A)) w)
            = Raised e w' →
            process_next_message invoke this (register_handler this message_type last w)
            = Raised e w')).
Proof.
  intros HA. rewrite (register_handler_live _ _ last _ _ HA).
  split; [|split].
  - rewrite (register_handler_live _ _ first _ _ HA).
    rewrite (register_handler_live _ _ last _
               (with_handlers (<[message_type := first]> (handlers_ A)) A))
      by apply lookup_insert_eq.
    unfold write_actor, with_handlers; cbn. by rewrite !insert_insert_eq.
  - eexists. split; [apply actors_write_actor|]. cbn.
    split; [apply lookup_insert_eq|]. split; [|done].
    intros other Hne. by rewrite lookup_insert_ne.
  - intros message rest Hs Hq Ht.
    set (A1 := with_handlers (<[message_type := last]> (handlers_ A)) A).
    rewrite (process_next_message_pop invoke this (write_actor this A1 w) A1 message rest);
      [|apply actors_write_actor|done|done].
    assert (Hd : dispatched invoke this A1 message rest (write_actor this A1 w)
                 = invoke last message (write_actor this (with_message_queue rest A1) w)).
    { unfold dispatched. cbn [handlers_ A1 with_handlers].
      rewrite Ht, lookup_insert_eq. f_equal.
      unfold write_actor; cbn. by rewrite insert_insert_eq. }
    rewrite Hd. split.
    + intros w' ->. split; [|done].
      unfold finalized. destruct (bool_decide _ && negb _); auto.
    + by intros e w' ->.
Qed.

Lemma register_handler_last_wins_witness :
  actors Examples.w_two_messages !! 0
  = Some (with_message_queue
            [Examples.msg "ping" "id-other" "id-worker" NORMAL 5%Z;
             Examples.msg "pong" "id-other" "id-worker" HIGH 6%Z]
            (with_handlers {[ "ping" := 7 ]}
               (with_state RUNNING
                  (with_state INITIALIZED (Actor_ctor "worker" 0 "id-worker")))))
  ∧ register_handler 0 "ping" 9 (register_handler 0 "ping" 8 Examples.w_two_messages)
    = register_handler 0 "ping" 9 Examples.w_two_messages
  ∧ process_next_message Examples.pong_handler 0
      (register_handler 0 "ping" 9 Examples.w_two_messages)
    = Raised (runtime_error "Key not found in payload: count")
        (write_actor 0
           (with_message_queue [Examples.msg "pong" "id-other" "id-worker" HIGH 6%Z]
              (with_handlers {[ "ping" := 9 ]}
                 (with_state RUNNING
                    (with_state INITIALIZED (Actor_ctor "worker" 0 "id-worker")))))
           Examples.w_two_messages).
Proof.
  assert (HA : actors Examples.w_two_messages !! 0
               = Some (with_message_queue
                         [Examples.msg "ping" "id-other" "id-worker" NORMAL 5%Z;
                          Examples.msg "pong" "id-other" "id-worker" HIGH 6%Z]
                         (with_handlers {[ "ping" := 7 ]}
                            (with_state RUNNING
                               (with_state INITIALIZED
                                  (Actor_ctor "worker" 0 "id-worker"))))))
    by reflexivity.
  split; [exact HA|].
  destruct (register_handler_last_wins Examples.pong_handler 0 "ping" 8 9 _ _ HA)
    as (Hlast & _ & Hcall).
  split; [exact Hlast|].
  destruct (Hcall (Examples.msg "ping" "id-other" "id-worker" NORMAL 5%Z)
              [Examples.msg "pong" "id-other" "id-worker" HIGH 6%Z])
    as [_ Hthrow]; [discriminate|reflexivity|reflexivity|].
  rewrite (Hthrow (runtime_error "Key not found in payload: count") _ eq_refl).
  reflexivity.
Defined.

(** ** What no member function changes *)

Lemma same_identities_refl (w : World) : same_identities w w.
Proof. intros a A HA. eauto. Qed.

Lemma same_identities_trans (w1 w2 w3 : World) :
  same_identities w1 w2 → same_identities w2 w3 → same_identities w1 w3.
Proof.
  intros H12 H23 a A HA.
  destruct (H12 a A HA) as (A2 & HA2 & Hid & Hname & Hloop).
  destruct (H23 a A2 HA2) as (A3 & HA3 & Hid' & Hname' & Hloop').
  exists A3. repeat split; congruence.
Qed.

Lemma same_identities_actors (w w' : World) :
  actors w' = actors w → same_identities w w'.
Proof. intros Heq a A HA. rewrite Heq. eauto. Qed.

Lemma same_identities_write (this : addr) (A A' : Actor) (w : World) :
  actors w !! this = Some A →
  id_ A' = id_ A → name_ A' = name_ A → event_loop_ A' = event_loop_ A →
  same_identities w (write_actor this A' w).
Proof.
  intros HA Hid Hname Hloop a B HB. cbn [write_actor actors].
  destruct (decide (this = a)) as [->|Hne].
  - rewrite lookup_insert_eq. exists A'. rewrite HA in HB. injection HB as <-. done.
  - rewrite lookup_insert_ne by done. eauto.
Qed.

Lemma set_state_frame (this : addr) (new_state : State) (w : World) :
  same_identities w (set_state this new_state w)
  ∧ event_loops (set_state this new_state w) = event_loops w.
Proof.
  unfold set_state. destruct (actors w !! this) as [A|] eqn:HA.
  - split; [|done]. apply (same_identities_write this A); done.
  - split; [apply same_identities_refl|done].
Qed.

Lemma initialize_frame (this : addr) (w : World) :
  same_identities w (initialize this w) ∧ event_loops (initialize this w) = event_loops w.
Proof.
  unfold initialize. destruct (actors w !! this) as [A|];
    [|split; [apply same_identities_refl|done]].
  case_decide; [split; [by apply same_identities_actors|done]|apply set_state_frame].
Qed.

Lemma start_frame (this : addr) (w : World) :
  same_identities w (start this w) ∧ event_loops (start this w) = event_loops w.
Proof.
  unfold start. destruct (actors w !! this) as [A|];
    [|split; [apply same_identities_refl|done]].
  case_decide; [split; [by apply same_identities_actors|done]|apply set_state_frame].
Qed.

Lemma stop_frame (this : addr) (w : World) :
  same_identities w (stop this w) ∧ event_loops (stop this w) = event_loops w.
Proof.
  unfold stop. destruct (actors w !! this) as [A|];
    [|split; [apply same_identities_refl|done]].
  case_decide; [split; [apply same_identities_refl|done]|].
  destruct (set_state_frame this STOPPING w) as [Hid Hloops].
  destruct (negb _); [|done].
  destruct (set_state_frame this STOPPED (set_state this STOPPING w)) as [Hid' Hloops'].
  split; [by eapply same_identities_trans|congruence].
Qed.

Lemma stop_immediately_frame (this : addr) (w : World) :
  same_identities w (stop_immediately this w)
  ∧ event_loops (stop_immediately this w) = event_loops w.
Proof.
  unfold stop_immediately. destruct (actors w !! this) as [A|] eqn:HA;
    [|split; [apply same_identities_refl|done]].
  destruct (set_state_frame this STOPPED
              (write_actor this (with_message_queue [] A) w)) as [Hid Hloops].
  split; [|by rewrite Hloops].
  eapply same_identities_trans; [|exact Hid].
  by apply (same_identities_write this A).
Qed.

Lemma receive_frame (this : addr) (message : Message) (w : World) :
  same_identities w (receive this message w)
  ∧ event_loops (receive this message w) = event_loops w.
Proof.
  unfold receive. destruct (actors w !! this) as [A|] eqn:HA;
    [|split; [apply same_identities_refl|done]].
  case_decide; [split; [by apply same_identities_actors|done]|].
  split; [|done]. by apply (same_identities_write this A).
Qed.

Lemma register_handler_frame (this : addr) (message_type : string)
    (handler : MessageHandler) (w : World) :
  same_identities w (register_handler this message_type handler w)
  ∧ event_loops (register_handler this message_type handler w) = event_loops w.
Proof.
  unfold register_handler. destruct (actors w !! this) as [A|] eqn:HA;
    [|split; [apply same_identities_refl|done]].
  split; [|done]. by apply (same_identities_write this A).
Qed.

Lemma deliver_message_frame (loop : addr) (message : Message) (w : World) :
  same_identities w (deliver_message loop message w)
  ∧ event_loops (deliver_message loop message w) = event_loops w.
Proof.
  unfold deliver_message.
  destruct (find_actor loop (get_target_id message) w) as [target|];
    [|split; [by apply same_identities_actors|done]].
  destruct (is_running target w);
    [apply receive_frame|split; [by apply same_identities_actors|done]].
Qed.

Lemma send_frame (this : addr) (target_actor_id : string) (message : Message)
    (now1 now2 : time_point) (w : World) :
  same_identities w (send this target_actor_id message now1 now2 w)
  ∧ event_loops (send this target_actor_id message now1 now2 w) = event_loops w.
Proof.
  unfold send. destruct (actors w !! this) as [A|];
    [|split; [apply same_identities_refl|done]].
  destruct (event_loops w !! event_loop_ A);
    [apply deliver_message_frame|split; [by apply same_identities_actors|done]].
Qed.

Lemma register_actor_identities (loop actor : addr) (w : World) :
  same_identities w (register_actor loop actor w).
Proof.
  unfold register_actor.
  destruct (event_loops w !! loop) as [E|]; [|apply same_identities_refl].
  destruct (actors w !! actor) as [A|]; [|apply same_identities_refl].
  set (w1 := print _ (write_event_loop _ _ _)).
  assert (H1 : same_identities w w1) by (by apply same_identities_actors).
  destruct (running_ E); [|done].
  case_decide.
  - eapply same_identities_trans; [exact H1|].
    eapply same_identities_trans; [apply initialize_frame|apply start_frame].
  - case_decide; [|done].
    eapply same_identities_trans; [exact H1|apply start_frame].
Qed.

Lemma remove_actor_identities (loop : addr) (actor_id : string) (w : World) :
  same_identities w (remove_actor loop actor_id w).
Proof.
  unfold remove_actor.
  destruct (event_loops w !! loop) as [E|]; [|apply same_identities_refl].
  destruct (actors_ E !! actor_id) as [actor|]; [|apply same_identities_refl].
  set (w1 := if is_running actor w then stop_immediately actor w else w).
  assert (H1 : same_identities w w1).
  { unfold w1. destruct (is_running actor w);
      [apply stop_immediately_frame|apply same_identities_refl]. }
  eapply same_identities_trans; [exact H1|].
  destruct (actors (write_event_loop _ _ w1) !! actor);
    by apply same_identities_actors.
Qed.

Lemma same_identities_kept (w w' : World) :
  same_identities w w' → kept_identities w w'.
Proof.
  intros Hsame a A A' HA HA'. destruct (Hsame a A HA) as (A2 & HA2 & Hids).
  rewrite HA' in HA2. by injection HA2 as <-.
Qed.

(** X6.  No member function of [Actor] and no registry operation of
    [EventLoop] changes the id, the name or the loop reference of an
    actor.  The member functions of [Actor], [deliver_message] and [send]
    release no owning pointer: every actor is still there after the call,
    and every event loop (registry and run flag) is as it was.
    [register_actor] and [remove_actor] can release the owning pointer of
    a registry entry, so for them the statement speaks of the actors that
    are still there after the call. *)
Theorem identities_preserved (w : World) :
  (∀ this, same_identities w (initialize this w)
           ∧ event_loops (initialize this w) = event_loops w)
  ∧ (∀ this, same_identities w (start this w)
             ∧ event_loops (start this w) = event_loops w)
  ∧ (∀ this, same_identities w (stop this w)
             ∧ event_loops (stop this w) = event_loops w)
  ∧ (∀ this, same_identities w (stop_immediately this w)
             ∧ event_loops (stop_immediately this w) = event_loops w)
  ∧ (∀ this message, same_identities w (receive this message w)
                     ∧ event_loops (receive this message w) = event_loops w)
  ∧ (∀ this message_type handler,
       same_identities w (register_handler this message_type handler w)
       ∧ event_loops (register_handler this message_type handler w) = event_loops w)
  ∧ (∀ loop message, same_identities w (deliver_message loop message w)
                     ∧ event_loops (deliver_message loop message w) = event_loops w)
  ∧ (∀ this target_actor_id message now1 now2,
       same_identities w (send this target_actor_id message now1 now2 w)
       ∧ event_loops (send this target_actor_id message now1 now2 w) = event_loops w)
  ∧ (∀ loop actor, kept_identities w (register_actor loop actor w))
  ∧ (∀ loop actor_id, kept_identities w (remove_actor loop actor_id w)).
Proof.
  split; [intros; apply initialize_frame|].
  split; [intros; apply start_frame|].
  split; [intros; apply stop_frame|].
  split; [intros; apply stop_immediately_frame|].
  split; [intros; apply receive_frame|].
  split; [intros; apply register_handler_frame|].
  split; [intros; apply deliver_message_frame|].
  split; [intros; apply send_frame|].
  split; [intros; apply same_identities_kept, register_actor_identities|].
  intros; apply same_identities_kept, remove_actor_identities.
Qed.

(** ** The registry *)

Lemma register_actor_event_loops (loop actor : addr) (w : World) (E : EventLoop) (A : Actor) :
  event_loops w !! loop = Some E →
  actors w !! actor = Some A →
  event_loops (register_actor loop actor w)
  = <[loop := {| actors_ := <[id_ A := actor]> (actors_ E); running_ := running_ E |}]>
      (event_loops w).
Proof.
  intros HE HA. unfold register_actor. rewrite HE, HA.
  destruct (running_ E); [|done].
  case_decide.
  - destruct (initialize_frame actor
                (print (out_registered_actor (name_ A) (id_ A))
                   (write_event_loop loop
                      {| actors_ := <[id_ A := actor]> (actors_ E); running_ := true |} w)))
      as [_ Hi].
    destruct (start_frame actor
                (initialize actor
                   (print (out_registered_actor (name_ A) (id_ A))
                      (write_event_loop loop
                         {| actors_ := <[id_ A := actor]> (actors_ E); running_ := true |}
                         w)))) as [_ Hs].
    by rewrite Hs, Hi.
  - case_decide; [|done].
    destruct (start_frame actor
                (print (out_registered_actor (name_ A) (id_ A))
                   (write_event_loop loop
                      {| actors_ := <[id_ A := actor]> (actors_ E); running_ := true |} w)))
      as [_ Hs].
    by rewrite Hs.
Qed.

Lemma register_actor_actors (loop actor : addr) (w : World) (E : EventLoop) (A : Actor) :
  event_loops w !! loop = Some E →
  actors w !! actor = Some A →
  actors (register_actor loop actor w)
  = if running_ E && bool_decide (state_ A = CREATED ∨ state_ A = INITIALIZED)
    then <[actor := with_state RUNNING A]> (actors w)
    else actors w.
Proof.
  intros HE HA. unfold register_actor. rewrite HE, HA.
  destruct (running_ E); [|done]. cbn [andb].
  set (w1 := print _ (write_event_loop _ _ _)).
  assert (HA1 : actors w1 !! actor = Some A) by done.
  rewrite (get_state_live _ _ _ HA1).
  destruct (decide (state_ A = CREATED)) as [Hc|Hc].
  - rewrite decide_True by congruence.
    rewrite bool_decide_eq_true_2 by auto.
    rewrite (initialize_created _ _ _ HA1 Hc).
    rewrite (start_initialized _ _ (with_state INITIALIZED A));
      [|apply lookup_insert_eq|done].
    cbn [print write_actor actors]. by rewrite insert_insert_eq.
  - rewrite decide_False by congruence.
    destruct (decide (state_ A = INITIALIZED)) as [Hi|Hi].
    + rewrite decide_True by congruence.
      rewrite bool_decide_eq_true_2 by auto.
      by rewrite (start_initialized _ _ _ HA1 Hi).
    + rewrite decide_False by congruence.
      rewrite bool_decide_eq_false_2 by tauto. done.
Qed.

(** X7.  [register_actor] enters the actor in the registry under the
    actor's own id, replacing any entry with that id and leaving the other
    entries alone, so that [find_actor] on that id returns the actor.  On a
    loop that is not running the actor itself is not touched; on a running
    loop an actor that is [CREATED] or [INITIALIZED] is brought to
    [RUNNING], and an actor in any other state is not touched.  The mailbox
    is never changed. *)
Theorem register_actor_spec (loop actor : addr) (w : World) (E : EventLoop) (A : Actor) :
  event_loops w !! loop = Some E →
  actors w !! actor = Some A →
  find_actor loop (id_ A) (register_actor loop actor w) = Some actor
  ∧ (∀ other, other ≠ id_ A →
       find_actor loop other (register_actor loop actor w) = find_actor loop other w)
  ∧ (running_ E = false → actors (register_actor loop actor w) = actors w)
  ∧ (running_ E = true → state_ A = CREATED ∨ state_ A = INITIALIZED →
       actors (register_actor loop actor w) = <[actor := with_state RUNNING A]> (actors w)
       ∧ get_state actor (register_actor loop actor w) = Some RUNNING)
  ∧ (state_ A ≠ CREATED → state_ A ≠ INITIALIZED →
       actors (register_actor loop actor w) = actors w)
  ∧ mailbox actor (register_actor loop actor w) = Some (message_queue_ A).
Proof.
  intros HE HA.
  pose proof (register_actor_event_loops _ _ _ _ _ HE HA) as Hloops.
  pose proof (register_actor_actors _ _ _ _ _ HE HA) as Hact.
  split; [|split; [|split; [|split; [|split]]]].
  - unfold find_actor. rewrite Hloops, lookup_insert_eq. cbn. apply lookup_insert_eq.
  - intros other Hne. unfold find_actor.
    rewrite Hloops, lookup_insert_eq, HE. cbn. by rewrite lookup_insert_ne.
  - intros Hr. by rewrite Hact, Hr.
  - intros Hr Hs. rewrite Hr, bool_decide_eq_true_2 in Hact by done. cbn in Hact.
    split; [done|]. unfold get_state. by rewrite Hact, lookup_insert_eq.
  - intros Hc Hi. rewrite bool_decide_eq_false_2, andb_false_r in Hact by tauto. done.
  - unfold mailbox. rewrite Hact.
    destruct (running_ E && bool_decide _).
    + by rewrite lookup_insert_eq.
    + by rewrite HA.
Qed.

Lemma register_actor_spec_witness :
  event_loops Examples.w_created !! 0 = Some {| actors_ := ∅; running_ := false |}
  ∧ actors Examples.w_created !! 0 = Some (Actor_ctor "worker" 0 "id-worker")
  ∧ find_actor 0 "id-worker" (register_actor 0 0 Examples.w_created) = Some 0
  ∧ actors (register_actor 0 0 Examples.w_created) = actors Examples.w_created.
Proof.
  assert (HE : event_loops Examples.w_created !! 0
               = Some {| actors_ := ∅; running_ := false |}) by reflexivity.
  assert (HA : actors Examples.w_created !! 0 = Some (Actor_ctor "worker" 0 "id-worker"))
    by reflexivity.
  split; [exact HE|]. split; [exact HA|].
  destruct (register_actor_spec 0 0 _ _ _ HE HA) as (Hfind & _ & Hidle & _).
  split; [exact Hfind|exact (Hidle eq_refl)].
Defined.

Lemma registry_consistent_frame (w w' : World) :
  same_identities w w' →
  event_loops w' = event_loops w →
  registry_consistent w →
  registry_consistent w'.
Proof.
  intros Hid Hloops Hrc loop E actor_id actor HE Hreg. rewrite Hloops in HE.
  destruct (Hrc _ _ _ _ HE Hreg) as (A & HA & Hkey).
  destruct (Hid _ _ HA) as (A' & HA' & Hid' & _).
  exists A'. split; [done|congruence].
Qed.

Lemma remove_actor_event_loops (loop : addr) (actor_id : string) (w : World)
    (E : EventLoop) (actor : addr) :
  event_loops w !! loop = Some E →
  actors_ E !! actor_id = Some actor →
  event_loops (remove_actor loop actor_id w)
  = <[loop := {| actors_ := delete actor_id (actors_ E); running_ := running_ E |}]>
      (event_loops w).
Proof.
  intros HE Hreg. unfold remove_actor. rewrite HE, Hreg.
  set (w1 := if is_running actor w then stop_immediately actor w else w).
  assert (H1 : event_loops w1 = event_loops w).
  { unfold w1. destruct (is_running actor w); [apply stop_immediately_frame|done]. }
  destruct (actors (write_event_loop _ _ w1) !! actor);
    cbn [print write_event_loop event_loops]; by rewrite H1.
Qed.

(** X8.  The registries stay consistent: if every registry entry leads to
    a live actor whose id is the key of the entry, this is still so after
    any member function of [Actor], after [deliver_message] and [send], and
    after [register_actor] and [remove_actor].  A message is therefore
    only ever delivered to an actor whose id is the target id of the
    message. *)
Theorem registry_consistent_preserved (w : World) :
  registry_consistent w →
  (∀ this, registry_consistent (initialize this w))
  ∧ (∀ this, registry_consistent (start this w))
  ∧ (∀ this, registry_consistent (stop this w))
  ∧ (∀ this, registry_consistent (stop_immediately this w))
  ∧ (∀ this message, registry_consistent (receive this message w))
  ∧ (∀ this message_type handler,
       registry_consistent (register_handler this message_type handler w))
  ∧ (∀ loop message, registry_consistent (deliver_message loop message w))
  ∧ (∀ this target_actor_id message now1 now2,
       registry_consistent (send this target_actor_id message now1 now2 w))
  ∧ (∀ loop actor, registry_consistent (register_actor loop actor w))
  ∧ (∀ loop actor_id, registry_consistent (remove_actor loop actor_id w))
  ∧ (∀ loop E message target A,
       event_loops w !! loop = Some E →
       actors_ E !! get_target_id message = Some target →
       actors w !! target = Some A →
       state_ A = RUNNING →
       mailbox target (deliver_message loop message w)
       = Some (message_queue_ A ++ [message])%list
       ∧ id_ A = get_target_id message).
Proof.
  intros Hrc.
  split; [intros; by eapply registry_consistent_frame; [apply initialize_frame..|]|].
  split; [intros; by eapply registry_consistent_frame; [apply start_frame..|]|].
  split; [intros; by eapply registry_consistent_frame; [apply stop_frame..|]|].
  split; [intros; by eapply registry_consistent_frame; [apply stop_immediately_frame..|]|].
  split; [intros; by eapply registry_consistent_frame; [apply receive_frame..|]|].
  split; [intros; by eapply registry_consistent_frame; [apply register_handler_frame..|]|].
  split; [intros; by eapply registry_consistent_frame; [apply deliver_message_frame..|]|].
  split; [intros; by eapply registry_consistent_frame; [apply send_frame..|]|].
  split; [|split].
  - intros loop actor.
    destruct (event_loops w !! loop) as [E|] eqn:HE;
      [|unfold register_actor; by rewrite HE].
    destruct (actors w !! actor) as [A|] eqn:HA;
      [|unfold register_actor; by rewrite HE, HA].
    pose proof (register_actor_identities loop actor w) as Hid.
    intros loop' E' actor_id actor' HE' Hreg.
    rewrite (register_actor_event_loops _ _ _ _ _ HE HA) in HE'.
    assert (Hold : ∀ E0, event_loops w !! loop' = Some E0 →
                     actors_ E0 !! actor_id = Some actor' →
                     ∃ A', actors (register_actor loop actor w) !! actor' = Some A'
                           ∧ id_ A' = actor_id).
    { intros E0 HE0 Hreg0. destruct (Hrc _ _ _ _ HE0 Hreg0) as (A0 & HA0 & Hkey).
      destruct (Hid _ _ HA0) as (A' & HA' & Hid' & _).
      exists A'. split; [done|congruence]. }
    destruct (decide (loop = loop')) as [<-|Hne].
    + rewrite lookup_insert_eq in HE'. injection HE' as <-. cbn in Hreg.
      destruct (decide (id_ A = actor_id)) as [<-|Hne'].
      * rewrite lookup_insert_eq in Hreg. injection Hreg as <-.
        destruct (Hid _ _ HA) as (A' & HA' & Hid' & _). eauto.
      * rewrite lookup_insert_ne in Hreg by done. by eapply Hold.
    + rewrite lookup_insert_ne in HE' by done. by eapply Hold.
  - intros loop actor_id.
    destruct (event_loops w !! loop) as [E|] eqn:HE;
      [|unfold remove_actor; by rewrite HE].
    destruct (actors_ E !! actor_id) as [actor|] eqn:Hreg0;
      [|unfold remove_actor; by rewrite HE, Hreg0].
    pose proof (remove_actor_identities loop actor_id w) as Hid.
    intros loop' E' actor_id' actor' HE' Hreg.
    rewrite (remove_actor_event_loops _ _ _ _ _ HE Hreg0) in HE'.
    assert (Hold : ∀ E0, event_loops w !! loop' = Some E0 →
                     actors_ E0 !! actor_id' = Some actor' →
                     ∃ A', actors (remove_actor loop actor_id w) !! actor' = Some A'
                           ∧ id_ A' = actor_id').
    { intros E0 HE0 Hreg1. destruct (Hrc _ _ _ _ HE0 Hreg1) as (A0 & HA0 & Hkey).
      destruct (Hid _ _ HA0) as (A' & HA' & Hid' & _).
      exists A'. split; [done|congruence]. }
    destruct (decide (loop = loop')) as [<-|Hne].
    + rewrite lookup_insert_eq in HE'. injection HE' as <-. cbn in Hreg.
      apply lookup_delete_Some in Hreg as [_ Hreg]. by eapply Hold.
    + rewrite lookup_insert_ne in HE' by done. by eapply Hold.
  - intros loop E message target A HE Hreg HA Hs.
    destruct (Hrc _ _ _ _ HE Hreg) as (A0 & HA0 & Hkey).
    rewrite HA in HA0. injection HA0 as <-. split; [|done].
    unfold deliver_message. rewrite (find_actor_live _ _ _ _ HE), Hreg.
    rewrite (is_running_live _ _ _ HA), bool_decide_eq_true_2 by done.
    rewrite (receive_running _ _ _ _ HA Hs).
    unfold mailbox, write_actor; cbn [actors]. by rewrite lookup_insert_eq.
Qed.

Lemma registry_consistent_preserved_witness :
  registry_consistent Examples.w_created
  ∧ registry_consistent (register_actor 0 0 Examples.w_created).
Proof.
  assert (Hrc : registry_consistent Examples.w_created).
  { intros loop E actor_id actor HE Hreg.
    unfold Examples.w_created in HE. cbn [event_loops] in HE.
    apply lookup_singleton_Some in HE as [_ <-]. cbn in Hreg.
    by rewrite lookup_empty in Hreg. }
  split; [exact Hrc|].
  destruct (registry_consistent_preserved _ Hrc)
    as (_ & _ & _ & _ & _ & _ & _ & _ & Hreg & _).
  exact (Hreg 0 0).
Defined.

(** ** [std::max_element] and [std::min_element] *)

Section MaxElement.
Context {T : Type}.
Variable key : T -> Z.
Variable comp : T -> T -> bool.

Lemma first_greatest_singleton (x : T) : first_greatest key [x] 0 x.
Proof.
  split; [done|]. split.
  - intros [|j] y Hj; simplify_eq/=. lia.
  - intros j y Hj; lia.
Qed.

Lemma max_element_from_first_greatest (rest : list T) :
  ∀ (seen : list T) (i : nat) (largest : T),
    (∀ a b, a ∈ (seen ++ rest)%list → b ∈ (seen ++ rest)%list →
            comp a b = (key a <? key b)%Z) →
    first_greatest key seen i largest →
    ∃ i', first_greatest key (seen ++ rest)%list i' (max_element_from comp largest rest).
Proof.
  induction rest as [|x rest IH]; intros seen i largest Hcomp Hinv; cbn [max_element_from].
  - exists i. by rewrite app_nil_r.
  - destruct Hinv as (Hi & Hmax & Hfirst).
    assert (Hin : largest ∈ (seen ++ x :: rest)%list).
    { apply elem_of_app. left. by eapply list_elem_of_lookup_2. }
    assert (Hx : x ∈ (seen ++ x :: rest)%list).
    { apply elem_of_app. right. left. }
    rewrite (Hcomp _ _ Hin Hx).
    assert (Hcomp' : ∀ a b, a ∈ ((seen ++ [x]) ++ rest)%list →
                       b ∈ ((seen ++ [x]) ++ rest)%list →
                       comp a b = (key a <? key b)%Z).
    { intros a b. rewrite <- !app_assoc. apply Hcomp. }
    rewrite (assoc_L (++) seen [x] rest : (seen ++ x :: rest = (seen ++ [x]) ++ rest)%list).
    destruct (Z.ltb_spec (key largest) (key x)) as [Hlt|Hge].
    + apply (IH (seen ++ [x])%list (length seen) x Hcomp').
      split; [|split].
      * by rewrite lookup_app_r, Nat.sub_diag by lia.
      * intros j y Hj. apply lookup_app_Some in Hj as [Hj|[_ Hj]].
        -- specialize (Hmax _ _ Hj). lia.
        -- apply list_lookup_singleton_Some in Hj as [_ <-]. lia.
      * intros j y Hlt' Hj. rewrite lookup_app_l in Hj by done.
        specialize (Hmax _ _ Hj). lia.
    + apply (IH (seen ++ [x])%list i largest Hcomp').
      split; [|split].
      * rewrite lookup_app_l; [done|]. by eapply lookup_lt_Some.
      * intros j y Hj. apply lookup_app_Some in Hj as [Hj|[_ Hj]].
        -- by eapply Hmax.
        -- apply list_lookup_singleton_Some in Hj as [_ <-]. lia.
      * intros j y Hlt' Hj. apply (Hfirst j y Hlt').
        rewrite lookup_app_l in Hj; [done|].
        apply lookup_lt_Some in Hi. lia.
Qed.

Lemma max_element_first_greatest (range : list T) :
  range ≠ [] →
  (∀ a b, a ∈ range → b ∈ range → comp a b = (key a <? key b)%Z) →
  ∃ i r, max_element comp range = Some r ∧ first_greatest key range i r.
Proof.
  intros Hne Hcomp. destruct range as [|first rest]; [done|].
  destruct (max_element_from_first_greatest rest [first] 0 first Hcomp
              (first_greatest_singleton first)) as [i Hi].
  exists i, (max_element_from comp first rest). done.
Qed.
End MaxElement.

Lemma min_element_from_flip {T : Type} (comp : T -> T -> bool) (rest : list T) :
  ∀ smallest,
    min_element_from comp smallest rest = max_element_from (flip comp) smallest rest.
Proof. induction rest as [|x rest IH]; intros smallest; cbn; [done|apply IH]. Qed.

(** [std::min_element] with a comparison that is [<] on a key returns the
    first element of smallest key. *)
Lemma min_element_first_smallest {T : Type} (key : T -> Z) (comp : T -> T -> bool)
    (range : list T) :
  range ≠ [] →
  (∀ a b, a ∈ range → b ∈ range → comp a b = (key a <? key b)%Z) →
  ∃ i r, min_element comp range = Some r
         ∧ range !! i = Some r
         ∧ (∀ j x, range !! j = Some x → (key r ≤ key x)%Z)
         ∧ (∀ j x, j < i → range !! j = Some x → (key r < key x)%Z).
Proof.
  intros Hne Hcomp.
  destruct (max_element_first_greatest (λ x, (- key x)%Z) (flip comp) range Hne)
    as (i & r & Hmax & Hi & Hall & Hfirst).
  { intros a b Ha Hb. unfold flip. rewrite (Hcomp _ _ Hb Ha).
    destruct (Z.ltb_spec (key b) (key a)), (Z.ltb_spec (- key a) (- key b)); (done || lia). }
  exists i, r. split; [|split; [done|split]].
  - destruct range as [|first rest]; [done|]. cbn in *.
    by rewrite min_element_from_flip.
  - intros j x Hj. specialize (Hall _ _ Hj). lia.
  - intros j x Hlt Hj. specialize (Hfirst _ _ Hlt Hj). lia.
Qed.

(** ** [PriorityScheduler] *)

(** X9.  [PriorityScheduler::next_actor] returns none on an empty
    candidate vector and otherwise the first candidate of greatest
    priority: no candidate has a greater priority and all candidates before
    it have a smaller one.  With the default priority function, and
    candidates that all have a queued message (the only ones the event loop
    offers), it therefore always returns the first candidate. *)
Theorem priority_scheduler_spec (candidates : list addr) (w : World) (s : PriorityScheduler.t) :
  PriorityScheduler.next_actor [] w s = None
  ∧ (candidates ≠ [] →
       ∃ i actor,
         PriorityScheduler.next_actor candidates w s = Some actor
         ∧ candidates !! i = Some actor
         ∧ (∀ j x, candidates !! j = Some x →
              (PriorityScheduler.priority_func_ s x w
               ≤ PriorityScheduler.priority_func_ s actor w)%Z)
         ∧ (∀ j x, j < i → candidates !! j = Some x →
              (PriorityScheduler.priority_func_ s x w
               < PriorityScheduler.priority_func_ s actor w)%Z))
  ∧ ((∀ x, x ∈ candidates → has_messages x w = true) →
       PriorityScheduler.next_actor candidates w (PriorityScheduler.ctor None)
       = head candidates).
Proof.
  assert (Hgen : ∀ s', candidates ≠ [] →
            ∃ i actor,
              PriorityScheduler.next_actor candidates w s' = Some actor
              ∧ first_greatest (λ a, PriorityScheduler.priority_func_ s' a w)
                  candidates i actor).
  { intros s' Hne.
    destruct (max_element_first_greatest
                (λ a, PriorityScheduler.priority_func_ s' a w)
                (λ a b, (PriorityScheduler.priority_func_ s' a w
                         <? PriorityScheduler.priority_func_ s' b w)%Z)
                candidates Hne) as (i & r & Hmax & Hfg); [done|].
    exists i, r. split; [|done]. unfold PriorityScheduler.next_actor.
    destruct candidates; done. }
  split; [done|]. split.
  - intros Hne. destruct (Hgen s Hne) as (i & actor & Hnext & Hi & Hall & Hfirst).
    exists i, actor. done.
  - intros Hmsgs. destruct candidates as [|first rest] eqn:Hc; [done|].
    rewrite <- Hc in *.
    destruct (Hgen (PriorityScheduler.ctor None)) as (i & actor & Hnext & Hi & _ & Hfirst);
      [by rewrite Hc|].
    rewrite Hnext, Hc. cbn [head]. f_equal.
    destruct i as [|i]; [rewrite Hc in Hi; by injection Hi|].
    exfalso. specialize (Hfirst 0 first). rewrite Hc in Hfirst.
    specialize (Hfirst ltac:(lia) eq_refl).
    cbn [PriorityScheduler.ctor PriorityScheduler.priority_func_] in Hfirst.
    unfold PriorityScheduler.default_priority in Hfirst.
    rewrite !Hmsgs in Hfirst; [lia|by eapply list_elem_of_lookup_2|rewrite Hc; left].
Qed.

Lemma priority_scheduler_spec_witness :
  [0; 1] ≠ []
  ∧ (∀ x, x ∈ [0] → has_messages x Examples.w_two_messages = true)
  ∧ PriorityScheduler.next_actor [0] Examples.w_two_messages (PriorityScheduler.ctor None)
    = Some 0
  ∧ ∃ i actor,
      PriorityScheduler.next_actor [0; 1] Examples.w_two_messages
        (PriorityScheduler.ctor None) = Some actor
      ∧ [0; 1] !! i = Some actor.
Proof.
  assert (Hne : [0; 1] ≠ []) by discriminate.
  assert (Hmsgs : ∀ x, x ∈ [0] → has_messages x Examples.w_two_messages = true).
  { intros x Hx. apply list_elem_of_singleton in Hx as ->. reflexivity. }
  split; [exact Hne|]. split; [exact Hmsgs|].
  destruct (priority_scheduler_spec [0] Examples.w_two_messages
              (PriorityScheduler.ctor None)) as (_ & _ & Hhead).
  destruct (priority_scheduler_spec [0; 1] Examples.w_two_messages
              (PriorityScheduler.ctor None)) as (_ & Hfirst & _).
  split; [exact (Hhead Hmsgs)|].
  destruct (Hfirst Hne) as (i & actor & Hnext & Hi & _).
  exists i, actor. split; [exact Hnext|exact Hi].
Defined.

(** ** [MessagePriorityScheduler] *)

Lemma peek_priority_clock (actor : addr) (w : World) (now now' : time_point) :
  MessagePriorityScheduler.peek_priority actor w now
  = MessagePriorityScheduler.peek_priority actor w now'.
Proof.
  unfold MessagePriorityScheduler.peek_priority, peek_highest_priority_message.
  destruct (actors w !! actor) as [A|]; [|done].
  by destruct (message_queue_ A).
Qed.

Lemma max_element_from_ext {T : Type} (comp comp' : T -> T -> bool) (rest : list T) :
  (∀ a b, comp a b = comp' a b) →
  ∀ largest, max_element_from comp largest rest = max_element_from comp' largest rest.
Proof.
  intros Hext. induction rest as [|x rest IH]; intros largest; cbn; [done|].
  by rewrite Hext, IH.
Qed.

(** X10.  [MessagePriorityScheduler::next_actor] returns none on an empty
    candidate vector and otherwise the first candidate whose
    highest-priority queued message has the greatest priority among all
    candidates.  The priority a candidate counts with is that of one of
    its queued messages, one that no message of its mailbox exceeds; a
    candidate with an empty mailbox counts with the priority [NORMAL] of
    the sentinel message.  The clock reading used for sentinel messages has
    no influence on the choice. *)
Theorem message_priority_scheduler_spec (candidates : list addr) (w : World)
    (now : time_point) :
  MessagePriorityScheduler.next_actor [] w now = None
  ∧ (candidates ≠ [] →
       ∃ i actor,
         MessagePriorityScheduler.next_actor candidates w now = Some actor
         ∧ candidates !! i = Some actor
         ∧ (∀ j x, candidates !! j = Some x →
              (MessagePriorityScheduler.peek_priority x w now
               ≤ MessagePriorityScheduler.peek_priority actor w now)%Z)
         ∧ (∀ j x, j < i → candidates !! j = Some x →
              (MessagePriorityScheduler.peek_priority x w now
               < MessagePriorityScheduler.peek_priority actor w now)%Z))
  ∧ (∀ now', MessagePriorityScheduler.next_actor candidates w now'
             = MessagePriorityScheduler.next_actor candidates w now)
  ∧ (∀ actor A,
       actors w !! actor = Some A →
       (message_queue_ A = [] →
          MessagePriorityScheduler.peek_priority actor w now = 1%Z)
       ∧ (message_queue_ A ≠ [] →
            ∃ m, m ∈ message_queue_ A
                 ∧ MessagePriorityScheduler.peek_priority actor w now
                   = priority_to_int (get_priority m))
       ∧ (∀ m, m ∈ message_queue_ A →
            (priority_to_int (get_priority m)
             ≤ MessagePriorityScheduler.peek_priority actor w now)%Z)).
Proof.
  split; [done|]. split; [|split].
  - intros Hne.
    destruct (max_element_first_greatest
                (λ a, MessagePriorityScheduler.peek_priority a w now)
                (λ a b, (MessagePriorityScheduler.peek_priority a w now
                         <? MessagePriorityScheduler.peek_priority b w now)%Z)
                candidates Hne) as (i & r & Hmax & Hi & Hall & Hfirst); [done|].
    exists i, r. split; [|done]. unfold MessagePriorityScheduler.next_actor.
    destruct candidates; done.
  - intros now'. unfold MessagePriorityScheduler.next_actor.
    destruct candidates as [|first rest]; [done|]. cbn [max_element]. f_equal.
    apply max_element_from_ext. intros a b.
    by rewrite (peek_priority_clock a w now' now), (peek_priority_clock b w now' now).
  - intros actor A HA. unfold MessagePriorityScheduler.peek_priority. rewrite HA.
    unfold peek_highest_priority_message.
    destruct (message_queue_ A) as [|front rest]; cbn [fst].
    + split; [done|]. split; [done|]. intros m Hm. by apply elem_of_nil in Hm.
    + destruct (peek_scan_first_of_greatest rest [front] 0 front
                  (first_of_greatest_priority_singleton front)) as (i & Hi & Hall & _).
      split; [done|]. split.
      * intros _. exists (peek_scan rest front). split; [|done].
        by eapply list_elem_of_lookup_2.
      * intros m Hm. apply list_elem_of_lookup in Hm as [j Hj]. by eapply Hall.
Qed.

Lemma message_priority_scheduler_spec_witness :
  [0; 1] ≠ []
  ∧ mailbox 0 MoreExamples.w_low_high
    = Some [Examples.msg "job" "id-sender" "id-worker" LOW 5%Z]
  ∧ mailbox 1 MoreExamples.w_low_high
    = Some [Examples.msg "job" "id-sender" "id-other" HIGH 6%Z]
  ∧ MessagePriorityScheduler.peek_priority 0 MoreExamples.w_low_high 0%Z = 0%Z
  ∧ MessagePriorityScheduler.peek_priority 1 MoreExamples.w_low_high 0%Z = 2%Z
  ∧ MessagePriorityScheduler.next_actor [0; 1] MoreExamples.w_low_high 0%Z = Some 1.
Proof.
  assert (Hne : [0; 1] ≠ []) by discriminate.
  split; [exact Hne|]. split; [reflexivity|]. split; [reflexivity|].
  destruct (message_priority_scheduler_spec [0; 1] MoreExamples.w_low_high 0%Z)
    as (_ & Hfirst & _ & Hpeek).
  destruct (Hpeek 0 _ eq_refl) as (_ & Hsome0 & _).
  destruct (Hpeek 1 _ eq_refl) as (_ & Hsome1 & _).
  assert (H0 : MessagePriorityScheduler.peek_priority 0 MoreExamples.w_low_high 0%Z = 0%Z).
  { destruct Hsome0 as (m & Hm & ->); [discriminate|].
    apply list_elem_of_singleton in Hm. rewrite Hm. reflexivity. }
  assert (H1 : MessagePriorityScheduler.peek_priority 1 MoreExamples.w_low_high 0%Z = 2%Z).
  { destruct Hsome1 as (m & Hm & ->); [discriminate|].
    apply list_elem_of_singleton in Hm. rewrite Hm. reflexivity. }
  split; [exact H0|]. split; [exact H1|].
  destruct (Hfirst Hne) as (i & actor & Hnext & Hi & Hall & _).
  rewrite Hnext. f_equal.
  destruct i as [|[|i]]; [|by injection Hi|discriminate].
  injection Hi as <-. specialize (Hall 1 1 eq_refl).
  rewrite H0, H1 in Hall. lia.
Defined.

(** ** [FairScheduler] *)

Lemma int64_small (z : Z) :
  (- 2 ^ 63 ≤ z < 2 ^ 63)%Z → FairScheduler.int64 z = z.
Proof.
  intros Hz. unfold FairScheduler.int64. rewrite Z.mod_small; lia.
Qed.

Lemma first_starved_Some (candidates : list addr) (w : World) (now : time_point)
    (s : FairScheduler.t) (actor : addr) :
  FairScheduler.first_starved candidates w now s = Some actor →
  ∃ i, candidates !! i = Some actor
       ∧ FairScheduler.starved actor w now s = true
       ∧ (∀ j x, j < i → candidates !! j = Some x →
            FairScheduler.starved x w now s = false).
Proof.
  induction candidates as [|c candidates IH]; cbn [FairScheduler.first_starved];
    [discriminate|].
  destruct (FairScheduler.starved c w now s) eqn:Hc.
  - intros [= <-]. exists 0. split; [done|]. split; [done|]. intros j x Hj; lia.
  - intros Hrest. destruct (IH Hrest) as (i & Hi & Hst & Hbefore).
    exists (S i). split; [done|]. split; [done|].
    intros [|j] x Hj Hx; [by injection Hx as <-|].
    apply (Hbefore j); [lia|done].
Qed.

Lemma first_starved_None (candidates : list addr) (w : World) (now : time_point)
    (s : FairScheduler.t) :
  FairScheduler.first_starved candidates w now s = None →
  ∀ x, x ∈ candidates → FairScheduler.starved x w now s = false.
Proof.
  induction candidates as [|c candidates IH]; cbn [FairScheduler.first_starved];
    intros Hnone x Hx; [by apply elem_of_nil in Hx|].
  destruct (FairScheduler.starved c w now s) eqn:Hc; [discriminate|].
  apply elem_of_cons in Hx as [->|Hx]; [done|by apply IH].
Qed.

(** The first loop returns the first candidate that passes its test. *)
Lemma first_starved_at (candidates : list addr) (w : World) (now : time_point)
    (s : FairScheduler.t) :
  ∀ i x,
    candidates !! i = Some x →
    FairScheduler.starved x w now s = true →
    (∀ j y, j < i → candidates !! j = Some y →
       FairScheduler.starved y w now s = false) →
    FairScheduler.first_starved candidates w now s = Some x.
Proof.
  induction candidates as [|c candidates IH]; intros i x Hi Hx Hbefore; [done|].
  cbn [FairScheduler.first_starved]. destruct i as [|i].
  - injection Hi as ->. by rewrite Hx.
  - rewrite (Hbefore 0 c) by (done || lia).
    apply (IH i); [done|done|]. intros j y Hj Hy. apply (Hbefore (S j)); [lia|done].
Qed.

Lemma not_starved_stamped (actor : addr) (w : World) (now : time_point)
    (s : FairScheduler.t) :
  FairScheduler.starved actor w now s = false →
  FairScheduler.last_scheduled_ s !! get_id actor w = Some (last_scheduled w s actor)
  ∧ (FairScheduler.int64 (now - last_scheduled w s actor)
     ≤ FairScheduler.to_clock_duration (FairScheduler.max_starvation_time_ s))%Z.
Proof.
  unfold FairScheduler.starved, last_scheduled.
  destruct (FairScheduler.last_scheduled_ s !! get_id actor w) as [second|];
    [|discriminate].
  intros Hgt. split; [done|]. cbn. lia.
Qed.

Lemma fair_next_actor_nonempty (candidates : list addr) (w : World) (now : time_point)
    (s : FairScheduler.t) :
  candidates ≠ [] →
  FairScheduler.next_actor candidates w now s
  = match FairScheduler.first_starved candidates w now s with
    | Some actor => (Some actor, FairScheduler.stamp (get_id actor w) now s)
    | None =>
        match min_element (FairScheduler.scheduled_before w s) candidates with
        | Some oldest_scheduled =>
            (Some oldest_scheduled,
             FairScheduler.stamp (get_id oldest_scheduled w) now s)
        | None => (None, s)
        end
    end.
Proof. intros Hne. by destruct candidates. Qed.

(** X11.  [FairScheduler::next_actor] returns none on an empty candidate
    vector and leaves its table alone.  Otherwise it returns a candidate
    and records the current time for that candidate's id, changing no other
    entry.  A candidate passes the test of the first loop when it was never
    selected, or when the time since its last selection exceeds the
    starvation time; both sides are 64-bit counts of nanoseconds that wrap
    around, the starvation time being its count of milliseconds times
    1000000, and as long as neither side overflows the test is
    [now - last > 1000000 * milliseconds].  If some candidate passes the
    test, the first such candidate is returned.  Otherwise every candidate
    has a time stamp and the first candidate with the oldest time stamp is
    returned. *)
Theorem fair_scheduler_spec (candidates : list addr) (w : World) (now : time_point)
    (s : FairScheduler.t) :
  FairScheduler.next_actor [] w now s = (None, s)
  ∧ (∀ x,
       FairScheduler.starved x w now s = true
       ↔ FairScheduler.last_scheduled_ s !! get_id x w = None
         ∨ ∃ second,
             FairScheduler.last_scheduled_ s !! get_id x w = Some second
             ∧ (FairScheduler.to_clock_duration (FairScheduler.max_starvation_time_ s)
                < FairScheduler.int64 (now - second))%Z)
  ∧ (∀ second,
       (- 2 ^ 63 ≤ now - second < 2 ^ 63)%Z →
       (- 2 ^ 63 ≤ FairScheduler.max_starvation_time_ s * 1000000 < 2 ^ 63)%Z →
       (FairScheduler.to_clock_duration (FairScheduler.max_starvation_time_ s)
        < FairScheduler.int64 (now - second)
        ↔ FairScheduler.max_starvation_time_ s * 1000000 < now - second)%Z)
  ∧ (∀ i x,
       candidates !! i = Some x →
       FairScheduler.starved x w now s = true →
       (∀ j y, j < i → candidates !! j = Some y →
          FairScheduler.starved y w now s = false) →
       FairScheduler.next_actor candidates w now s
       = (Some x, FairScheduler.stamp (get_id x w) now s))
  ∧ (candidates ≠ [] →
       ∃ i actor,
         FairScheduler.next_actor candidates w now s
         = (Some actor, FairScheduler.stamp (get_id actor w) now s)
         ∧ candidates !! i = Some actor
         ∧ FairScheduler.last_scheduled_
             (snd (FairScheduler.next_actor candidates w now s)) !! get_id actor w
           = Some now
         ∧ (∀ other, other ≠ get_id actor w →
              FairScheduler.last_scheduled_
                (snd (FairScheduler.next_actor candidates w now s)) !! other
              = FairScheduler.last_scheduled_ s !! other)
         ∧ (FairScheduler.starved actor w now s = true →
              ∀ j x, j < i → candidates !! j = Some x →
                FairScheduler.starved x w now s = false)
         ∧ (FairScheduler.starved actor w now s = false →
              ∀ j x, candidates !! j = Some x →
                FairScheduler.starved x w now s = false
                ∧ ∃ second_x second_actor,
                    FairScheduler.last_scheduled_ s !! get_id x w = Some second_x
                    ∧ FairScheduler.last_scheduled_ s !! get_id actor w
                      = Some second_actor
                    ∧ (second_actor ≤ second_x)%Z
                    ∧ (j < i → (second_actor < second_x)%Z))).
Proof.
  split; [done|]. split; [|split; [|split]].
  { intros x. unfold FairScheduler.starved.
    destruct (FairScheduler.last_scheduled_ s !! get_id x w) as [second|].
    - rewrite Z.gtb_lt. split.
      + intros Hgt. right. eauto.
      + intros [?|(second' & [= <-] & Hgt)]; done.
    - split; auto. }
  { intros second Hdiff Hmax. unfold FairScheduler.to_clock_duration.
    by rewrite !int64_small. }
  { intros i x Hi Hx Hbefore.
    assert (Hne : candidates ≠ []) by (by destruct candidates).
    rewrite (fair_next_actor_nonempty _ _ _ _ Hne).
    by rewrite (first_starved_at _ _ _ _ i x Hi Hx Hbefore). }
  intros Hne.
  assert (Hstamp : ∀ actor,
            FairScheduler.last_scheduled_
              (FairScheduler.stamp (get_id actor w) now s) !! get_id actor w = Some now
            ∧ (∀ other, other ≠ get_id actor w →
                 FairScheduler.last_scheduled_
                   (FairScheduler.stamp (get_id actor w) now s) !! other
                 = FairScheduler.last_scheduled_ s !! other)).
  { intros actor. cbn. split; [apply lookup_insert_eq|].
    intros other Hother. by rewrite lookup_insert_ne. }
  rewrite (fair_next_actor_nonempty _ _ _ _ Hne).
  destruct (FairScheduler.first_starved candidates w now s) as [actor|] eqn:Hfs.
  - destruct (first_starved_Some _ _ _ _ _ Hfs) as (i & Hi & Hst & Hbefore).
    exists i, actor. cbn [snd]. destruct (Hstamp actor) as [Hs1 Hs2].
    do 5 (split; [done|]). intros Hcontra. congruence.
  - pose proof (first_starved_None _ _ _ _ Hfs) as Hnone.
    destruct (min_element_first_smallest (last_scheduled w s)
                (FairScheduler.scheduled_before w s) candidates)
      as (i & r & Hmin & Hi & Hall & Hfirst); [done|..].
    { intros a b Ha Hb. unfold FairScheduler.scheduled_before.
      destruct (not_starved_stamped a w now s (Hnone a Ha)) as [-> _].
      destruct (not_starved_stamped b w now s (Hnone b Hb)) as [-> _]. done. }
    rewrite Hmin. exists i, r. cbn [snd]. destruct (Hstamp r) as [Hs1 Hs2].
    do 4 (split; [done|]). split.
    + intros Hst. rewrite Hnone in Hst; [discriminate|by eapply list_elem_of_lookup_2].
    + intros _ j x Hj.
      assert (Hx : x ∈ candidates) by (by eapply list_elem_of_lookup_2).
      assert (Hr : r ∈ candidates) by (by eapply list_elem_of_lookup_2).
      split; [by apply Hnone|].
      destruct (not_starved_stamped x w now s (Hnone x Hx)) as [Hsx _].
      destruct (not_starved_stamped r w now s (Hnone r Hr)) as [Hsr _].
      exists (last_scheduled w s x), (last_scheduled w s r).
      split; [done|]. split; [done|]. split; [by eapply Hall|].
      intros Hlt. by eapply Hfirst.
Qed.

Lemma fair_scheduler_spec_witness :
  [0; 1] ≠ []
  ∧ FairScheduler.next_actor [0; 1] MoreExamples.w_pair 500000%Z
      (FairExamples.stamped 1%Z)
    = (Some 1, FairScheduler.stamp "id-other" 500000%Z (FairExamples.stamped 1%Z))
  ∧ FairScheduler.next_actor [0; 1] MoreExamples.w_pair 5000000%Z
      (FairExamples.stamped 1%Z)
    = (Some 0, FairScheduler.stamp "id-worker" 5000000%Z (FairExamples.stamped 1%Z))
  ∧ FairScheduler.to_clock_duration (2 ^ 63 - 1) = (- 1000000)%Z
  ∧ FairScheduler.next_actor [0; 1] MoreExamples.w_pair 200%Z
      (FairExamples.stamped (2 ^ 63 - 1))
    = (Some 0, FairScheduler.stamp "id-worker" 200%Z (FairExamples.stamped (2 ^ 63 - 1)))
  ∧ ∃ i actor,
      FairScheduler.next_actor [0; 1] MoreExamples.w_pair 500000%Z
        (FairExamples.stamped 1%Z)
      = (Some actor,
         FairScheduler.stamp (get_id actor MoreExamples.w_pair) 500000%Z
           (FairExamples.stamped 1%Z))
      ∧ [0; 1] !! i = Some actor.
Proof.
  assert (Hne : [0; 1] ≠ []) by discriminate.
  split; [exact Hne|]. split; [reflexivity|].
  destruct (fair_scheduler_spec [0; 1] MoreExamples.w_pair 5000000%Z
              (FairExamples.stamped 1%Z)) as (_ & _ & _ & Hfirst & _).
  split.
  { apply (Hfirst 0 0); [reflexivity|reflexivity|]. intros j y Hj. lia. }
  split; [reflexivity|].
  destruct (fair_scheduler_spec [0; 1] MoreExamples.w_pair 200%Z
              (FairExamples.stamped (2 ^ 63 - 1))) as (_ & _ & _ & Hwrapped & _).
  split.
  { apply (Hwrapped 0 0); [reflexivity|reflexivity|]. intros j y Hj. lia. }
  destruct (fair_scheduler_spec [0; 1] MoreExamples.w_pair 500000%Z
              (FairExamples.stamped 1%Z)) as (_ & _ & _ & _ & Hpick).
  destruct (Hpick Hne) as (i & actor & Hnext & Hi & _).
  exists i, actor. split; [exact Hnext|exact Hi].
Defined.

(** ** The schedulers pick one of the candidates *)

Lemma max_element_elem_of {T : Type} (comp : T -> T -> bool) (range : list T) :
  range ≠ [] → ∃ r, max_element comp range = Some r ∧ r ∈ range.
Proof.
  intros Hne. destruct range as [|first rest]; [done|]. cbn [max_element].
  eexists. split; [done|]. clear Hne.
  revert first. induction rest as [|x rest IH]; intros first; cbn [max_element_from].
  - left.
  - destruct (comp first x).
    + right. apply IH.
    + specialize (IH first). apply elem_of_cons in IH as [->|IH]; [left|].
      right. by right.
Qed.

Lemma round_robin_picks : SchedulerPicks RoundRobinScheduler.
Proof.
  intros candidates w now s Hne.
  unfold scheduler_next_actor, RoundRobinScheduler_Scheduler.
  rewrite (next_actor_nonempty _ _ Hne). cbn [fst].
  pose proof (checked_index_lt candidates s Hne) as Hlt. unfold size in Hlt.
  destruct (lookup_lt_is_Some_2 candidates (N.to_nat (checked_index candidates s)))
    as [p Hp]; [lia|].
  exists p. split; [done|]. by eapply list_elem_of_lookup_2.
Qed.

Lemma priority_picks : SchedulerPicks PriorityScheduler.t.
Proof.
  intros candidates w now s Hne.
  unfold scheduler_next_actor, PriorityScheduler_Scheduler, PriorityScheduler.next_actor.
  cbn [fst].
  destruct (max_element_elem_of
              (λ a b, (PriorityScheduler.priority_func_ s a w
                       <? PriorityScheduler.priority_func_ s b w)%Z)
              candidates Hne) as (r & Hr & Hin).
  exists r. split; [|done]. by destruct candidates.
Qed.

Lemma message_priority_picks : SchedulerPicks MessagePriorityScheduler_state.t.
Proof.
  intros candidates w now s Hne.
  unfold scheduler_next_actor, MessagePriorityScheduler_Scheduler,
    MessagePriorityScheduler.next_actor.
  cbn [fst].
  destruct (max_element_elem_of
              (λ a b, (MessagePriorityScheduler.peek_priority a w now
                       <? MessagePriorityScheduler.peek_priority b w now)%Z)
              candidates Hne) as (r & Hr & Hin).
  exists r. split; [|done]. by destruct candidates.
Qed.

Lemma fair_picks : SchedulerPicks FairScheduler.t.
Proof.
  intros candidates w now s Hne.
  unfold scheduler_next_actor, FairScheduler_Scheduler.
  rewrite (fair_next_actor_nonempty _ _ _ _ Hne).
  destruct (FairScheduler.first_starved candidates w now s) as [actor|] eqn:Hfs.
  - destruct (first_starved_Some _ _ _ _ _ Hfs) as (i & Hi & _).
    exists actor. split; [done|]. by eapply list_elem_of_lookup_2.
  - destruct (max_element_elem_of (flip (FairScheduler.scheduled_before w s))
                candidates Hne) as (r & Hr & Hin).
    assert (Hmin : min_element (FairScheduler.scheduled_before w s) candidates = Some r).
    { destruct candidates as [|first rest]; [done|]. cbn in *.
      by rewrite min_element_from_flip. }
    rewrite Hmin. exists r. done.
Qed.

(** ** [has_work] and [process_one_cycle] *)

Lemma eligible_true (actor : addr) (w : World) :
  eligible actor w = true
  ↔ ∃ A, actors w !! actor = Some A
         ∧ (state_ A = RUNNING ∨ state_ A = STOPPING)
         ∧ message_queue_ A ≠ [].
Proof.
  unfold eligible, is_running, has_messages, get_state, mailbox.
  destruct (actors w !! actor) as [A|]; cbn.
  - rewrite andb_true_iff, orb_true_iff, !bool_decide_eq_true. split.
    + intros [Hs Hq]. exists A. split; [done|]. split.
      * destruct Hs as [Hs|Hs]; injection Hs; auto.
      * by destruct (message_queue_ A).
    + intros (A' & [= <-] & Hs & Hq). split.
      * destruct Hs as [->| ->]; auto.
      * by destruct (message_queue_ A).
  - split; [intros [_ ?]%andb_true_iff; discriminate|].
    intros (A & ? & _); discriminate.
Qed.

Section EventLoopCycleFacts.
Variable invoke : MessageHandler -> Message -> World -> completion unit World.
Variable iteration : gmap string addr -> list (string * addr).
Hypothesis iteration_entries : ∀ m, iteration m ≡ₚ map_to_list m.
Context {S : Type} `{Scheduler S}.

Lemma elem_of_iteration (m : gmap string addr) (actor_id : string) (actor : addr) :
  (actor_id, actor) ∈ iteration m ↔ m !! actor_id = Some actor.
Proof. by rewrite iteration_entries, elem_of_map_to_list. Qed.

Lemma existsb_iteration (m : gmap string addr) (test : addr -> bool) :
  existsb (λ entry, test entry.2) (iteration m) = true
  ↔ ∃ actor_id actor, m !! actor_id = Some actor ∧ test actor = true.
Proof.
  rewrite existsb_exists. split.
  - intros ([actor_id actor] & Hin & Htest).
    apply list_elem_of_In, elem_of_iteration in Hin. eauto.
  - intros (actor_id & actor & Hreg & Htest). exists (actor_id, actor).
    split; [|done]. by apply list_elem_of_In, elem_of_iteration.
Qed.

Lemma has_work_eligible (loop : addr) (w : World) (E : EventLoop) :
  event_loops w !! loop = Some E →
  has_work iteration loop w = true
  ↔ ∃ actor_id actor, actors_ E !! actor_id = Some actor ∧ eligible actor w = true.
Proof.
  intros HE. unfold has_work. rewrite HE.
  set (b1 := existsb (λ entry, is_running entry.2 w && has_messages entry.2 w)
               (iteration (actors_ E))).
  set (b2 := existsb (λ entry, bool_decide (get_state entry.2 w = Some STOPPING)
                               && has_messages entry.2 w)
               (iteration (actors_ E))).
  assert (H1 : b1 = true
               ↔ ∃ actor_id actor, actors_ E !! actor_id = Some actor
                   ∧ is_running actor w && has_messages actor w = true)
    by exact (existsb_iteration (actors_ E)
                (λ a : addr, is_running a w && has_messages a w)).
  assert (H2 : b2 = true
               ↔ ∃ actor_id actor, actors_ E !! actor_id = Some actor
                   ∧ bool_decide (get_state actor w = Some STOPPING)
                     && has_messages actor w = true)
    by exact (existsb_iteration (actors_ E)
                (λ a : addr,
                   bool_decide (get_state a w = Some STOPPING) && has_messages a w)).
  clearbody b1 b2. unfold eligible.
  destruct b1.
  - split; [intros _|done]. destruct (proj1 H1 eq_refl) as (actor_id & actor & Hreg & Ht).
    exists actor_id, actor. split; [done|].
    apply andb_true_iff in Ht as [-> ->]. done.
  - destruct b2.
    + split; [intros _|done].
      destruct (proj1 H2 eq_refl) as (actor_id & actor & Hreg & Ht).
      exists actor_id, actor. split; [done|].
      apply andb_true_iff in Ht as [-> ->]. by rewrite orb_true_r.
    + split; [done|]. intros (actor_id & actor & Hreg & Ht).
      apply andb_true_iff in Ht as [Hs Hm]. apply orb_true_iff in Hs as [Hs|Hs].
      * apply H1. exists actor_id, actor. by rewrite Hs, Hm.
      * apply H2. exists actor_id, actor. by rewrite Hs, Hm.
Qed.

Lemma elem_of_active_actors (E : EventLoop) (w : World) (actor : addr) :
  actor ∈ active_actors iteration E w
  ↔ ∃ actor_id, actors_ E !! actor_id = Some actor ∧ eligible actor w = true.
Proof.
  unfold active_actors. rewrite list_elem_of_fmap. split.
  - intros ([actor_id actor'] & -> & Hin).
    apply list_elem_of_In, filter_In in Hin as [Hin Hel].
    apply list_elem_of_In, elem_of_iteration in Hin. eauto.
  - intros (actor_id & Hreg & Hel). exists (actor_id, actor). split; [done|].
    apply list_elem_of_In, filter_In. split; [|done].
    by apply list_elem_of_In, elem_of_iteration.
Qed.

Lemma has_work_active_actors (loop : addr) (w : World) (E : EventLoop) :
  event_loops w !! loop = Some E →
  has_work iteration loop w = true ↔ active_actors iteration E w ≠ [].
Proof.
  intros HE. rewrite (has_work_eligible _ _ _ HE). split.
  - intros (actor_id & actor & Hreg & Hel) Hnil.
    assert (Hin : actor ∈ active_actors iteration E w)
      by (apply elem_of_active_actors; eauto).
    rewrite Hnil in Hin. by apply elem_of_nil in Hin.
  - intros Hne. destruct (active_actors iteration E w) as [|actor rest] eqn:Hact; [done|].
    assert (Hin : actor ∈ active_actors iteration E w) by (rewrite Hact; left).
    apply elem_of_active_actors in Hin as (actor_id & Hreg & Hel). eauto.
Qed.
End EventLoopCycleFacts.

(** X12.  [has_work] is true exactly when some registered actor is
    [RUNNING] or [STOPPING] and has a queued message, whatever the order in
    which the registry is visited; and that is exactly when the next
    [process_one_cycle] finds a candidate to offer to the scheduler. *)
Theorem has_work_spec (iteration : gmap string addr -> list (string * addr))
    (loop : addr) (w : World) (E : EventLoop) :
  (∀ m, iteration m ≡ₚ map_to_list m) →
  event_loops w !! loop = Some E →
  (has_work iteration loop w = true
   ↔ ∃ actor_id actor A,
       actors_ E !! actor_id = Some actor
       ∧ actors w !! actor = Some A
       ∧ (state_ A = RUNNING ∨ state_ A = STOPPING)
       ∧ message_queue_ A ≠ [])
  ∧ (has_work iteration loop w = true ↔ active_actors iteration E w ≠ [])
  ∧ (∀ iteration' : gmap string addr -> list (string * addr),
       (∀ m, iteration' m ≡ₚ map_to_list m) →
       has_work iteration' loop w = has_work iteration loop w).
Proof.
  intros Hperm HE.
  assert (Hchar : ∀ it : gmap string addr -> list (string * addr),
            (∀ m, it m ≡ₚ map_to_list m) →
            has_work it loop w = true
            ↔ ∃ actor_id actor A,
                actors_ E !! actor_id = Some actor
                ∧ actors w !! actor = Some A
                ∧ (state_ A = RUNNING ∨ state_ A = STOPPING)
                ∧ message_queue_ A ≠ []).
  { intros it Hit. rewrite (has_work_eligible it Hit _ _ _ HE). split.
    - intros (actor_id & actor & Hreg & Hel).
      apply eligible_true in Hel as (A & HA & Hs & Hq). eauto 10.
    - intros (actor_id & actor & A & Hreg & HA & Hs & Hq).
      exists actor_id, actor. split; [done|]. apply eligible_true. eauto. }
  split; [by apply Hchar|]. split; [by apply has_work_active_actors|].
  intros iteration' Hperm'.
  destruct (has_work iteration' loop w) eqn:H1, (has_work iteration loop w) eqn:H2;
    try done.
  - apply (Hchar _ Hperm'), (Hchar _ Hperm) in H1. congruence.
  - apply (Hchar _ Hperm), (Hchar _ Hperm') in H2. congruence.
Qed.

Lemma has_work_spec_witness :
  (∀ m : gmap string addr, map_to_list m ≡ₚ map_to_list m)
  ∧ event_loops Examples.w_two_messages !! 0
    = Some {| actors_ := {[ "id-worker" := 0 ]}; running_ := false |}
  ∧ has_work map_to_list 0 Examples.w_two_messages = true
  ∧ has_work map_to_list 0 Examples.w_running = false.
Proof.
  assert (Hperm : ∀ m : gmap string addr, map_to_list m ≡ₚ map_to_list m)
    by (intros m; reflexivity).
  assert (HE : event_loops Examples.w_two_messages !! 0
               = Some {| actors_ := {[ "id-worker" := 0 ]}; running_ := false |})
    by reflexivity.
  split; [exact Hperm|]. split; [exact HE|].
  destruct (has_work_spec map_to_list 0 _ _ Hperm HE) as (Hchar & _).
  split; [|vm_compute; reflexivity].
  apply Hchar. exists "id-worker", 0.
  eexists. split; [reflexivity|]. split; [reflexivity|].
  split; [left; reflexivity|discriminate].
Defined.

(** ** One cycle of the loop *)

Lemma process_next_message_quiet
    (invoke : MessageHandler -> Message -> World -> completion unit World)
    (this : addr) (w : World) (A : Actor) (message : Message) (rest : list Message) :
  handlers_quiet invoke →
  actors w !! this = Some A →
  state_ A ≠ STOPPED →
  message_queue_ A = message :: rest →
  value_of (process_next_message invoke this w) ≠ Some false
  ∧ (handlers_return invoke → value_of (process_next_message invoke this w) = Some true)
  ∧ event_loops (state_after (process_next_message invoke this w)) = event_loops w
  ∧ ∃ A', actors (state_after (process_next_message invoke this w))
          = <[this := A']> (actors w)
          ∧ message_queue_ A' = rest
          ∧ state_ A'
            = match value_of (process_next_message invoke this w) with
              | Some _ => if decide (state_ A = STOPPING ∧ rest = []) then STOPPED
                          else state_ A
              | None => state_ A
              end.
Proof.
  intros Hquiet HA Hs Hq.
  rewrite (process_next_message_pop_value _ _ _ _ _ _ HA Hs Hq).
  rewrite (process_next_message_pop _ _ _ _ _ _ HA Hs Hq).
  assert (Hd : actors (state_after (dispatched invoke this A message rest w))
               = <[this := with_message_queue rest A]> (actors w)
               ∧ event_loops (state_after (dispatched invoke this A message rest w))
                 = event_loops w).
  { unfold dispatched. destruct (handlers_ A !! get_type message) as [handler|]; [|done].
    destruct (Hquiet handler message (write_actor this (with_message_queue rest A) w))
      as [-> ->]. done. }
  assert (Hret : handlers_return invoke →
            ∃ w1, dispatched invoke this A message rest w = Done tt w1).
  { intros Hreturn. unfold dispatched.
    destruct (handlers_ A !! get_type message); [apply Hreturn|eauto]. }
  destruct (dispatched invoke this A message rest w) as [[] w1|e w1];
    cbn [state_after value_of fmap option_fmap option_map] in *.
  2:{ split; [done|]. split; [intros Hreturn; by destruct (Hret Hreturn)|].
      destruct Hd as [Hd1 Hd2]. split; [done|]. eexists. split; [exact Hd1|]. done. }
  destruct Hd as [Hd1 Hd2].
  split; [done|]. split; [done|].
  assert (HA1 : actors w1 !! this = Some (with_message_queue rest A))
    by (rewrite Hd1; apply lookup_insert_eq).
  unfold finalized.
  destruct (bool_decide _ && negb _) eqn:Htest.
  - apply drained_test in Htest as [Hst Hbox].
    rewrite (get_state_live _ _ _ HA1) in Hst. rewrite (mailbox_live _ _ _ HA1) in Hbox.
    cbn in Hst, Hbox. injection Hst as Hst. injection Hbox as Hbox.
    rewrite (set_state_live _ _ _ _ HA1). cbn [print write_actor actors event_loops].
    split; [done|]. eexists. rewrite Hd1, insert_insert_eq. split; [done|].
    split; [done|]. cbn. by rewrite decide_True.
  - split; [done|]. eexists. split; [exact Hd1|]. split; [done|]. cbn.
    rewrite decide_False; [done|]. intros [Hst Hrest].
    apply not_true_iff_false in Htest. apply Htest, drained_test.
    rewrite (get_state_live _ _ _ HA1), (mailbox_live _ _ _ HA1). cbn.
    by rewrite Hst, Hrest.
Qed.

Lemma pending_insert (w w' : World) (this : addr) (A A' : Actor) :
  actors w !! this = Some A →
  actors w' = <[this := A']> (actors w) →
  pending w + length (message_queue_ A') = pending w' + length (message_queue_ A).
Proof.
  intros HA Hw'. unfold pending. rewrite Hw'.
  rewrite <- (map_to_list_delete _ _ _ HA).
  rewrite <- insert_delete_eq.
  rewrite map_to_list_insert by apply lookup_delete_eq.
  cbn. lia.
Qed.

Section CycleFacts.
Variable invoke : MessageHandler -> Message -> World -> completion unit World.
Variable iteration : gmap string addr -> list (string * addr).
Hypothesis iteration_entries : ∀ m, iteration m ≡ₚ map_to_list m.
Context {S : Type} `{SchedulerPicks S}.

Lemma process_one_cycle_idle (loop : addr) (now : time_point) (scheduler : S) (w : World)
    (E : EventLoop) :
  event_loops w !! loop = Some E →
  has_work iteration loop w = false →
  process_one_cycle invoke iteration loop now scheduler w = Done tt (scheduler, w).
Proof.
  intros HE Hwork. unfold process_one_cycle. rewrite HE.
  destruct (active_actors iteration E w) eqn:Hact; [done|].
  apply not_true_iff_false in Hwork. exfalso. apply Hwork.
  apply (has_work_active_actors iteration iteration_entries _ _ _ HE). by rewrite Hact.
Qed.

Lemma process_one_cycle_step (loop : addr) (now : time_point) (scheduler : S) (w : World)
    (E : EventLoop) :
  event_loops w !! loop = Some E →
  has_work iteration loop w = true →
  ∃ actor_id actor A,
    actors_ E !! actor_id = Some actor
    ∧ actors w !! actor = Some A
    ∧ (state_ A = RUNNING ∨ state_ A = STOPPING)
    ∧ message_queue_ A ≠ []
    ∧ fst (scheduler_next_actor (active_actors iteration E w) w now scheduler) = Some actor
    ∧ process_one_cycle invoke iteration loop now scheduler w
      = match process_next_message invoke actor w with
        | Done _ w' =>
            Done tt
              (snd (scheduler_next_actor (active_actors iteration E w) w now scheduler),
               w')
        | Raised e w' =>
            Raised e
              (snd (scheduler_next_actor (active_actors iteration E w) w now scheduler),
               w')
        end.
Proof.
  intros HE Hwork.
  apply (has_work_active_actors iteration iteration_entries _ _ _ HE) in Hwork.
  destruct (scheduler_picks (active_actors iteration E w) w now scheduler Hwork)
    as (actor & Hnext & Hin).
  apply (elem_of_active_actors iteration iteration_entries) in Hin
    as (actor_id & Hreg & Hel).
  apply eligible_true in Hel as (A & HA & Hs & Hq).
  exists actor_id, actor, A. do 5 (split; [done|]).
  unfold process_one_cycle. rewrite HE.
  destruct (active_actors iteration E w) eqn:Hact; [done|].
  destruct (scheduler_next_actor _ w now scheduler) as [next scheduler'].
  cbn [fst snd] in *. by rewrite Hnext.
Qed.
End CycleFacts.

(** X13.  One scheduling cycle does nothing when no registered actor is
    eligible.  Otherwise, with a scheduler that picks one of the candidates
    it is offered, the cycle calls [process_next_message] exactly once, on
    the actor the scheduler picked, which is a registered actor that is
    [RUNNING] or [STOPPING] with a queued message.  That call does not
    return false: it returns, and so does the cycle, with the store the
    call has left; or the exception of a handler leaves the call and,
    uncaught, the cycle.  In both cases the scheduler has been updated. *)
Theorem process_one_cycle_spec
    (invoke : MessageHandler -> Message -> World -> completion unit World)
    (iteration : gmap string addr -> list (string * addr))
    (S : Type) (scheduler_class : Scheduler S) (picks : SchedulerPicks S)
    (loop : addr) (now : time_point) (scheduler : S) (w : World) (E : EventLoop) :
  (∀ m, iteration m ≡ₚ map_to_list m) →
  event_loops w !! loop = Some E →
  (has_work iteration loop w = false →
     process_one_cycle invoke iteration loop now scheduler w = Done tt (scheduler, w))
  ∧ (has_work iteration loop w = true →
     ∃ actor_id actor A,
       actors_ E !! actor_id = Some actor
       ∧ actors w !! actor = Some A
       ∧ (state_ A = RUNNING ∨ state_ A = STOPPING)
       ∧ message_queue_ A ≠ []
       ∧ fst (scheduler_next_actor (active_actors iteration E w) w now scheduler)
         = Some actor
       ∧ value_of (process_next_message invoke actor w) ≠ Some false
       ∧ (∀ b w',
            process_next_message invoke actor w = Done b w' →
            b = true
            ∧ process_one_cycle invoke iteration loop now scheduler w
              = Done tt
                  (snd (scheduler_next_actor (active_actors iteration E w) w now
                          scheduler), w'))
       ∧ (∀ e w',
            process_next_message invoke actor w = Raised e w' →
            process_one_cycle invoke iteration loop now scheduler w
            = Raised e
                (snd (scheduler_next_actor (active_actors iteration E w) w now
                        scheduler), w'))).
Proof.
  intros Hperm HE. split.
  - intros Hidle. by eapply process_one_cycle_idle.
  - intros Hwork.
    destruct (process_one_cycle_step invoke iteration Hperm loop now scheduler w E HE Hwork)
      as (actor_id & actor & A & Hreg & HA & Hs & Hq & Hnext & Hcycle).
    exists actor_id, actor, A. do 5 (split; [done|]).
    destruct (message_queue_ A) as [|message rest] eqn:HqA; [done|].
    assert (Hvalue : value_of (process_next_message invoke actor w) ≠ Some false).
    { rewrite (process_next_message_pop_value _ _ _ _ _ _ HA) by
        (done || destruct Hs; congruence).
      by destruct (value_of (dispatched invoke actor A message rest w)). }
    split; [done|]. rewrite Hcycle. split.
    + intros b w' Hcall. rewrite Hcall in *. split; [|done].
      destruct b; [done|]. by cbn in Hvalue.
    + intros e w' Hcall. by rewrite Hcall.
Qed.

Lemma process_one_cycle_spec_witness :
  (∀ m : gmap string addr, map_to_list m ≡ₚ map_to_list m)
  ∧ event_loops Examples.w_two_messages !! 0
    = Some {| actors_ := {[ "id-worker" := 0 ]}; running_ := false |}
  ∧ has_work map_to_list 0 Examples.w_two_messages = true
  ∧ has_work map_to_list 0 Examples.w_running = false
  ∧ process_one_cycle MoreExamples.counting_handler map_to_list 0 1%Z
      RoundRobinScheduler_ctor Examples.w_running
    = Done tt (RoundRobinScheduler_ctor, Examples.w_running)
  ∧ (∃ actor_id actor w',
       actors_ {| actors_ := {[ "id-worker" := 0 ]}; running_ := false |} !! actor_id
       = Some actor
       ∧ process_next_message MoreExamples.counting_handler actor Examples.w_two_messages
         = Done true w'
       ∧ state_after (process_one_cycle MoreExamples.counting_handler map_to_list 0 1%Z
                        RoundRobinScheduler_ctor Examples.w_two_messages)
         = ({| current_index_ := 0 |}, w'))
  ∧ value_of (process_one_cycle Examples.pong_handler map_to_list 0 1%Z
                RoundRobinScheduler_ctor Examples.w_two_messages) = None.
Proof.
  assert (Hperm : ∀ m : gmap string addr, map_to_list m ≡ₚ map_to_list m)
    by (intros m; reflexivity).
  assert (HE : event_loops Examples.w_two_messages !! 0
               = Some {| actors_ := {[ "id-worker" := 0 ]}; running_ := false |})
    by reflexivity.
  assert (HE' : event_loops Examples.w_running !! 0
                = Some {| actors_ := {[ "id-worker" := 0 ]}; running_ := false |})
    by reflexivity.
  assert (Hwork : has_work map_to_list 0 Examples.w_two_messages = true)
    by (vm_compute; reflexivity).
  assert (Hidle : has_work map_to_list 0 Examples.w_running = false)
    by (vm_compute; reflexivity).
  split; [exact Hperm|]. split; [exact HE|]. split; [exact Hwork|].
  split; [exact Hidle|].
  destruct (process_one_cycle_spec MoreExamples.counting_handler map_to_list
              RoundRobinScheduler _ round_robin_picks 0 1%Z RoundRobinScheduler_ctor
              _ _ Hperm HE') as [Hnothing _].
  destruct (process_one_cycle_spec MoreExamples.counting_handler map_to_list
              RoundRobinScheduler _ round_robin_picks 0 1%Z RoundRobinScheduler_ctor
              _ _ Hperm HE) as [_ Hstep].
  split; [exact (Hnothing Hidle)|].
  split; [|vm_compute; reflexivity].
  destruct (Hstep Hwork) as (actor_id & actor & A & Hreg & _ & _ & _ & _ & _ & Hdone & _).
  destruct (process_next_message MoreExamples.counting_handler actor
              Examples.w_two_messages) as [b w'|e w'] eqn:Hcall.
  - destruct (Hdone b w' eq_refl) as [-> Hcycle].
    exists actor_id, actor, w'. split; [exact Hreg|]. split; [exact Hcall|].
    rewrite Hcycle. reflexivity.
  - exfalso.
    assert (Hactor : actor = 0).
    { cbn [actors_] in Hreg. by apply lookup_singleton_Some in Hreg as [_ <-]. }
    subst actor. vm_compute in Hcall. discriminate.
Defined.

(** ** The loop of [run] *)

Section RunLoop.
Variable invoke : MessageHandler -> Message -> World -> completion unit World.
Variable iteration : gmap string addr -> list (string * addr).
Hypothesis iteration_entries : ∀ m, iteration m ≡ₚ map_to_list m.
Context {S : Type} `{SchedulerPicks S}.
Hypothesis quiet : handlers_quiet invoke.
Variable loop : addr.
Variable E : EventLoop.

(** A cycle that finds work takes exactly one message out of the store
    and leaves the event loops alone, whether it returns or throws; with
    handlers that return, it returns. *)
Lemma process_one_cycle_pending (now : time_point) (scheduler : S) (w : World) :
  event_loops w !! loop = Some E →
  has_work iteration loop w = true →
  event_loops (state_after (process_one_cycle invoke iteration loop now scheduler w)).2
  = event_loops w
  ∧ pending w
    = Datatypes.S
        (pending (state_after (process_one_cycle invoke iteration loop now
                                 scheduler w)).2)
  ∧ (handlers_return invoke →
       ∃ after, process_one_cycle invoke iteration loop now scheduler w = Done tt after).
Proof.
  intros HE Hwork.
  destruct (process_one_cycle_step invoke iteration iteration_entries loop now scheduler
              w E HE Hwork)
    as (actor_id & actor & A & Hreg & HA & Hs & Hq & Hnext & Hcycle).
  rewrite Hcycle.
  destruct (message_queue_ A) as [|message rest] eqn:HqA; [done|].
  destruct (process_next_message_quiet invoke actor w A message rest quiet HA)
    as (_ & Hret & Hloops & A' & Hact & HqA' & _); [destruct Hs; congruence|done|].
  pose proof (pending_insert w _ actor A A' HA Hact) as Hp.
  rewrite HqA, HqA' in Hp. cbn in Hp.
  destruct (process_next_message invoke actor w) as [b w'|e w'];
    cbn [state_after snd value_of] in *.
  - split; [done|]. split; [lia|]. eauto.
  - split; [done|]. split; [lia|]. intros Hreturn. by specialize (Hret Hreturn).
Qed.

Lemma run_loop_quiesces_from (clock : list time_point) :
  ∀ (scheduler : S) (w : World),
    event_loops w !! loop = Some E →
    (pending w ≤ length clock)%nat →
    ∃ result,
      run_loop invoke iteration clock loop scheduler w = Some result
      ∧ event_loops (state_after result).2 = event_loops w
      ∧ (pending (state_after result).2 ≤ pending w)%nat
      ∧ (∀ scheduler' w',
           result = Done tt (scheduler', w') →
           Loop.is_running loop w' && has_work iteration loop w' = false)
      ∧ (∀ e after, result = Raised e after → (pending after.2 < pending w)%nat)
      ∧ (handlers_return invoke → ∃ scheduler' w', result = Done tt (scheduler', w')).
Proof.
  induction clock as [|now clock IH]; intros scheduler w HE Hfuel; cbn [run_loop].
  - destruct (Loop.is_running loop w && has_work iteration loop w) eqn:Hcond.
    + apply andb_true_iff in Hcond as [_ Hwork].
      destruct (process_one_cycle_pending 0%Z scheduler w HE Hwork) as (_ & Hp & _).
      cbn in Hfuel. lia.
    + exists (Done tt (scheduler, w)). cbn [state_after snd].
      do 3 (split; [done|]). split; [by intros ? ? [= <- <-]|].
      split; [done|]. eauto.
  - destruct (Loop.is_running loop w && has_work iteration loop w) eqn:Hcond.
    + apply andb_true_iff in Hcond as [_ Hwork].
      destruct (process_one_cycle_pending now scheduler w HE Hwork)
        as (Hloops & Hp & Hret).
      destruct (process_one_cycle invoke iteration loop now scheduler w)
        as [[] [scheduler1 w1]|e [scheduler1 w1]]; cbn [state_after snd] in *.
      * destruct (IH scheduler1 w1)
          as (result & Hrun & Hloops' & Hp' & Hend & Hraised & Hreturn).
        -- by rewrite Hloops.
        -- cbn in Hfuel. lia.
        -- exists result. split; [done|]. split; [congruence|]. split; [lia|].
           split; [done|]. split; [|done].
           intros e after Hres. specialize (Hraised e after Hres). lia.
      * exists (Raised e (scheduler1, w1)). cbn [state_after snd].
        split; [done|]. split; [done|]. split; [lia|]. split; [done|].
        split; [intros ? ? [= <- <-]; cbn; lia|].
        intros Hreturn. by destruct (Hret Hreturn).
    + exists (Done tt (scheduler, w)). cbn [state_after snd].
      do 3 (split; [done|]). split; [by intros ? ? [= <- <-]|].
      split; [done|]. eauto.
Qed.
End RunLoop.

(** X14.  With handlers that change no actor and no loop, whether they
    return or throw, and a scheduler that picks one of its candidates, the
    [while] loop of [run] comes to an end after at most as many cycles as
    there are messages queued in the store: it ends, or the exception of a
    handler leaves it; with handlers that return, it ends.  A loop whose
    run flag is cleared does not run a single cycle.  A loop whose run flag
    is set ends with [has_work] false: every registered actor that is
    [RUNNING] or [STOPPING] has an empty mailbox.  An exception leaves the
    loop after at least one message has been consumed.  The cycles never
    add a message and leave every event loop as it was. *)
Theorem run_loop_quiesces
    (invoke : MessageHandler -> Message -> World -> completion unit World)
    (iteration : gmap string addr -> list (string * addr))
    (S : Type) (scheduler_class : Scheduler S) (picks : SchedulerPicks S)
    (clock : list time_point) (loop : addr) (scheduler : S) (w : World) (E : EventLoop) :
  (∀ m, iteration m ≡ₚ map_to_list m) →
  handlers_quiet invoke →
  event_loops w !! loop = Some E →
  (pending w ≤ length clock)%nat →
  ∃ result,
    run_loop invoke iteration clock loop scheduler w = Some result
    ∧ event_loops (state_after result).2 = event_loops w
    ∧ (pending (state_after result).2 ≤ pending w)%nat
    ∧ (running_ E = false → result = Done tt (scheduler, w))
    ∧ (running_ E = true →
         ∀ scheduler' w',
           result = Done tt (scheduler', w') →
           has_work iteration loop w' = false
           ∧ ∀ actor_id actor A',
               actors_ E !! actor_id = Some actor →
               actors w' !! actor = Some A' →
               state_ A' = RUNNING ∨ state_ A' = STOPPING →
               message_queue_ A' = [])
    ∧ (handlers_return invoke → ∃ scheduler' w', result = Done tt (scheduler', w'))
    ∧ (∀ e after, result = Raised e after → (pending after.2 < pending w)%nat).
Proof.
  intros Hperm Hquiet HE Hfuel.
  destruct (run_loop_quiesces_from invoke iteration Hperm Hquiet loop E clock scheduler w
              HE Hfuel) as (result & Hrun & Hloops & Hp & Hend & Hraised & Hreturn).
  exists result. do 3 (split; [done|]). split; [|split; [|done]].
  - intros Hflag.
    assert (Hstop : Loop.is_running loop w = false)
      by (unfold Loop.is_running; by rewrite HE).
    destruct clock; cbn [run_loop] in Hrun; rewrite Hstop in Hrun; cbn in Hrun;
      by injection Hrun as <-.
  - intros Hflag scheduler' w' ->. cbn [state_after snd] in *.
    assert (HE' : event_loops w' !! loop = Some E) by (by rewrite Hloops).
    assert (Hwork : has_work iteration loop w' = false).
    { specialize (Hend scheduler' w' eq_refl).
      unfold Loop.is_running in Hend. by rewrite HE', Hflag in Hend. }
    split; [done|]. intros actor_id actor A' Hreg HA' Hs.
    destruct (message_queue_ A') as [|message rest] eqn:Hq; [done|].
    apply not_true_iff_false in Hwork. exfalso. apply Hwork.
    apply (has_work_eligible iteration Hperm _ _ _ HE').
    exists actor_id, actor. split; [done|]. apply eligible_true.
    exists A'. by rewrite Hq.
Qed.

Lemma run_loop_quiesces_witness :
  (∀ m : gmap string addr, map_to_list m ≡ₚ map_to_list m)
  ∧ handlers_quiet MoreExamples.counting_handler
  ∧ handlers_return MoreExamples.counting_handler
  ∧ event_loops MoreExamples.w_loop_running !! 0
    = Some {| actors_ := {[ "id-worker" := 0 ]}; running_ := true |}
  ∧ (pending MoreExamples.w_loop_running ≤ length [1%Z; 2%Z; 3%Z])%nat
  ∧ (∃ scheduler' w',
       run_loop MoreExamples.counting_handler map_to_list [1%Z; 2%Z; 3%Z] 0
         RoundRobinScheduler_ctor MoreExamples.w_loop_running
       = Some (Done tt (scheduler', w'))
       ∧ has_work map_to_list 0 w' = false
       ∧ mailbox 0 w' = Some [])
  ∧ run_loop Examples.pong_handler map_to_list [1%Z; 2%Z; 3%Z] 0
      RoundRobinScheduler_ctor MoreExamples.w_loop_running
    = Some (Raised (runtime_error "Key not found in payload: count")
              ({| current_index_ := 0 |},
               write_actor 0
                 (with_message_queue [Examples.msg "pong" "id-other" "id-worker" HIGH 6%Z]
                    (with_handlers {[ "ping" := 7 ]}
                       (with_state RUNNING
                          (with_state INITIALIZED (Actor_ctor "worker" 0 "id-worker")))))
                 MoreExamples.w_loop_running)).
Proof.
  assert (Hperm : ∀ m : gmap string addr, map_to_list m ≡ₚ map_to_list m)
    by (intros m; reflexivity).
  assert (Hquiet : handlers_quiet MoreExamples.counting_handler)
    by (intros handler message w; split; reflexivity).
  assert (Hreturn : handlers_return MoreExamples.counting_handler)
    by (intros handler message w; eexists; reflexivity).
  assert (HE : event_loops MoreExamples.w_loop_running !! 0
               = Some {| actors_ := {[ "id-worker" := 0 ]}; running_ := true |})
    by reflexivity.
  assert (Hfuel : (pending MoreExamples.w_loop_running ≤ length [1%Z; 2%Z; 3%Z])%nat)
    by (vm_compute; lia).
  split; [exact Hperm|]. split; [exact Hquiet|]. split; [exact Hreturn|].
  split; [exact HE|]. split; [exact Hfuel|].
  split; [|vm_compute; reflexivity].
  destruct (run_loop_quiesces MoreExamples.counting_handler map_to_list
              RoundRobinScheduler _ round_robin_picks [1%Z; 2%Z; 3%Z] 0
              RoundRobinScheduler_ctor _ _ Hperm Hquiet HE Hfuel)
    as (result & Hrun & _ & _ & _ & Hdone & Hends & _).
  destruct (Hends Hreturn) as (scheduler' & w' & ->).
  exists scheduler', w'. split; [exact Hrun|].
  destruct (Hdone eq_refl scheduler' w' eq_refl) as [Hwork _]. split; [exact Hwork|].
  vm_compute in Hrun. injection Hrun as _ <-. reflexivity.
Defined.

(** ** The first and the last loop of [run] *)

Section ForEachActor.
Variable step : addr -> World -> World.
Variable change : Actor -> Actor.
Hypothesis step_at :
  ∀ a w b, actors (step a w) !! b
           = if decide (b = a) then change <$> actors w !! b else actors w !! b.
Hypothesis step_loops : ∀ a w, event_loops (step a w) = event_loops w.
Hypothesis change_twice : ∀ A, change (change A) = change A.

Lemma for_each_actor (entries : list (string * addr)) :
  ∀ w,
    event_loops (foldl (λ w entry, step entry.2 w) w entries) = event_loops w
    ∧ ∀ b, actors (foldl (λ w entry, step entry.2 w) w entries) !! b
           = if decide (b ∈ entries.*2) then change <$> actors w !! b
             else actors w !! b.
Proof.
  induction entries as [|[actor_id a] entries IH]; intros w; cbn [foldl snd].
  - split; [done|]. intros b. rewrite decide_False; [done|]. apply not_elem_of_nil.
  - destruct (IH (step a w)) as [Hloops Hact]. split; [by rewrite Hloops, step_loops|].
    intros b. rewrite Hact, step_at. cbn [fmap list_fmap snd].
    destruct (decide (b = a)) as [->|Hne].
    + rewrite (decide_True (P := a ∈ a :: entries.*2)) by left.
      case_decide; [|done].
      destruct (actors w !! a) as [A|]; cbn; [|done]. by rewrite change_twice.
    + case_decide as Hin.
      * rewrite decide_True; [done|]. by right.
      * rewrite decide_False; [done|]. intros [?|?]%elem_of_cons; done.
Qed.
End ForEachActor.

Lemma bootstrap_at (a : addr) (w : World) (b : addr) :
  actors (bootstrap a w) !! b
  = if decide (b = a) then started <$> actors w !! b else actors w !! b.
Proof.
  unfold bootstrap.
  destruct (actors w !! a) as [A|] eqn:HA.
  - rewrite (get_state_live _ _ _ HA).
    assert (Hgoal : ∀ w', actors w' = <[a := started A]> (actors w) →
              actors w' !! b
              = if decide (b = a) then started <$> actors w !! b else actors w !! b).
    { intros w' ->. case_decide as Hb.
      - subst b. by rewrite lookup_insert_eq, HA.
      - by rewrite lookup_insert_ne. }
    unfold started in Hgoal.
    destruct (decide (state_ A = CREATED)) as [Hc|Hc].
    + rewrite decide_True by congruence. apply Hgoal.
      rewrite decide_True by auto.
      rewrite (initialize_created _ _ _ HA Hc).
      rewrite (start_initialized _ _ (with_state INITIALIZED A));
        [|apply lookup_insert_eq|done].
      cbn [print write_actor actors]. by rewrite insert_insert_eq.
    + rewrite decide_False by congruence.
      destruct (decide (state_ A = INITIALIZED)) as [Hi|Hi].
      * rewrite decide_True by congruence. apply Hgoal.
        rewrite decide_True by auto. by rewrite (start_initialized _ _ _ HA Hi).
      * rewrite decide_False by congruence. apply Hgoal.
        rewrite decide_False by tauto. symmetry. by apply insert_id.
  - unfold get_state. rewrite HA. cbn.
    rewrite !decide_False by discriminate.
    case_decide as Hb; [|done]. subst b. by rewrite HA.
Qed.

Lemma bootstrap_loops (a : addr) (w : World) :
  event_loops (bootstrap a w) = event_loops w.
Proof.
  unfold bootstrap. repeat case_decide; [|apply start_frame|done].
  destruct (start_frame a (initialize a w)) as [_ ->]. apply initialize_frame.
Qed.

Lemma started_twice (A : Actor) : started (started A) = started A.
Proof.
  unfold started. destruct (decide (state_ A = CREATED ∨ state_ A = INITIALIZED)); cbn.
  - rewrite decide_False; [done|]. cbn. intros [?|?]; discriminate.
  - by rewrite decide_False.
Qed.

Lemma stop_if_running_at (a : addr) (w : World) (b : addr) :
  actors (stop_if_running a w) !! b
  = if decide (b = a) then asked_to_stop <$> actors w !! b else actors w !! b.
Proof.
  unfold stop_if_running.
  destruct (actors w !! a) as [A|] eqn:HA.
  - rewrite (is_running_live _ _ _ HA).
    assert (Hgoal : ∀ w', actors w' = <[a := asked_to_stop A]> (actors w) →
              actors w' !! b
              = if decide (b = a) then asked_to_stop <$> actors w !! b
                else actors w !! b).
    { intros w' ->. case_decide as Hb.
      - subst b. by rewrite lookup_insert_eq, HA.
      - by rewrite lookup_insert_ne. }
    unfold asked_to_stop in Hgoal. case_bool_decide as Hs.
    + apply Hgoal. rewrite decide_True by done.
      unfold stop. rewrite HA. rewrite decide_False by (rewrite Hs; intros [?|?]; done).
      rewrite (set_state_live _ _ _ _ HA).
      set (w1 := print _ (write_actor _ _ _)).
      assert (HA1 : actors w1 !! a = Some (with_state STOPPING A))
        by apply lookup_insert_eq.
      rewrite (has_messages_live _ _ _ HA1). cbn [message_queue_ with_state].
      destruct (message_queue_ A); cbn [negb]; [|done].
      rewrite (set_state_live _ _ _ _ HA1). cbn [print write_actor actors w1].
      by rewrite insert_insert_eq.
    + apply Hgoal. rewrite decide_False by done. symmetry. by apply insert_id.
  - unfold is_running, get_state. rewrite HA. cbn.
    rewrite bool_decide_eq_false_2 by discriminate.
    case_decide as Hb; [|done]. subst b. by rewrite HA.
Qed.

Lemma stop_if_running_loops (a : addr) (w : World) :
  event_loops (stop_if_running a w) = event_loops w.
Proof. unfold stop_if_running. destruct (is_running a w); [apply stop_frame|done]. Qed.

Lemma asked_to_stop_twice (A : Actor) : asked_to_stop (asked_to_stop A) = asked_to_stop A.
Proof.
  unfold asked_to_stop. destruct (decide (state_ A = RUNNING)); cbn.
  - rewrite decide_False; [done|]. by destruct (message_queue_ A).
  - by rewrite decide_False.
Qed.

Lemma registered_iteration (iteration : gmap string addr -> list (string * addr))
    (m : gmap string addr) (b : addr) :
  (∀ m, iteration m ≡ₚ map_to_list m) →
  b ∈ (iteration m).*2 ↔ ∃ actor_id, m !! actor_id = Some b.
Proof.
  intros Hperm. rewrite list_elem_of_fmap. split.
  - intros ([actor_id b'] & -> & Hin). exists actor_id.
    by apply (elem_of_iteration iteration Hperm).
  - intros (actor_id & Hreg). exists (actor_id, b). split; [done|].
    by apply (elem_of_iteration iteration Hperm).
Qed.

(** X15.  The first loop of [run] brings every registered actor that is
    [CREATED] or [INITIALIZED] to [RUNNING] and leaves every other
    registered actor, every unregistered actor, all mailboxes and every
    event loop as they were, whatever the order in which the registry is
    visited. *)
Theorem run_start_actors_spec (iteration : gmap string addr -> list (string * addr))
    (loop : addr) (w : World) (E : EventLoop) :
  (∀ m, iteration m ≡ₚ map_to_list m) →
  event_loops w !! loop = Some E →
  event_loops (run_start_actors iteration loop w) = event_loops w
  ∧ (∀ actor_id actor A,
       actors_ E !! actor_id = Some actor →
       actors w !! actor = Some A →
       (state_ A = CREATED ∨ state_ A = INITIALIZED →
          actors (run_start_actors iteration loop w) !! actor
          = Some (with_state RUNNING A))
       ∧ (state_ A ≠ CREATED → state_ A ≠ INITIALIZED →
            actors (run_start_actors iteration loop w) !! actor = Some A))
  ∧ (∀ other,
       (∀ actor_id, actors_ E !! actor_id ≠ Some other) →
       actors (run_start_actors iteration loop w) !! other = actors w !! other).
Proof.
  intros Hperm HE. unfold run_start_actors. rewrite HE.
  destruct (for_each_actor bootstrap started bootstrap_at bootstrap_loops started_twice
              (iteration (actors_ E)) w) as [Hloops Hact].
  split; [done|]. split.
  - intros actor_id actor A Hreg HA. rewrite Hact.
    rewrite decide_True by (apply (registered_iteration iteration _ _ Hperm); eauto).
    rewrite HA. cbn. unfold started. split.
    + intros Hs. by rewrite decide_True.
    + intros Hc Hi. rewrite decide_False; [done|tauto].
  - intros other Hother. rewrite Hact. rewrite decide_False; [done|].
    intros (actor_id & Hreg)%(registered_iteration iteration _ _ Hperm).
    by eapply Hother.
Qed.

Lemma run_start_actors_spec_witness :
  (∀ m : gmap string addr, map_to_list m ≡ₚ map_to_list m)
  ∧ event_loops (register_actor 0 0 Examples.w_created) !! 0
    = Some {| actors_ := {[ "id-worker" := 0 ]}; running_ := false |}
  ∧ actors (run_start_actors map_to_list 0 (register_actor 0 0 Examples.w_created)) !! 0
    = Some (with_state RUNNING (Actor_ctor "worker" 0 "id-worker")).
Proof.
  assert (Hperm : ∀ m : gmap string addr, map_to_list m ≡ₚ map_to_list m)
    by (intros m; reflexivity).
  assert (HE : event_loops (register_actor 0 0 Examples.w_created) !! 0
               = Some {| actors_ := {[ "id-worker" := 0 ]}; running_ := false |})
    by reflexivity.
  split; [exact Hperm|]. split; [exact HE|].
  destruct (run_start_actors_spec map_to_list 0 _ _ Hperm HE) as (_ & Hreg & _).
  destruct (Hreg "id-worker" 0 (Actor_ctor "worker" 0 "id-worker") eq_refl eq_refl)
    as [Hstart _].
  apply Hstart. left. reflexivity.
Defined.

(** X16.  The last loop of [run] calls [stop] on every registered actor
    that is [RUNNING]: such an actor ends [STOPPED] if its mailbox is empty
    and [STOPPING], with its mailbox kept, if it is not.  No registered
    actor is [RUNNING] afterwards; registered actors in other states,
    unregistered actors and the event loops are left as they were. *)
Theorem run_stop_actors_spec (iteration : gmap string addr -> list (string * addr))
    (loop : addr) (w : World) (E : EventLoop) :
  (∀ m, iteration m ≡ₚ map_to_list m) →
  event_loops w !! loop = Some E →
  event_loops (run_stop_actors iteration loop w) = event_loops w
  ∧ (∀ actor_id actor A,
       actors_ E !! actor_id = Some actor →
       actors w !! actor = Some A →
       (state_ A = RUNNING → message_queue_ A = [] →
          actors (run_stop_actors iteration loop w) !! actor
          = Some (with_state STOPPED A))
       ∧ (state_ A = RUNNING → message_queue_ A ≠ [] →
            actors (run_stop_actors iteration loop w) !! actor
            = Some (with_state STOPPING A))
       ∧ (state_ A ≠ RUNNING →
            actors (run_stop_actors iteration loop w) !! actor = Some A)
       ∧ get_state actor (run_stop_actors iteration loop w) ≠ Some RUNNING)
  ∧ (∀ other,
       (∀ actor_id, actors_ E !! actor_id ≠ Some other) →
       actors (run_stop_actors iteration loop w) !! other = actors w !! other).
Proof.
  intros Hperm HE. unfold run_stop_actors. rewrite HE.
  destruct (for_each_actor stop_if_running asked_to_stop stop_if_running_at
              stop_if_running_loops asked_to_stop_twice (iteration (actors_ E)) w)
    as [Hloops Hact].
  split; [done|]. split.
  - intros actor_id actor A Hreg HA. unfold get_state. rewrite Hact.
    rewrite decide_True by (apply (registered_iteration iteration _ _ Hperm); eauto).
    rewrite HA. cbn. unfold asked_to_stop.
    destruct (decide (state_ A = RUNNING)) as [Hs|Hs].
    + destruct (message_queue_ A); repeat split; try done.
    + repeat split; try done. congruence.
  - intros other Hother. rewrite Hact. rewrite decide_False; [done|].
    intros (actor_id & Hreg)%(registered_iteration iteration _ _ Hperm).
    by eapply Hother.
Qed.

Lemma run_stop_actors_spec_witness :
  (∀ m : gmap string addr, map_to_list m ≡ₚ map_to_list m)
  ∧ event_loops Examples.w_two_messages !! 0
    = Some {| actors_ := {[ "id-worker" := 0 ]}; running_ := false |}
  ∧ get_state 0 (run_stop_actors map_to_list 0 Examples.w_two_messages) = Some STOPPING
  ∧ get_state 0 (run_stop_actors map_to_list 0 Examples.w_running) = Some STOPPED.
Proof.
  assert (Hperm : ∀ m : gmap string addr, map_to_list m ≡ₚ map_to_list m)
    by (intros m; reflexivity).
  assert (HE : event_loops Examples.w_two_messages !! 0
               = Some {| actors_ := {[ "id-worker" := 0 ]}; running_ := false |})
    by reflexivity.
  assert (HE' : event_loops Examples.w_running !! 0
                = Some {| actors_ := {[ "id-worker" := 0 ]}; running_ := false |})
    by reflexivity.
  split; [exact Hperm|]. split; [exact HE|].
  destruct (run_stop_actors_spec map_to_list 0 _ _ Hperm HE) as (_ & Hreg & _).
  destruct (run_stop_actors_spec map_to_list 0 _ _ Hperm HE') as (_ & Hreg' & _).
  destruct (Hreg "id-worker" 0 _ eq_refl eq_refl) as (_ & Hbusy & _).
  destruct (Hreg' "id-worker" 0 _ eq_refl eq_refl) as (Hidle & _).
  unfold get_state. split.
  - rewrite Hbusy; [reflexivity|reflexivity|discriminate].
  - rewrite Hidle; reflexivity.
Defined.

(** ** [peek_highest_priority_message] and [compare_priority] *)

Lemma peek_scan_max_element (queue_copy : list Message) :
  ∀ highest, peek_scan queue_copy highest
             = max_element_from compare_priority highest queue_copy.
Proof.
  induction queue_copy as [|current queue_copy IH]; intros highest;
    cbn [peek_scan max_element_from]; [done|].
  rewrite IH. unfold compare_priority, get_priority. by rewrite Z.gtb_ltb.
Qed.

(** X17.  The scan of [peek_highest_priority_message] finds what
    [std::max_element] finds on the mailbox with [Message::compare_priority]
    as the comparison; and [compare_priority] orders messages by the
    numbers of their priorities, LOW (0) below NORMAL (1) below HIGH (2)
    below CRITICAL (3), whatever their other fields: a message is below
    another exactly when its priority is a lower one of that order.
    [set_priority] replaces the priority of a message and keeps its type,
    sender, target, payload and creation time. *)
Theorem peek_is_max_element (A : Actor) (now : time_point) :
  (message_queue_ A ≠ [] →
     max_element compare_priority (message_queue_ A)
     = Some (fst (peek_highest_priority_message A now)))
  ∧ (message_queue_ A = [] → max_element compare_priority (message_queue_ A) = None)
  ∧ (∀ a b, compare_priority a b = true
            ↔ (priority_to_int (get_priority a) < priority_to_int (get_priority b))%Z)
  ∧ (∀ a b, compare_priority a b = false → compare_priority b a = false →
            get_priority a = get_priority b)
  ∧ (∀ p m, get_priority (set_priority p m) = p
            ∧ get_type (set_priority p m) = get_type m
            ∧ get_payload (set_priority p m) = get_payload m
            ∧ compare_priority (set_priority LOW m) (set_priority CRITICAL m) = true)
  ∧ (∀ p m, get_sender_id (set_priority p m) = get_sender_id m
            ∧ get_target_id (set_priority p m) = get_target_id m
            ∧ get_created_at (set_priority p m) = get_created_at m)
  ∧ (priority_to_int LOW = 0%Z ∧ priority_to_int NORMAL = 1%Z
     ∧ priority_to_int HIGH = 2%Z ∧ priority_to_int CRITICAL = 3%Z)
  ∧ (∀ a b,
       compare_priority a b = true
       ↔ (get_priority a = LOW
          ∧ (get_priority b = NORMAL ∨ get_priority b = HIGH ∨ get_priority b = CRITICAL))
         ∨ (get_priority a = NORMAL
            ∧ (get_priority b = HIGH ∨ get_priority b = CRITICAL))
         ∨ (get_priority a = HIGH ∧ get_priority b = CRITICAL)).
Proof.
  split; [|split; [|split; [|split; [|split; [|split; [|split]]]]]];
    [| | | | |by intros p m|done|].
  - intros Hne. unfold peek_highest_priority_message.
    destruct (message_queue_ A) as [|front rest]; [done|]. cbn.
    by rewrite peek_scan_max_element.
  - by intros ->.
  - intros a b. unfold compare_priority, get_priority. apply Z.ltb_lt.
  - intros a b. unfold compare_priority, get_priority.
    intros Hab%Z.ltb_ge Hba%Z.ltb_ge.
    destruct (priority_ a), (priority_ b); cbn in *; (done || lia).
  - intros p m. done.
  - intros a b. unfold compare_priority, get_priority.
    destruct (priority_ a), (priority_ b); cbn; split; intros Hab;
      try discriminate; try done; auto 10;
      destruct Hab as [[? Hb]|[[? Hb]|[? ?]]]; try discriminate;
      destruct Hb as [?|[?|?]] || destruct Hb as [?|?]; discriminate.
Qed.

Lemma peek_is_max_element_witness :
  message_queue_ (with_message_queue
                    [Examples.msg "a" "s" "t" NORMAL 1%Z;
                     Examples.msg "b" "s" "t" CRITICAL 2%Z;
                     Examples.msg "c" "s" "t" CRITICAL 3%Z]
                    (Actor_ctor "worker" 0 "id-worker")) ≠ []
  ∧ max_element compare_priority
      [Examples.msg "a" "s" "t" NORMAL 1%Z;
       Examples.msg "b" "s" "t" CRITICAL 2%Z;
       Examples.msg "c" "s" "t" CRITICAL 3%Z]
    = Some (fst (peek_highest_priority_message
                   (with_message_queue
                      [Examples.msg "a" "s" "t" NORMAL 1%Z;
                       Examples.msg "b" "s" "t" CRITICAL 2%Z;
                       Examples.msg "c" "s" "t" CRITICAL 3%Z]
                      (Actor_ctor "worker" 0 "id-worker")) 0%Z)).
Proof.
  assert (Hne : message_queue_ (with_message_queue
                                  [Examples.msg "a" "s" "t" NORMAL 1%Z;
                                   Examples.msg "b" "s" "t" CRITICAL 2%Z;
                                   Examples.msg "c" "s" "t" CRITICAL 3%Z]
                                  (Actor_ctor "worker" 0 "id-worker")) ≠ [])
    by discriminate.
  split; [exact Hne|].
  destruct (peek_is_max_element
              (with_message_queue
                 [Examples.msg "a" "s" "t" NORMAL 1%Z;
                  Examples.msg "b" "s" "t" CRITICAL 2%Z;
                  Examples.msg "c" "s" "t" CRITICAL 3%Z]
                 (Actor_ctor "worker" 0 "id-worker")) 0%Z) as [Hmax _].
  exact (Hmax Hne).
Defined.

(** ** [generate_id] *)

Lemma variant_char_code (d : fin 16) :
  (8 ≤ Ascii.nat_of_ascii (variant_char d) ≤ 11)%nat.
Proof.
  revert d. apply (bool_decide_unpack _). by vm_compute.
Qed.

(** X18.  Whatever the generator draws, [generate_id] returns a string of
    36 characters, hence never the empty string, with "-" at positions 8,
    13, 18 and 23 and "4" at position 14.  The character at position 19 is
    not a hexadecimal digit: it is the control character with code 8, 9,
    10 or 11.  The first eight characters are the digits of the first eight
    draws. *)
Theorem generate_id_format (draw : nat -> fin 16) :
  String.length (generate_id draw) = 36
  ∧ generate_id draw ≠ ""
  ∧ String.get 8 (generate_id draw) = Some "-"%char
  ∧ String.get 13 (generate_id draw) = Some "-"%char
  ∧ String.get 14 (generate_id draw) = Some "4"%char
  ∧ String.get 18 (generate_id draw) = Some "-"%char
  ∧ String.get 23 (generate_id draw) = Some "-"%char
  ∧ String.get 19 (generate_id draw) = Some (variant_char (draw 15))
  ∧ (8 ≤ Ascii.nat_of_ascii (variant_char (draw 15)) ≤ 11)%nat
  ∧ (∀ i, (i < 8)%nat → String.get i (generate_id draw) = Some (hex_digit (draw i))).
Proof.
  split; [reflexivity|]. split; [discriminate|].
  do 6 (split; [reflexivity|]). split; [apply variant_char_code|].
  intros i Hi. do 8 (destruct i as [|i]; [reflexivity|]). lia.
Qed.

(** ** [EventLoop::stop] *)

(** X19.  [EventLoop::stop] clears the run flag of its loop and touches
    nothing else: no actor, no registry, no other loop, no output.  After
    it the [while] loop of [run] ends at its next test without running a
    cycle, even when actors still have queued messages. *)
Theorem loop_stop_ends_run
    (invoke : MessageHandler -> Message -> World -> completion unit World)
    (iteration : gmap string addr -> list (string * addr))
    (S : Type) (scheduler_class : Scheduler S)
    (clock : list time_point) (loop : addr) (scheduler : S) (w : World) (E : EventLoop) :
  event_loops w !! loop = Some E →
  Loop.is_running loop (Loop.stop loop w) = false
  ∧ actors (Loop.stop loop w) = actors w
  ∧ output (Loop.stop loop w) = output w
  ∧ event_loops (Loop.stop loop w)
    = <[loop := {| actors_ := actors_ E; running_ := false |}]> (event_loops w)
  ∧ (∀ actor_id, find_actor loop actor_id (Loop.stop loop w) = find_actor loop actor_id w)
  ∧ has_work iteration loop (Loop.stop loop w) = has_work iteration loop w
  ∧ run_loop invoke iteration clock loop scheduler (Loop.stop loop w)
    = Some (Done tt (scheduler, Loop.stop loop w)).
Proof.
  intros HE.
  assert (Hstop : Loop.stop loop w
                  = write_event_loop loop {| actors_ := actors_ E; running_ := false |} w)
    by (unfold Loop.stop; by rewrite HE).
  rewrite Hstop.
  assert (Hflag : Loop.is_running loop
                    (write_event_loop loop
                       {| actors_ := actors_ E; running_ := false |} w) = false).
  { unfold Loop.is_running, write_event_loop; cbn. by rewrite lookup_insert_eq. }
  split; [done|]. split; [done|]. split; [done|]. split; [done|]. split; [|split].
  - intros actor_id. unfold find_actor, write_event_loop; cbn.
    by rewrite lookup_insert_eq, HE.
  - unfold has_work, write_event_loop; cbn. by rewrite lookup_insert_eq, HE.
  - destruct clock; cbn [run_loop]; by rewrite Hflag.
Qed.

Lemma loop_stop_ends_run_witness :
  event_loops MoreExamples.w_loop_running !! 0
  = Some {| actors_ := {[ "id-worker" := 0 ]}; running_ := true |}
  ∧ has_work map_to_list 0 (Loop.stop 0 MoreExamples.w_loop_running) = true
  ∧ run_loop MoreExamples.counting_handler map_to_list [1%Z; 2%Z] 0
      RoundRobinScheduler_ctor (Loop.stop 0 MoreExamples.w_loop_running)
    = Some (Done tt (RoundRobinScheduler_ctor, Loop.stop 0 MoreExamples.w_loop_running)).
Proof.
  assert (HE : event_loops MoreExamples.w_loop_running !! 0
               = Some {| actors_ := {[ "id-worker" := 0 ]}; running_ := true |})
    by reflexivity.
  split; [exact HE|]. split; [vm_compute; reflexivity|].
  destruct (loop_stop_ends_run MoreExamples.counting_handler map_to_list
              RoundRobinScheduler _ [1%Z; 2%Z] 0 RoundRobinScheduler_ctor _ _ HE)
    as (_ & _ & _ & _ & _ & _ & Hrun).
  exact Hrun.
Defined.

(** ** [send], from the sender to the mailbox *)

(** X20.  When the sender's loop is alive, [send] to the id of a
    registered [RUNNING] actor appends the rewritten message to that
    actor's mailbox — the sender's own mailbox when it sends to itself —
    and changes nothing else; [send] to an id that is not registered, or to
    an actor that is not [RUNNING], changes no object and prints the
    diagnostic of [deliver_message] with the target id given to [send]. *)
Theorem send_reaches_mailbox (this : addr) (target_actor_id : string) (message : Message)
    (now1 now2 : time_point) (w : World) (A : Actor) (E : EventLoop) :
  actors w !! this = Some A →
  event_loops w !! event_loop_ A = Some E →
  (∀ target T,
     actors_ E !! target_actor_id = Some target →
     actors w !! target = Some T →
     state_ T = RUNNING →
     mailbox target (send this target_actor_id message now1 now2 w)
     = Some (message_queue_ T
             ++ [send_rewrite (id_ A) target_actor_id message now1 now2])%list
     ∧ (∀ other, other ≠ target →
          actors (send this target_actor_id message now1 now2 w) !! other
          = actors w !! other)
     ∧ event_loops (send this target_actor_id message now1 now2 w) = event_loops w
     ∧ output (send this target_actor_id message now1 now2 w) = output w)
  ∧ (actors_ E !! target_actor_id = None →
     send this target_actor_id message now1 now2 w
     = print (err_target_not_found target_actor_id) w)
  ∧ (∀ target,
     actors_ E !! target_actor_id = Some target →
     get_state target w ≠ Some RUNNING →
     send this target_actor_id message now1 now2 w
     = print (err_target_not_running target_actor_id) w).
Proof.
  intros HA HE. rewrite (send_live_loop _ _ _ _ _ _ _ _ HA HE).
  unfold deliver_message.
  rewrite (find_actor_live _ _ _ _ HE), send_rewrite_target.
  split; [|split].
  - intros target T Hreg HT Hs. rewrite Hreg, (is_running_live _ _ _ HT).
    rewrite bool_decide_eq_true_2 by done.
    rewrite (receive_running _ _ _ _ HT Hs).
    unfold mailbox, write_actor; cbn [actors event_loops output].
    rewrite lookup_insert_eq. split; [done|]. split; [|done].
    intros other Hne. by rewrite lookup_insert_ne.
  - intros Hreg. by rewrite Hreg.
  - intros target Hreg Hs. rewrite Hreg. unfold is_running.
    by rewrite bool_decide_eq_false_2.
Qed.

Lemma send_reaches_mailbox_witness :
  actors MoreExamples.w_pair !! 0
  = Some (with_state RUNNING (with_state INITIALIZED (Actor_ctor "worker" 0 "id-worker")))
  ∧ event_loops MoreExamples.w_pair !! 0
    = Some {| actors_ := <["id-other" := 1]> {[ "id-worker" := 0 ]}; running_ := false |}
  ∧ mailbox 1 (send 0 "id-other" (Examples.msg "ping" "" "" HIGH 5%Z) 8%Z 9%Z
                 MoreExamples.w_pair)
    = Some [Examples.msg "ping" "id-worker" "id-other" NORMAL 8%Z]
  ∧ send 0 "id-nobody" (Examples.msg "ping" "" "" HIGH 5%Z) 8%Z 9%Z MoreExamples.w_pair
    = print (err_target_not_found "id-nobody") MoreExamples.w_pair.
Proof.
  assert (HA : actors MoreExamples.w_pair !! 0
               = Some (with_state RUNNING
                         (with_state INITIALIZED (Actor_ctor "worker" 0 "id-worker"))))
    by reflexivity.
  assert (HE : event_loops MoreExamples.w_pair !! 0
               = Some {| actors_ := <["id-other" := 1]> {[ "id-worker" := 0 ]};
                         running_ := false |})
    by reflexivity.
  split; [exact HA|]. split; [exact HE|].
  destruct (send_reaches_mailbox 0 "id-other" (Examples.msg "ping" "" "" HIGH 5%Z)
              8%Z 9%Z _ _ _ HA HE) as [Hok _].
  destruct (send_reaches_mailbox 0 "id-nobody" (Examples.msg "ping" "" "" HIGH 5%Z)
              8%Z 9%Z _ _ _ HA HE) as (_ & Hnone & _).
  split; [|exact (Hnone eq_refl)].
  destruct (Hok 1 (with_state RUNNING
                     (with_state INITIALIZED (Actor_ctor "other" 0 "id-other")))
              eq_refl eq_refl eq_refl) as [Hbox _].
  exact Hbox.
Defined.

(** ** A cycle under [MessagePriorityScheduler] *)

(** The number [peek_priority] gives for an actor with queued messages is
    the priority of one of them, and none of them has a greater one. *)
Lemma peek_priority_queued (actor : addr) (w : World) (now : time_point) (A : Actor) :
  actors w !! actor = Some A →
  message_queue_ A ≠ [] →
  ∃ top, top ∈ message_queue_ A
         ∧ MessagePriorityScheduler.peek_priority actor w now
           = priority_to_int (get_priority top)
         ∧ ∀ m, m ∈ message_queue_ A →
             (priority_to_int (get_priority m) ≤ priority_to_int (get_priority top))%Z.
Proof.
  intros HA Hq. unfold MessagePriorityScheduler.peek_priority. rewrite HA.
  unfold peek_highest_priority_message.
  destruct (message_queue_ A) as [|front rest]; [done|]. cbn [fst].
  destruct (peek_scan_first_of_greatest rest [front] 0 front
              (first_of_greatest_priority_singleton front)) as (i & Hi & Hall & _).
  exists (peek_scan rest front). split; [by eapply list_elem_of_lookup_2|].
  split; [done|]. intros m Hm. apply list_elem_of_lookup in Hm as [j Hj]. by eapply Hall.
Qed.

(** X21.  In a cycle scheduled by [MessagePriorityScheduler] the one call
    of [process_next_message] is made on a registered eligible actor that
    holds a queued message [top] of the greatest priority found in the
    mailboxes of all registered eligible actors: no message queued at that
    actor, and no message queued at any other registered actor that is
    [RUNNING] or [STOPPING], has a greater priority than [top].  The cycle
    returns when that call returns and throws when it throws, and leaves
    the store the call has left. *)
Theorem message_priority_cycle
    (invoke : MessageHandler -> Message -> World -> completion unit World)
    (iteration : gmap string addr -> list (string * addr))
    (loop : addr) (now : time_point) (w : World) (E : EventLoop) :
  (∀ m, iteration m ≡ₚ map_to_list m) →
  event_loops w !! loop = Some E →
  has_work iteration loop w = true →
  ∃ actor_id actor A top,
    actors_ E !! actor_id = Some actor
    ∧ actors w !! actor = Some A
    ∧ (state_ A = RUNNING ∨ state_ A = STOPPING)
    ∧ top ∈ message_queue_ A
    ∧ (state_after (process_one_cycle invoke iteration loop now
                      MessagePriorityScheduler_state.mk w)).2
      = state_after (process_next_message invoke actor w)
    ∧ value_of (process_one_cycle invoke iteration loop now
                  MessagePriorityScheduler_state.mk w)
      = (λ _, tt) <$> value_of (process_next_message invoke actor w)
    ∧ (∀ m, m ∈ message_queue_ A →
         (priority_to_int (get_priority m) ≤ priority_to_int (get_priority top))%Z)
    ∧ (∀ other_id other B m,
         actors_ E !! other_id = Some other →
         actors w !! other = Some B →
         state_ B = RUNNING ∨ state_ B = STOPPING →
         m ∈ message_queue_ B →
         (priority_to_int (get_priority m) ≤ priority_to_int (get_priority top))%Z).
Proof.
  intros Hperm HE Hwork.
  destruct (process_one_cycle_step (H0 := message_priority_picks) invoke iteration Hperm
              loop now MessagePriorityScheduler_state.mk w E HE Hwork)
    as (actor_id & actor & A & Hreg & HA & Hs & Hq & Hnext & Hcycle).
  destruct (peek_priority_queued actor w now A HA Hq) as (top & Htop & Hpeek & Hown).
  exists actor_id, actor, A, top. do 4 (split; [done|]).
  split; [rewrite Hcycle; by destruct (process_next_message invoke actor w)|].
  split; [rewrite Hcycle; by destruct (process_next_message invoke actor w)|].
  split; [done|].
  intros other_id other B m Hreg' HB Hs' Hm.
  assert (Hq' : message_queue_ B ≠ []).
  { intros Hnil. rewrite Hnil in Hm. by apply elem_of_nil in Hm. }
  assert (Hin : other ∈ active_actors iteration E w).
  { apply (elem_of_active_actors iteration Hperm). exists other_id.
    split; [done|]. apply eligible_true. eauto. }
  assert (Hne : active_actors iteration E w ≠ []).
  { intros Hnil. rewrite Hnil in Hin. by apply elem_of_nil in Hin. }
  destruct (max_element_first_greatest
              (λ a, MessagePriorityScheduler.peek_priority a w now)
              (λ a b, (MessagePriorityScheduler.peek_priority a w now
                       <? MessagePriorityScheduler.peek_priority b w now)%Z)
              (active_actors iteration E w) Hne) as (i & r & Hmax & _ & Hall & _);
    [done|].
  assert (Hr : r = actor).
  { unfold scheduler_next_actor, MessagePriorityScheduler_Scheduler,
      MessagePriorityScheduler.next_actor in Hnext. cbn [fst] in Hnext.
    destruct (active_actors iteration E w); [done|]. congruence. }
  subst r. apply list_elem_of_lookup in Hin as [j Hj].
  specialize (Hall j other Hj). cbn beta in Hall.
  destruct (peek_priority_queued other w now B HB Hq') as (top' & _ & Hpeek' & Hown').
  specialize (Hown' m Hm). lia.
Qed.

Lemma message_priority_cycle_witness :
  (∀ m : gmap string addr, map_to_list m ≡ₚ map_to_list m)
  ∧ event_loops MoreExamples.w_low_high !! 0
    = Some {| actors_ := <["id-other" := 1]> {[ "id-worker" := 0 ]}; running_ := false |}
  ∧ has_work map_to_list 0 MoreExamples.w_low_high = true
  ∧ mailbox 0 MoreExamples.w_low_high
    = Some [Examples.msg "job" "id-sender" "id-worker" LOW 5%Z]
  ∧ mailbox 1 MoreExamples.w_low_high
    = Some [Examples.msg "job" "id-sender" "id-other" HIGH 6%Z]
  ∧ (state_after (process_one_cycle MoreExamples.counting_handler map_to_list 0 1%Z
                    MessagePriorityScheduler_state.mk MoreExamples.w_low_high)).2
    = state_after (process_next_message MoreExamples.counting_handler 1
                     MoreExamples.w_low_high).
Proof.
  assert (Hperm : ∀ m : gmap string addr, map_to_list m ≡ₚ map_to_list m)
    by (intros m; reflexivity).
  assert (HE : event_loops MoreExamples.w_low_high !! 0
               = Some {| actors_ := <["id-other" := 1]> {[ "id-worker" := 0 ]};
                         running_ := false |})
    by reflexivity.
  assert (Hwork : has_work map_to_list 0 MoreExamples.w_low_high = true)
    by (vm_compute; reflexivity).
  assert (Hbox0 : mailbox 0 MoreExamples.w_low_high
                  = Some [Examples.msg "job" "id-sender" "id-worker" LOW 5%Z])
    by reflexivity.
  assert (HB : actors MoreExamples.w_low_high !! 1
               = Some (with_message_queue
                         [Examples.msg "job" "id-sender" "id-other" HIGH 6%Z]
                         (with_state RUNNING
                            (with_state INITIALIZED (Actor_ctor "other" 0 "id-other")))))
    by reflexivity.
  split; [exact Hperm|]. split; [exact HE|]. split; [exact Hwork|].
  split; [exact Hbox0|]. split; [reflexivity|].
  destruct (message_priority_cycle MoreExamples.counting_handler map_to_list 0 1%Z
              _ _ Hperm HE Hwork)
    as (actor_id & actor & A & top & Hreg & HA & _ & Htop & Hcycle & _ & _ & Hothers).
  cbn [actors_] in Hreg.
  apply lookup_insert_Some in Hreg as [[_ <-]|[_ Hreg]]; [exact Hcycle|].
  apply lookup_singleton_Some in Hreg as [_ <-]. exfalso.
  rewrite (mailbox_live _ _ _ HA) in Hbox0. injection Hbox0 as Hq.
  rewrite Hq in Htop. apply list_elem_of_singleton in Htop. subst top.
  specialize (Hothers "id-other" 1 _
                (Examples.msg "job" "id-sender" "id-other" HIGH 6%Z)
                eq_refl HB (or_introl eq_refl) (list_elem_of_here _ _)).
  cbn in Hothers. lia.
Defined.

(** ** [has_payload_key] *)

(** X22.  [has_payload_key] is the exact guard against the missing-key
    failure of the strict accessor: for every expected type,
    [get_payload_value] throws "Key not found in payload" if and only if
    [has_payload_key] is false; when it is true the strict accessor either
    returns the stored value or throws the type-mismatch failure. *)
Theorem has_payload_key_guards (bad_any_cast_what : string) (T : Type)
    (cast : AnyCast T) (m : Message) (key : string) :
  (has_payload_key m key = false
   ↔ get_payload_value (T:=T) bad_any_cast_what m key
     = Throws (runtime_error ("Key not found in payload: " ++ key)))
  ∧ (has_payload_key m key = true
     ↔ (∃ v, get_payload_value (T:=T) bad_any_cast_what m key = Returns v)
       ∨ get_payload_value (T:=T) bad_any_cast_what m key
         = Throws (runtime_error
                     ("Type mismatch for key '" ++ key ++ "': " ++ bad_any_cast_what))).
Proof.
  unfold has_payload_key, get_payload_value.
  destruct (payload_ m !! key) as [second|] eqn:Hk.
  - rewrite bool_decide_eq_true_2 by eauto.
    destruct (any_cast second) as [v|].
    + split; [split; discriminate|]. split; [eauto|done].
    + split; [split; [discriminate|]|].
      * cbn. discriminate.
      * split; [auto|done].
  - rewrite bool_decide_eq_false_2 by (intros [? ?]; discriminate).
    split; [done|]. split; [discriminate|].
    intros [[v Hv]|Hmis]; [discriminate|]. cbn in Hmis. discriminate.
Qed.

(** ** [peek_next_message] *)

(** X23.  [peek_next_message] returns the front of the mailbox, the
    message the next [process_next_message] will take, or the sentinel
    message on an empty mailbox.  Its priority never exceeds that of
    [peek_highest_priority_message], and the two functions return the same
    message exactly when no queued message has a greater priority than the
    front one. *)
Theorem peek_next_message_spec (A : Actor) (now : time_point) :
  (message_queue_ A = [] →
     peek_next_message A now = Message_ctor "empty" "" "" ∅ NORMAL now
     ∧ fst (peek_highest_priority_message A now) = peek_next_message A now)
  ∧ (∀ front rest,
       message_queue_ A = front :: rest →
       peek_next_message A now = front
       ∧ (priority_to_int (get_priority (peek_next_message A now))
          ≤ priority_to_int (get_priority (fst (peek_highest_priority_message A now))))%Z
       ∧ (fst (peek_highest_priority_message A now) = peek_next_message A now
          ↔ ∀ m, m ∈ rest →
              (priority_to_int (get_priority m) ≤ priority_to_int (get_priority front))%Z)).
Proof.
  unfold peek_next_message, peek_highest_priority_message. split.
  - by intros ->.
  - intros front rest ->. cbn [fst]. split; [done|].
    destruct (peek_scan_first_of_greatest rest [front] 0 front
                (first_of_greatest_priority_singleton front))
      as (i & Hi & Hall & Hfirst).
    cbn [app] in *. split; [by apply (Hall 0)|]. split.
    + intros Heq m Hm. rewrite Heq in Hall.
      apply list_elem_of_lookup in Hm as [j Hj]. by apply (Hall (Datatypes.S j)).
    + intros Hle. destruct i as [|i]; [by injection Hi|].
      specialize (Hfirst 0 front ltac:(lia) eq_refl).
      cbn in Hi. apply list_elem_of_lookup_2 in Hi. specialize (Hle _ Hi). lia.
Qed.

Lemma peek_next_message_spec_witness :
  message_queue_ (with_message_queue
                    [Examples.msg "a" "s" "t" HIGH 1%Z; Examples.msg "b" "s" "t" LOW 2%Z]
                    (Actor_ctor "worker" 0 "id-worker"))
  = [Examples.msg "a" "s" "t" HIGH 1%Z; Examples.msg "b" "s" "t" LOW 2%Z]
  ∧ fst (peek_highest_priority_message
           (with_message_queue
              [Examples.msg "a" "s" "t" HIGH 1%Z; Examples.msg "b" "s" "t" LOW 2%Z]
              (Actor_ctor "worker" 0 "id-worker")) 0%Z)
    = peek_next_message
        (with_message_queue
           [Examples.msg "a" "s" "t" HIGH 1%Z; Examples.msg "b" "s" "t" LOW 2%Z]
           (Actor_ctor "worker" 0 "id-worker")) 0%Z.
Proof.
  split; [reflexivity|].
  destruct (peek_next_message_spec
              (with_message_queue
                 [Examples.msg "a" "s" "t" HIGH 1%Z; Examples.msg "b" "s" "t" LOW 2%Z]
                 (Actor_ctor "worker" 0 "id-worker")) 0%Z) as [_ Hfront].
  destruct (Hfront _ _ eq_refl) as (_ & _ & Hsame).
  apply Hsame. intros m Hm. apply list_elem_of_singleton in Hm as ->.
  vm_compute. discriminate.
Defined.

(** ** [run], from the loop to the end *)

Lemma run_stop_actors_at (iteration : gmap string addr -> list (string * addr))
    (loop : addr) (w : World) (E : EventLoop) (b : addr) :
  event_loops w !! loop = Some E →
  actors (run_stop_actors iteration loop w) !! b
  = if decide (b ∈ (iteration (actors_ E)).*2) then asked_to_stop <$> actors w !! b
    else actors w !! b.
Proof.
  intros HE. unfold run_stop_actors. rewrite HE.
  apply (for_each_actor stop_if_running asked_to_stop stop_if_running_at
           stop_if_running_loops asked_to_stop_twice).
Qed.

(** X24.  Running to quiescence: with handlers that return and change no
    actor and no loop, a scheduler that picks one of its candidates and the
    run flag set, the [while] loop of [run] ends and its last loop follows;
    together they leave every registered actor that was still [RUNNING]
    when the [while] loop ended [STOPPED] with an empty mailbox, and no
    registered actor is [RUNNING] or holds a message it could still
    process.  With a handler that throws, the exception that leaves the
    [while] loop leaves [run]: the last loop is not reached and no actor is
    asked to stop. *)
Theorem run_to_quiescence
    (invoke : MessageHandler -> Message -> World -> completion unit World)
    (iteration : gmap string addr -> list (string * addr))
    (S : Type) (scheduler_class : Scheduler S) (picks : SchedulerPicks S)
    (clock : list time_point) (loop : addr) (scheduler : S) (w : World) (E : EventLoop) :
  (∀ m, iteration m ≡ₚ map_to_list m) →
  handlers_quiet invoke →
  event_loops w !! loop = Some E →
  running_ E = true →
  (pending w ≤ length clock)%nat →
  ∃ result,
    run_loop_then_stop invoke iteration clock loop scheduler w = Some result
    ∧ (∀ e after,
         run_loop invoke iteration clock loop scheduler w = Some (Raised e after) →
         result = Raised e after)
    ∧ (handlers_return invoke →
         ∃ scheduler' w',
           run_loop invoke iteration clock loop scheduler w
           = Some (Done tt (scheduler', w')))
    ∧ (∀ scheduler' w',
         run_loop invoke iteration clock loop scheduler w
         = Some (Done tt (scheduler', w')) →
         result = Done tt (scheduler', run_stop_actors iteration loop w')
         ∧ has_work iteration loop (run_stop_actors iteration loop w') = false
         ∧ ∀ actor_id actor A',
             actors_ E !! actor_id = Some actor →
             actors w' !! actor = Some A' →
             get_state actor (run_stop_actors iteration loop w') ≠ Some RUNNING
             ∧ (state_ A' = RUNNING →
                  message_queue_ A' = []
                  ∧ actors (run_stop_actors iteration loop w') !! actor
                    = Some (with_state STOPPED A'))
             ∧ (state_ A' ≠ RUNNING →
                  actors (run_stop_actors iteration loop w') !! actor = Some A')).
Proof.
  intros Hperm Hquiet HE Hflag Hfuel.
  destruct (run_loop_quiesces_from invoke iteration Hperm Hquiet loop E clock scheduler w
              HE Hfuel) as (result0 & Hrun & Hloops & _ & Hend & _ & Hreturn).
  unfold run_loop_then_stop. rewrite Hrun.
  destruct result0 as [[] [scheduler0 w0]|e0 after0].
  2:{ exists (Raised e0 after0). split; [done|].
      split; [by intros e after [= <- <-]|].
      split; [intros Hret; by destruct (Hreturn Hret) as (? & ? & ?)|].
      by intros scheduler' w'. }
  exists (Done tt (scheduler0, run_stop_actors iteration loop w0)). split; [done|].
  split; [by intros e after|].
  split; [intros _; eauto|].
  intros scheduler' w' [= <- <-]. cbn [state_after snd] in *. split; [done|].
  specialize (Hend scheduler0 w0 eq_refl).
  set (scheduler' := scheduler0). set (w' := w0) in *.
  assert (HE' : event_loops w' !! loop = Some E) by (by rewrite Hloops).
  assert (Hidle : has_work iteration loop w' = false).
  { unfold Loop.is_running in Hend. by rewrite HE', Hflag in Hend. }
  assert (Hempty : ∀ actor_id actor A',
            actors_ E !! actor_id = Some actor →
            actors w' !! actor = Some A' →
            state_ A' = RUNNING ∨ state_ A' = STOPPING →
            message_queue_ A' = []).
  { intros actor_id actor A' Hreg HA' Hs.
    destruct (message_queue_ A') as [|message rest] eqn:Hq; [done|].
    apply not_true_iff_false in Hidle. exfalso. apply Hidle.
    apply (has_work_eligible iteration Hperm _ _ _ HE').
    exists actor_id, actor. split; [done|]. apply eligible_true.
    exists A'. by rewrite Hq. }
  assert (Hafter : ∀ actor_id actor A',
            actors_ E !! actor_id = Some actor →
            actors w' !! actor = Some A' →
            actors (run_stop_actors iteration loop w') !! actor
            = Some (asked_to_stop A')).
  { intros actor_id actor A' Hreg HA'.
    rewrite (run_stop_actors_at iteration loop w' E actor HE').
    rewrite decide_True by (apply (registered_iteration iteration _ _ Hperm); eauto).
    by rewrite HA'. }
  split.
  - apply not_true_iff_false. intros Hwork.
    assert (HE'' : event_loops (run_stop_actors iteration loop w') !! loop = Some E).
    { unfold run_stop_actors. rewrite HE'.
      destruct (for_each_actor stop_if_running asked_to_stop stop_if_running_at
                  stop_if_running_loops asked_to_stop_twice (iteration (actors_ E)) w')
        as [-> _]. done. }
    apply (has_work_eligible iteration Hperm _ _ _ HE'') in Hwork
      as (actor_id & actor & Hreg & Hel).
    apply eligible_true in Hel as (A3 & HA3 & Hs3 & Hq3).
    rewrite (run_stop_actors_at iteration loop w' E actor HE') in HA3.
    rewrite decide_True in HA3
      by (apply (registered_iteration iteration _ _ Hperm); eauto).
    destruct (actors w' !! actor) as [A'|] eqn:HA'; [|discriminate].
    injection HA3 as <-. unfold asked_to_stop in Hs3, Hq3.
    destruct (decide (state_ A' = RUNNING)) as [Hs|Hs]; cbn in Hs3, Hq3.
    + by rewrite (Hempty _ _ _ Hreg HA' (or_introl Hs)) in Hq3.
    + by rewrite (Hempty _ _ _ Hreg HA' Hs3) in Hq3.
  - intros actor_id actor A' Hreg HA'.
    pose proof (Hafter _ _ _ Hreg HA') as Hstop. unfold get_state. rewrite Hstop.
    unfold asked_to_stop. destruct (decide (state_ A' = RUNNING)) as [Hs|Hs].
    + rewrite (Hempty _ _ _ Hreg HA' (or_introl Hs)). cbn.
      split; [discriminate|]. split; [done|]. intros Hns. done.
    + cbn. split; [congruence|]. split; [done|]. done.
Qed.

Lemma run_to_quiescence_witness :
  (∀ m : gmap string addr, map_to_list m ≡ₚ map_to_list m)
  ∧ handlers_quiet MoreExamples.counting_handler
  ∧ handlers_return MoreExamples.counting_handler
  ∧ event_loops MoreExamples.w_loop_running !! 0
    = Some {| actors_ := {[ "id-worker" := 0 ]}; running_ := true |}
  ∧ (pending MoreExamples.w_loop_running ≤ length [1%Z; 2%Z])%nat
  ∧ (∃ scheduler' w',
       run_loop_then_stop MoreExamples.counting_handler map_to_list [1%Z; 2%Z] 0
         RoundRobinScheduler_ctor MoreExamples.w_loop_running
       = Some (Done tt (scheduler', w'))
       ∧ get_state 0 w' = Some STOPPED
       ∧ mailbox 0 w' = Some [])
  ∧ (∃ e scheduler' w',
       run_loop_then_stop Examples.pong_handler map_to_list [1%Z; 2%Z] 0
         RoundRobinScheduler_ctor MoreExamples.w_loop_running
       = Some (Raised e (scheduler', w'))
       ∧ get_state 0 w' = Some RUNNING
       ∧ mailbox 0 w' = Some [Examples.msg "pong" "id-other" "id-worker" HIGH 6%Z]).
Proof.
  assert (Hperm : ∀ m : gmap string addr, map_to_list m ≡ₚ map_to_list m)
    by (intros m; reflexivity).
  assert (Hquiet : handlers_quiet MoreExamples.counting_handler)
    by (intros handler message w; split; reflexivity).
  assert (Hreturn : handlers_return MoreExamples.counting_handler)
    by (intros handler message w; eexists; reflexivity).
  assert (HE : event_loops MoreExamples.w_loop_running !! 0
               = Some {| actors_ := {[ "id-worker" := 0 ]}; running_ := true |})
    by reflexivity.
  assert (Hfuel : (pending MoreExamples.w_loop_running ≤ length [1%Z; 2%Z])%nat)
    by (vm_compute; lia).
  split; [exact Hperm|]. split; [exact Hquiet|]. split; [exact Hreturn|].
  split; [exact HE|]. split; [exact Hfuel|].
  split.
  - destruct (run_to_quiescence MoreExamples.counting_handler map_to_list
                RoundRobinScheduler _ round_robin_picks [1%Z; 2%Z] 0
                RoundRobinScheduler_ctor _ _ Hperm Hquiet HE eq_refl Hfuel)
      as (result & Hrun & _ & Hends & Hdone).
    destruct (Hends Hreturn) as (scheduler' & w' & Hloop).
    destruct (Hdone scheduler' w' Hloop) as (-> & _ & _).
    exists scheduler', (run_stop_actors map_to_list 0 w'). split; [exact Hrun|].
    vm_compute in Hloop. injection Hloop as _ <-. split; reflexivity.
  - eexists _, _, _. split; [vm_compute; reflexivity|]. split; reflexivity.
Defined.
